(** * WaterNet vectorization: basin connection and skeleton tracing

    A shallow embedding of [wwvec/basin_vectorization/connect.py] (class
    [Connector]) and [wwvec/basin_vectorization/vectorize.py] (class
    [Vectorizer]), followed by the properties of the edge weight function,
    the grid graph, the path stitcher and the skeleton tracer. *)

From Stdlib Require Import ZArith QArith Lia Lqa List Bool.
From stdpp Require Import gmap strings list.

Open Scope Z_scope.

(** ** Python outcomes

    A method either returns a value or raises; in both cases the mutated
    object is kept, because an exception leaves the updates made so far in
    place.  [LibraryError] stands for an exception that networkx raises
    itself (ValueError for an empty list of sources, NodeNotFound for a
    source that is not in the graph).
    [OutOfFuel] is not a Python exception: it marks a run of the model that
    was given too little fuel for its loops and recursion. *)

Inductive exn : Type :=
| IndexError
| AttributeError (attr : string)
| TypeError
| LibraryError
| OutOfFuel.

Inductive result (S A : Type) : Type :=
| Ok (a : A) (s : S)
| Raise (e : exn) (s : S).

Arguments Ok {S A} a s.
Arguments Raise {S A} e s.

Definition final_state {S A} (r : result S A) : S :=
  match r with Ok _ s => s | Raise _ s => s end.

Definition M (S A : Type) : Type := S -> result S A.

Definition ret {S A} (a : A) : M S A := fun s => Ok a s.
Definition raise {S A} (e : exn) : M S A := fun s => Raise e s.
Definition bind {S A B} (m : M S A) (k : A -> M S B) : M S B :=
  fun s => match m s with
           | Ok a s' => k a s'
           | Raise e s' => Raise e s'
           end.
Definition get_state {S} : M S S := fun s => Ok s s.
Definition modify {S} (f : S -> S) : M S unit := fun s => Ok tt (f s).
Definition lift_option {S A} (o : option A) : M S A :=
  match o with Some a => ret a | None => raise IndexError end.

Notation "'do' x <- m ; k" := (bind m (fun x => k))
  (at level 10, x name, m at level 100, k at level 200).
Notation "'do' ' p <- m ; k" := (bind m (fun x => let 'p := x in k))
  (at level 10, p strict pattern, m at level 100, k at level 200).
Notation "'run' m ; k" := (bind m (fun _ => k))
  (at level 10, m at level 100, k at level 200).

(** ** numpy arrays *)

Definition cell : Type := Z * Z.

Module Numpy.

(** A two-dimensional array: its shape and its items.  Only the items
    inside the shape are meaningful. *)
Record ndarray (A : Type) : Type := mk_ndarray {
  nrows : Z;
  ncols : Z;
  item : Z -> Z -> A
}.
Arguments mk_ndarray {A} _ _ _.
Arguments nrows {A} _.
Arguments ncols {A} _.
Arguments item {A} _ _ _.

(** Integer indexing along an axis of length [n]: a negative index counts
    from the end, anything outside [-n, n) raises IndexError. *)
Definition index (n i : Z) : option Z :=
  if (0 <=? i) && (i <? n) then Some i
  else if (- n <=? i) && (i <? 0) then Some (i + n)
  else None.

(** [a[row, col]] *)
Definition getitem {A} (a : ndarray A) (rc : cell) : option A :=
  match index (nrows a) (fst rc), index (ncols a) (snd rc) with
  | Some r, Some c => Some (item a r c)
  | _, _ => None
  end.

(** [a[row, col] = v] *)
Definition setitem {A} (a : ndarray A) (rc : cell) (v : A) : option (ndarray A) :=
  match index (nrows a) (fst rc), index (ncols a) (snd rc) with
  | Some r, Some c =>
      Some (mk_ndarray (nrows a) (ncols a)
              (fun r' c' => if (r' =? r) && (c' =? c) then v else item a r' c'))
  | _, _ => None
  end.

(** Bounds of a slice [start:stop] along an axis of length [n]. *)
Definition slice_bound (n i : Z) : Z :=
  if i <? 0 then Z.max 0 (i + n) else Z.min i n.

(** [range(lo, hi)] *)
Definition range (lo hi : Z) : list Z :=
  map (fun k => lo + Z.of_nat k) (seq 0 (Z.to_nat (hi - lo))).

(** The items of [a[r0:r1, c0:c1]], row by row. *)
Definition slice {A} (a : ndarray A) (r0 r1 c0 c1 : Z) : list A :=
  r ← range (slice_bound (nrows a) r0) (slice_bound (nrows a) r1);
  c ← range (slice_bound (ncols a) c0) (slice_bound (ncols a) c1);
  [item a r c].

(** All index pairs in row-major order, the order of [np.where]. *)
Definition indices {A} (a : ndarray A) : list cell :=
  r ← range 0 (nrows a); c ← range 0 (ncols a); [(r, c)].

(** The index pairs selected by [np.where(cond)], zipped. *)
Definition argwhere {A} (p : A -> bool) (a : ndarray A) : list cell :=
  filter (fun rc => p (item a rc.1 rc.2) = true) (indices a).

(** [np.any(cond)] *)
Definition any {A} (p : A -> bool) (a : ndarray A) : bool :=
  existsb (fun rc => p (item a (fst rc) (snd rc))) (indices a).

(** An array from its rows; the shape is taken from the first row. *)
Definition of_rows {A} (d : A) (rows : list (list A)) : ndarray A :=
  mk_ndarray (Z.of_nat (length rows))
    (Z.of_nat (length (hd [] rows)))
    (fun r c => nth (Z.to_nat c) (nth (Z.to_nat r) rows []) d).

End Numpy.

(** ** Floating-point values

    Finite values are exact rationals; the special values follow IEEE 754,
    as numpy and Python floats do.  Rounding, overflow and the sign of zero
    are not represented: a finite result is the code's result where the
    code's arithmetic is exact (as on integers that the format holds), and
    an order between results is the code's wherever rounding, which is
    monotone, keeps it. *)

Module Float.

Inductive float : Type :=
| Fin (q : Q)
| PInf
| NInf
| NaN.

Definition zero : float := Fin 0.
Definition of_Z (z : Z) : float := Fin (inject_Z z).

Definition sign_of (q : Q) : comparison := (q ?= 0)%Q.

(** [a - b] *)
Definition sub (a b : float) : float :=
  match a, b with
  | NaN, _ | _, NaN => NaN
  | Fin x, Fin y => Fin (x - y)
  | Fin _, PInf => NInf
  | Fin _, NInf => PInf
  | PInf, PInf => NaN
  | PInf, _ => PInf
  | NInf, NInf => NaN
  | NInf, _ => NInf
  end.

Definition inf_times (pos : bool) (q : Q) : float :=
  match sign_of q with
  | Eq => NaN
  | Gt => if pos then PInf else NInf
  | Lt => if pos then NInf else PInf
  end.

(** [a * b]; zero times infinity is NaN. *)
Definition mul (a b : float) : float :=
  match a, b with
  | NaN, _ | _, NaN => NaN
  | Fin x, Fin y => Fin (x * y)
  | Fin x, PInf | PInf, Fin x => inf_times true x
  | Fin x, NInf | NInf, Fin x => inf_times false x
  | PInf, PInf | NInf, NInf => PInf
  | PInf, NInf | NInf, PInf => NInf
  end.

(** [a + b] *)
Definition add (a b : float) : float :=
  match a, b with
  | NaN, _ | _, NaN => NaN
  | Fin x, Fin y => Fin (x + y)
  | PInf, NInf | NInf, PInf => NaN
  | PInf, _ | _, PInf => PInf
  | NInf, _ | _, NInf => NInf
  end.

(** [a / n] for a positive count [n] *)
Definition div_count (a : float) (n : nat) : float :=
  match a with
  | Fin x => Fin (x / inject_Z (Z.of_nat n))
  | _ => a
  end.

(** [.mean()] of the items of an array; the mean of no items is NaN. *)
Definition mean (l : list float) : float :=
  match l with
  | [] => NaN
  | _ => div_count (foldl add (Fin 0) l) (length l)
  end.

(** [a < b]; every comparison with NaN is false. *)
Definition ltb (a b : float) : bool :=
  match a, b with
  | NaN, _ | _, NaN => false
  | Fin x, Fin y => negb (Qle_bool y x)
  | _, NInf => false
  | NInf, _ => true
  | PInf, _ => false
  | Fin _, PInf => true
  end.

(** [a > b] *)
Definition gtb (a b : float) : bool := ltb b a.

(** [a == b] *)
Definition eqb (a b : float) : bool :=
  match a, b with
  | Fin x, Fin y => Qeq_bool x y
  | PInf, PInf | NInf, NInf => true
  | _, _ => false
  end.

(** [a <= b] *)
Definition leb (a b : float) : bool := ltb a b || eqb a b.

(** Python's built-in [max(a, b)]: the first argument is kept unless the
    second compares greater. *)
Definition py_max (a b : float) : float := if gtb b a then b else a.

Definition is_nan (a : float) : bool :=
  match a with NaN => true | _ => false end.

End Float.

Import Numpy.
Import Float.

(** ** connect.py *)

Module Connect.

(** The arrays that are shared between the caller and the [Connector] live
    in a store and are referred to by address, so that in-place updates and
    copies can be told apart. *)
Record heap : Type := mk_heap {
  int_arrays : gmap nat (ndarray Z);
  float_arrays : gmap nat (ndarray float)
}.

Definition fresh_float (h : heap) : nat := fresh (dom (float_arrays h)).

(** [BasinData]: the grids that [Connector] reads.  [component_grid] and
    [weight_grid] are addresses in the store. *)
Record BasinData : Type := mk_BasinData {
  bd_component_grid : nat;
  bd_probability_grid : ndarray float;
  bd_elevation_grid : ndarray float;
  bd_weight_grid : nat;
  bd_main_component : Z
}.

Record Connector : Type := mk_Connector {
  num_rows : Z;
  num_cols : Z;
  nodes : list cell;
  elevation_grid : ndarray float;
  weight_grid : nat;
  component_grid : nat;
  component : Z;
  graph : gmap (cell * cell) float
}.

Definition load_int (a : nat) : M heap (ndarray Z) :=
  fun h => lift_option (int_arrays h !! a) h.
Definition load_float (a : nat) : M heap (ndarray float) :=
  fun h => lift_option (float_arrays h !! a) h.
Definition store_int (a : nat) (g : ndarray Z) : M heap unit :=
  modify (fun h => mk_heap (<[a := g]> (int_arrays h)) (float_arrays h)).
Definition store_float (a : nat) (g : ndarray float) : M heap unit :=
  modify (fun h => mk_heap (int_arrays h) (<[a := g]> (float_arrays h))).

(** [grid[row, col]] for a grid in the store *)
Definition read_int (a : nat) (rc : cell) : M heap Z :=
  do g <- load_int a; lift_option (getitem g rc).
Definition read_float (a : nat) (rc : cell) : M heap float :=
  do g <- load_float a; lift_option (getitem g rc).

(** [grid[row, col] = v] for a grid in the store *)
Definition write_int (a : nat) (rc : cell) (v : Z) : M heap unit :=
  do g <- load_int a; do g' <- lift_option (setitem g rc v); store_int a g'.
Definition write_float (a : nat) (rc : cell) (v : float) : M heap unit :=
  do g <- load_float a; do g' <- lift_option (setitem g rc v); store_float a g'.

(** [weight_grid.copy()]: a new array with the same items. *)
Definition copy_float (a : nat) : M heap nat :=
  do g <- load_float a;
  do h <- get_state;
  let a' := fresh_float h in
  run store_float a' g;
  ret a'.

(** *** Connector.get_weight *)

(** The body of [get_weight] once the three grid items are read. *)
Definition edge_cost (elevation1 elevation2 weight max_elevation_diff : float) : float :=
  let elevation_diff := py_max zero (sub elevation1 elevation2) in
  let elevation_diff :=
    if gtb elevation_diff max_elevation_diff then PInf else elevation_diff in
  if eqb elevation_diff zero then weight
  else py_max (mul weight elevation_diff) elevation_diff.

Definition default_max_elevation_diff : float := of_Z 20.

Definition get_weight (self : Connector) (node1 node2 : cell)
    (max_elevation_diff : float) : M heap float :=
  do elevation1 <- lift_option (getitem (elevation_grid self) node1);
  do elevation2 <- lift_option (getitem (elevation_grid self) node2);
  do weight <- read_float (weight_grid self) node1;
  ret (edge_cost elevation1 elevation2 weight max_elevation_diff).

(** [get_weight] called with a dictionary as third positional argument,
    which is then [max_elevation_diff].  The statements up to
    [elevation_diff = max(0, elevation1 - elevation2)] run as above; the
    test [elevation_diff > max_elevation_diff] then compares a number with
    a dict, for which Python defines no order, and raises TypeError. *)
Definition get_weight_dict (self : Connector) (node1 node2 : cell)
    (max_elevation_diff : gmap string float) : M heap float :=
  do elevation1 <- lift_option (getitem (elevation_grid self) node1);
  do elevation2 <- lift_option (getitem (elevation_grid self) node2);
  do weight <- read_float (weight_grid self) node1;
  raise TypeError.

(** *** Connector.add_edges_to_graph *)

Definition offsets3 : list Z := [-1; 0; 1].

(** The pairs [(row+i, col+j)] of the comprehension that pass its filter,
    in the order of the two inner loops. *)
Definition neighbours_in (all_nodes : list cell) (rc : cell) : list cell :=
  i ← offsets3; j ← offsets3;
  if bool_decide ((rc.1 + i, rc.2 + j) ∈ all_nodes)
  then [(rc.1 + i, rc.2 + j)] else [].

Fixpoint weigh_edges (self : Connector) (src : cell) (dsts : list cell)
    : M heap (list (cell * cell * float)) :=
  match dsts with
  | [] => ret []
  | dst :: rest =>
      do w <- get_weight self src dst default_max_elevation_diff;
      do tl <- weigh_edges self src rest;
      ret ((src, dst, w) :: tl)
  end.

(** The list [edges] built by the comprehension. *)
Fixpoint edge_list (self : Connector) (nodes_list : list cell)
    : M heap (list (cell * cell * float)) :=
  match nodes_list with
  | [] => ret []
  | rc :: rest =>
      do here <- weigh_edges self rc (neighbours_in (nodes self) rc);
      do tl <- edge_list self rest;
      ret (here ++ tl)
  end.

(** [graph.add_weighted_edges_from(edges)]: a later edge with the same
    end points replaces the earlier one. *)
Definition add_weighted_edges_from (g : gmap (cell * cell) float)
    (edges : list (cell * cell * float)) : gmap (cell * cell) float :=
  foldl (fun g e => <[(e.1.1, e.1.2) := e.2]> g) g edges.

Definition set_graph (self : Connector) (g : gmap (cell * cell) float) : Connector :=
  mk_Connector (num_rows self) (num_cols self) (nodes self) (elevation_grid self)
    (weight_grid self) (component_grid self) (component self) g.

Definition add_edges_to_graph (self : Connector) (nodes_list : option (list cell))
    : M heap Connector :=
  let nodes_list := default (nodes self) nodes_list in
  do edges <- edge_list self nodes_list;
  ret (set_graph self (add_weighted_edges_from (graph self) edges)).

(** *** Connector.__init__ *)

(** The default [.1] of [min_probability]: the double nearest to one
    tenth, 3602879701896397 / 2^55. *)
Definition default_min_probability : float :=
  Fin (3602879701896397 # 36028797018963968).

(** The filter of the set comprehension that builds [self.nodes]; [or]
    reads the component grid only when the first test fails. *)
Fixpoint select_nodes (probability : ndarray float) (components : ndarray Z)
    (min_probability : float) (cells : list cell) : option (list cell) :=
  match cells with
  | [] => Some []
  | rc :: rest =>
      p ← getitem probability rc;
      keep ← (if gtb p min_probability then Some true
              else c ← getitem components rc; Some (0 <? c));
      tl ← select_nodes probability components min_probability rest;
      Some (if keep : bool then rc :: tl else tl)
  end.

(** [elevation_grid.astype(np.float32)] keeps every value that float32
    holds; its rounding of the others is not represented. *)
Definition init (basin_data : BasinData) (min_probability : float)
    : M heap Connector :=
  do components <- load_int (bd_component_grid basin_data);
  let num_rows := nrows components in
  let num_cols := ncols components in
  do nodes <- lift_option
    (select_nodes (bd_probability_grid basin_data) components min_probability
       (r ← range 0 num_rows; c ← range 0 num_cols; [(r, c)]));
  do weight_copy <- copy_float (bd_weight_grid basin_data);
  add_edges_to_graph
    (mk_Connector num_rows num_cols nodes (bd_elevation_grid basin_data)
       weight_copy (bd_component_grid basin_data)
       (bd_main_component basin_data) ∅)
    None.

(** *** Connector.get_component_min_elevation_points *)

Record component_info : Type := mk_component_info {
  min_elevation : float;
  node : cell
}.

(** One iteration of the loop over the cells with a positive label. *)
Definition min_elevation_step (self : Connector) (components : ndarray Z)
    (min_elevation_points : gmap Z component_info) (rc : cell)
    : option (gmap Z component_info) :=
  component ← getitem components rc;
  let elevation :=
    mean (slice (elevation_grid self) (rc.1 - 1) (rc.1 + 2) (rc.2 - 1) (rc.2 + 2)) in
  let fresh_info := mk_component_info elevation rc in
  let min_elevation_points :=
    match min_elevation_points !! component with
    | Some _ => min_elevation_points
    | None => <[component := fresh_info]> min_elevation_points
    end in
  let info := default fresh_info (min_elevation_points !! component) in
  Some (if ltb elevation (min_elevation info)
        then <[component := mk_component_info elevation rc]> min_elevation_points
        else min_elevation_points).

Fixpoint min_elevation_loop (self : Connector) (components : ndarray Z)
    (min_elevation_points : gmap Z component_info) (cells : list cell)
    : option (gmap Z component_info) :=
  match cells with
  | [] => Some min_elevation_points
  | rc :: rest =>
      m ← min_elevation_step self components min_elevation_points rc;
      min_elevation_loop self components m rest
  end.

Definition info_nodes (m : gmap Z component_info) : gset cell :=
  list_to_set (node <$> (map_to_list m).*2).

Definition get_component_min_elevation_points (self : Connector) : M heap (gset cell) :=
  do components <- load_int (component_grid self);
  do m <- lift_option
    (min_elevation_loop self components ∅ (argwhere (fun v => 0 <? v) components));
  ret (info_nodes m).

(** *** Connector.get_paths *)

Record locals : Type := mk_locals {
  sources : list cell;
  targets : gset cell;
  components_seen : gset Z;
  paths_to_return : gmap cell (list cell * Z)
}.

(** The loop over [path[::-1]]: cells are taken over until the first one
    whose label is in [components_seen]. *)
Fixpoint relabel (self : Connector) (seen : gset Z) (new_component : Z)
    (reversed_path : list cell) (path_to_save : list cell) : M heap (list cell) :=
  match reversed_path with
  | [] => ret path_to_save
  | rc :: rest =>
      do current_component <- read_int (component_grid self) rc;
      if bool_decide (current_component ∉ seen) then
        run write_float (weight_grid self) rc zero;
        run write_int (component_grid self) rc new_component;
        relabel self seen new_component rest (path_to_save ++ [rc])
      else ret path_to_save
  end.

(** The body of the loop over [target_paths]. *)
Definition commit_target (self : Connector) (i : Z) (loc : locals)
    (target_path : cell * list cell) : M heap locals :=
  let (target, path) := target_path in
  if (0 <? length path)%nat then
    do new_component <- read_int (component_grid self) target;
    do path_to_save <- relabel self (components_seen loc) new_component (rev path) [];
    do components <- load_int (component_grid self);
    ret (mk_locals
           (sources loc ++ argwhere (Z.eqb new_component) components)
           (targets loc ∖ {[target]})
           ({[new_component]} ∪ components_seen loc)
           (<[target := (path_to_save, i + 3)]> (paths_to_return loc)))
  else ret loc.

Fixpoint commit_targets (self : Connector) (i : Z) (loc : locals)
    (target_paths : list (cell * list cell)) : M heap locals :=
  match target_paths with
  | [] => ret loc
  | tp :: rest =>
      do loc' <- commit_target self i loc tp;
      commit_targets self i loc' rest
  end.

(** [list.sort(key=lambda x: len(x[1]))]: stable, shortest path first. *)
Fixpoint insert_by_len (x : cell * list cell) (l : list (cell * list cell))
    : list (cell * list cell) :=
  match l with
  | [] => [x]
  | y :: l' =>
      if (length x.2 <=? length y.2)%nat then x :: y :: l'
      else y :: insert_by_len x l'
  end.

Definition sort_by_len (l : list (cell * list cell)) : list (cell * list cell) :=
  foldr insert_by_len [] l.

(** A run of [nx.multi_source_dijkstra_path] as its caller sees it: the
    library returns the dictionary of paths, raises an exception of its
    own, or calls the weight callable and goes on with the cost that the
    callable returns. *)
Inductive library_run : Type :=
| Returns (paths : gmap cell (list cell))
| LibraryRaises
| Calls (u v : cell) (resume : float -> library_run).

(** [G[u][v]]: the attribute dictionary of an edge, which holds its
    weight. *)
Definition edge_data (g : gmap (cell * cell) float) (u v : cell) : gmap string float :=
  match g !! (u, v) with
  | Some w => {[ "weight" := w ]}
  | None => ∅
  end.

(** The library calls [weight(u, v, G[u][v])], with three positional
    arguments; an exception raised by the callable passes through the
    library to its caller. *)
Fixpoint run_library (weight : cell -> cell -> gmap string float -> M heap float)
    (g : gmap (cell * cell) float) (r : library_run) : M heap (gmap cell (list cell)) :=
  match r with
  | Returns paths => ret paths
  | LibraryRaises => raise LibraryError
  | Calls u v resume =>
      do cost <- weight u v (edge_data g u v);
      run_library weight g (resume cost)
  end.

Section Stitcher.

(** [nx.multi_source_dijkstra_path]: what the library does, given the
    graph, the sources and the cutoff. *)
Variable multi_source_dijkstra_path :
  gmap (cell * cell) float -> list cell -> Z -> library_run.

(** [nx.multi_source_dijkstra_path(G=self.graph, sources=sources,
    cutoff=cutoff, weight=self.get_weight)]: the third argument of the
    library's calls of [self.get_weight] is the edge's attribute
    dictionary. *)
Definition dijkstra (self : Connector) (sources : list cell) (cutoff : Z)
    : M heap (gmap cell (list cell)) :=
  run_library (get_weight_dict self) (graph self)
    (multi_source_dijkstra_path (graph self) sources cutoff).

(** The loop [for i, cutoff in enumerate(cut_offs)]. *)
Fixpoint stages (self : Connector) (i : Z) (cut_offs : list Z) (loc : locals)
    : M heap locals :=
  match cut_offs with
  | [] => ret loc
  | cutoff :: rest =>
      do paths <- dijkstra self (sources loc) cutoff;
      let target_paths :=
        sort_by_len ((fun target => (target, default [] (paths !! target)))
                       <$> elements (targets loc)) in
      do loc' <- commit_targets self i loc target_paths;
      if bool_decide (size (targets loc') = 0%nat) then ret loc'
      else stages self (i + 1) rest loc'
  end.


Definition get_paths (self : Connector) (cut_offs : list Z)
    : M heap (gmap cell (list cell * Z) * gset cell * gset Z) :=
  do components <- load_int (component_grid self);
  let sources := argwhere (Z.eqb (component self)) components in
  do targets <- get_component_min_elevation_points self;
  let init_targets := targets in
  do loc <- stages self 0 cut_offs
              (mk_locals sources targets {[component self]} ∅);
  ret (paths_to_return loc, init_targets, components_seen loc).

End Stitcher.

End Connect.

(** ** vectorize.py *)

Module Vectorize.

(** The attributes of a [Vectorizer] that the skeleton tracer reads and
    updates.  The attributes of the geometry phase are in [Assembler]
    below. *)
Record Vectorizer : Type := mk_Vectorizer {
  thin_grid : ndarray Z;
  clean_embed : ndarray Z;
  count_grid : ndarray Z;
  init_count_grid : ndarray Z;
  connections_seen : gmap cell (gset cell);
  line_strings : list (list cell)
}.

Definition set_count_grid (g : ndarray Z) (v : Vectorizer) : Vectorizer :=
  mk_Vectorizer (thin_grid v) (clean_embed v) g (init_count_grid v)
    (connections_seen v) (line_strings v).
Definition set_connections_seen (s : gmap cell (gset cell)) (v : Vectorizer) : Vectorizer :=
  mk_Vectorizer (thin_grid v) (clean_embed v) (count_grid v) (init_count_grid v)
    s (line_strings v).
Definition set_line_strings (l : list (list cell)) (v : Vectorizer) : Vectorizer :=
  mk_Vectorizer (thin_grid v) (clean_embed v) (count_grid v) (init_count_grid v)
    (connections_seen v) l.

(** [grid[cond] = v] *)
Definition assign_where (p : Z -> bool) (v : Z) (g : ndarray Z) : ndarray Z :=
  mk_ndarray (nrows g) (ncols g) (fun r c => if p (item g r c) then v else item g r c).

Definition zeros (r c : Z) : ndarray Z := mk_ndarray r c (fun _ _ => 0).

(** *** Vectorizer.embed_in_larger

    [copy[s:-s, s:-s] = grid] for a positive [side_increase] [s]. *)
Definition embed_in_larger (grid : ndarray Z) (side_increase : Z) : ndarray Z :=
  let num_rows := nrows grid + 2 * side_increase in
  let num_cols := ncols grid + 2 * side_increase in
  mk_ndarray num_rows num_cols
    (fun r c =>
       if (side_increase <=? r) && (r <? num_rows - side_increase)
          && (side_increase <=? c) && (c <? num_cols - side_increase)
       then item grid (r - side_increase) (c - side_increase)
       else 0).

(** *** Vectorizer.make_count_8_grid *)

Definition sum_list (l : list Z) : Z := foldr Z.add 0 l.

Definition window_sum (grid : ndarray Z) (rc : cell) : Z :=
  sum_list (slice grid (rc.1 - 1) (rc.1 + 2) (rc.2 - 1) (rc.2 + 2)).

Definition make_count_8_grid (grid : ndarray Z) : option (ndarray Z) :=
  let grid := assign_where (fun v => 0 <? v) 1 grid in
  foldl (fun count_grid rc =>
           g ← count_grid; setitem g rc (window_sum grid rc - 1))
        (Some (zeros (nrows grid) (ncols grid)))
        (argwhere (Z.eqb 1) grid).

(** *** Vectorizer.add_to_connections_seen *)

Definition seen_of (s : gmap cell (gset cell)) (node : cell) : gset cell :=
  default ∅ (s !! node).

Definition add_to_connections_seen (node1 node2 : cell) : M Vectorizer unit :=
  modify (fun v =>
    let s := connections_seen v in
    let s := <[node1 := {[node2]} ∪ seen_of s node1]> s in
    let s := <[node2 := {[node1]} ∪ seen_of s node2]> s in
    set_connections_seen s v).

(** *** Vectorizer.investigate_row_col *)

Definition read_count (rc : cell) : M Vectorizer Z :=
  fun v => lift_option (getitem (count_grid v) rc) v.
Definition read_init_count (rc : cell) : M Vectorizer Z :=
  fun v => lift_option (getitem (init_count_grid v) rc) v.

(** [self.count_grid[row, col] -= 1] *)
Definition decrement (rc : cell) : M Vectorizer unit :=
  do n <- read_count rc;
  fun v => match setitem (count_grid v) rc (n - 1) with
           | Some g => Ok tt (set_count_grid g v)
           | None => Raise IndexError v
           end.

(** [line_string_list.pop()] *)
Definition pop (line_string_list : list cell) : M Vectorizer (list cell) :=
  match line_string_list with
  | [] => raise IndexError
  | _ => ret (removelast line_string_list)
  end.

Definition offsets8 : list cell :=
  [(1, 0); (-1, 0); (0, 1); (0, -1); (1, 1); (-1, 1); (1, -1); (-1, -1)].

(** The [for i, j in ...] loop of [investigate_row_col] with its [break]
    and its [else] branch; [recur] is the recursive call.  The list that
    Python mutates in place is passed and returned. *)
Fixpoint scan (recur : cell -> list cell -> M Vectorizer (list cell))
    (rc : cell) (line_string_list : list cell) (investigate_all : bool)
    (offsets : list cell) : M Vectorizer (list cell) :=
  match offsets with
  | [] => pop line_string_list
  | (i, j) :: rest =>
      let rc1 := (rc.1 + i, rc.2 + j) in
      do n <- read_count rc1;
      do v <- get_state;
      if (0 <? n) && bool_decide (rc1 ∉ seen_of (connections_seen v) rc) then
        run add_to_connections_seen rc rc1;
        run decrement rc1;
        do init <- read_init_count rc1;
        if (init =? 1) && negb investigate_all then
          ret (line_string_list ++ [rc1])
        else if (init =? 2) && negb investigate_all then
          recur rc1 (line_string_list ++ [rc1])
        else ret (line_string_list ++ [rc1])
      else scan recur rc line_string_list investigate_all rest
  end.

Fixpoint investigate_row_col (fuel : nat) (rc : cell) (line_string_list : list cell)
    (investigate_all : bool) : M Vectorizer (list cell) :=
  match fuel with
  | O => raise OutOfFuel
  | S fuel' =>
      run decrement rc;
      scan (fun rc1 l => investigate_row_col fuel' rc1 l investigate_all)
        rc line_string_list investigate_all offsets8
  end.

Definition append_line_string (l : list cell) : M Vectorizer unit :=
  modify (fun v => set_line_strings (line_strings v ++ [l]) v).

(** *** Vectorizer.make_all_linestrings_starting_at_1 *)

Fixpoint starting_at_1_loop (fuel : nat) (investigate_all : bool) (cells : list cell)
    : M Vectorizer unit :=
  match cells with
  | [] => ret tt
  | rc :: rest =>
      do n <- read_count rc;
      run (if n =? 1 then
             do l <- investigate_row_col fuel rc [rc] investigate_all;
             append_line_string l
           else ret tt);
      starting_at_1_loop fuel investigate_all rest
  end.

Definition make_all_linestrings_starting_at_1 (fuel : nat) (investigate_all : bool)
    : M Vectorizer unit :=
  do v <- get_state;
  starting_at_1_loop fuel investigate_all (argwhere (Z.eqb 1) (count_grid v)).

(** *** Vectorizer.make_all_linestrings_starting_at_2 *)

Definition starting_at_2_body (fuel : nat) (rc : cell) : M Vectorizer unit :=
  let l := [rc] in
  do n <- read_count rc;
  do l <- (if 0 <? n then investigate_row_col fuel rc l false else ret l);
  do n <- read_count rc;
  do l <- (if 0 <? n then investigate_row_col fuel rc (rev l) false else ret l);
  if (1 <? length l)%nat then append_line_string l else ret tt.

Fixpoint starting_at_2_loop (fuel : nat) (cells : list cell) : M Vectorizer unit :=
  match cells with
  | [] => ret tt
  | rc :: rest => run starting_at_2_body fuel rc; starting_at_2_loop fuel rest
  end.

Definition make_all_linestrings_starting_at_2 (fuel : nat) (ignore_init : bool)
    : M Vectorizer unit :=
  do v <- get_state;
  let cells :=
    if ignore_init then argwhere (Z.eqb 2) (count_grid v)
    else filter (fun rc => item (init_count_grid v) rc.1 rc.2 = 2)
           (argwhere (Z.eqb 2) (count_grid v)) in
  starting_at_2_loop fuel cells.

(** *** Vectorizer.add_remaining *)

Fixpoint add_remaining_loop (fuel : nat) (cells : list cell) : M Vectorizer unit :=
  match cells with
  | [] => ret tt
  | rc :: rest =>
      do l <- investigate_row_col fuel rc [rc] true;
      run append_line_string l;
      add_remaining_loop fuel rest
  end.

Fixpoint add_remaining (fuel : nat) : M Vectorizer unit :=
  match fuel with
  | O => raise OutOfFuel
  | S fuel' =>
      do v <- get_state;
      if any (fun n => 0 <? n) (count_grid v) then
        run add_remaining_loop fuel' (argwhere (fun n => 1 <=? n) (count_grid v));
        add_remaining fuel'
      else ret tt
  end.

(** *** Vectorizer.make_all_simple_linestrings *)

(** [while np.any(self.count_grid == 1): self.make_all_linestrings_starting_at_1()] *)
Fixpoint endpoint_pass (fuel : nat) : M Vectorizer unit :=
  match fuel with
  | O => raise OutOfFuel
  | S fuel' =>
      do v <- get_state;
      if any (Z.eqb 1) (count_grid v) then
        run make_all_linestrings_starting_at_1 fuel' false;
        endpoint_pass fuel'
      else ret tt
  end.

Definition make_all_simple_linestrings (fuel : nat) : M Vectorizer unit :=
  run endpoint_pass fuel;
  run make_all_linestrings_starting_at_2 fuel false;
  run endpoint_pass fuel;
  add_remaining fuel.

(** *** The tracer part of Vectorizer.__init__

    The statements of [__init__] up to the call of
    [make_all_simple_linestrings].  [init_count_copy], a second copy of
    the count grid that no method reads, is left out, as is [step_1] in
    [make_all_simple_linestrings]. *)

Definition init_tracer (thin : ndarray Z) : option Vectorizer :=
  let thin_grid := assign_where (Z.eqb 2) 0 thin in
  let clean_embed := embed_in_larger thin_grid 1 in
  count_grid ← make_count_8_grid clean_embed;
  Some (mk_Vectorizer thin_grid clean_embed count_grid count_grid ∅ []).

(** *** The geometry phase

    shapely is outside the repository: its geometries and the three
    operations used on them are parameters. *)

Definition coords : Type := (float * float)%type.

Definition coords_eqb (a b : coords) : bool := eqb a.1 b.1 && eqb a.2 b.2.

Section Geometry.

Variable LineString : Type.
(** [geometry.coords] *)
Variable coords_of : LineString -> list coords.
(** [shapely.node(shapely.line_merge(shapely.MultiLineString(lines)))],
    as the list of its parts *)
Variable merge_and_node : list (list coords) -> list LineString.
(** [shapely.unary_union(to_add)], as the list of its parts *)
Variable unary_union : list LineString -> list LineString.

Record link : Type := mk_link {
  line : LineString;
  point : coords
}.

(** The attributes of a [Vectorizer] used after tracing.  The attribute
    [line_strings] is rebound twice: to the shapely lines and then to
    the final frame; here these are [shapely_line_strings] and
    [frame].  An attribute that no statement of [__init__] assigns is
    [None]: [connecting_dict], whose only assignment is commented
    out. *)
Record Assembler : Type := mk_Assembler {
  x_min : float;
  y_max : float;
  x_res : float;
  y_res : float;
  reference_waterway_data : list LineString;
  shapely_line_strings : list LineString;
  intersection_points : list coords;
  connecting_dict : option (list (coords * link));
  frame : option (list (bool * LineString))
}.

Definition set_shapely_line_strings (l : list LineString) (a : Assembler) : Assembler :=
  mk_Assembler (x_min a) (y_max a) (x_res a) (y_res a) (reference_waterway_data a)
    l (intersection_points a) (connecting_dict a) (frame a).
Definition add_intersection_point (p : coords) (a : Assembler) : Assembler :=
  mk_Assembler (x_min a) (y_max a) (x_res a) (y_res a) (reference_waterway_data a)
    (shapely_line_strings a) (intersection_points a ++ [p]) (connecting_dict a) (frame a).
Definition set_frame (f : list (bool * LineString)) (a : Assembler) : Assembler :=
  mk_Assembler (x_min a) (y_max a) (x_res a) (y_res a) (reference_waterway_data a)
    (shapely_line_strings a) (intersection_points a) (connecting_dict a) (Some f).

Definition half : float := Fin (1 # 2).

(** *** Vectorizer.row_col_array_to_midpoint_coordinates *)
Definition row_col_array_to_midpoint_coordinates (a : Assembler)
    (row_col_array : list cell) : list coords :=
  let y_resolution :=
    if ltb (y_res a) zero then sub zero (y_res a) else y_res a in
  map (fun rc =>
         (add (x_min a) (mul (x_res a) (add (of_Z rc.2) half)),
          sub (y_max a) (mul y_resolution (add (of_Z rc.1) half))))
      row_col_array.

(** *** Vectorizer.connecting_points_coordinates

    The cached property: the cells of [self.thin_grid] equal to 1 whose
    3x3 slice holds a 2, as midpoint coordinates.  The result is a
    Python set; here it is the list of the coordinates added to it, in
    the order of [np.where]. *)
Definition connecting_row_cols (v : Vectorizer) : list cell :=
  filter (fun rc =>
            existsb (Z.eqb 2)
              (slice (thin_grid v) (rc.1 - 1) (rc.1 + 2) (rc.2 - 1) (rc.2 + 2)) = true)
    (argwhere (Z.eqb 1) (thin_grid v)).

Definition connecting_points_coordinates (v : Vectorizer) (a : Assembler)
    : list coords :=
  let connecting_row_cols := connecting_row_cols v in
  if (0 <? length connecting_row_cols)%nat
  then row_col_array_to_midpoint_coordinates a connecting_row_cols
  else [].

(** *** Vectorizer.make_shapely_line_strings *)
Definition make_shapely_line_strings (row_col_lists : list (list cell))
    (a : Assembler) : Assembler :=
  let lines :=
    row_col_list ← row_col_lists;
    let row_col_array := map (fun rc => (rc.1 - 1, rc.2 - 1)) row_col_list in
    if (1 <? length row_col_array)%nat
    then [row_col_array_to_midpoint_coordinates a row_col_array] else [] in
  set_shapely_line_strings (merge_and_node lines) a.

(** [self.connecting_dict] *)
Definition get_connecting_dict : M Assembler (list (coords * link)) :=
  fun a => match connecting_dict a with
           | Some d => Ok d a
           | None => Raise (AttributeError "connecting_dict") a
           end.

Definition dict_get (d : list (coords * link)) (k : coords) : option link :=
  snd <$> find (fun e => coords_eqb e.1 k) d.

(** [to_add.append(d[k]['line']); self.intersection_points.append(d[k]['point'])] *)
Definition splice (to_add : list LineString) (k : coords)
    : M Assembler (list LineString) :=
  do d <- get_connecting_dict;
  match dict_get d k with
  | Some l => run modify (add_intersection_point (point l)); ret (to_add ++ [line l])
  | None => ret to_add
  end.

(** The [for coords in coords_list] loop with its [break]. *)
Fixpoint splice_first (to_add : list LineString) (coords_list : list coords)
    : M Assembler (list LineString) :=
  match coords_list with
  | [] => ret to_add
  | k :: rest =>
      do d <- get_connecting_dict;
      if bool_decide (is_Some (dict_get d k)) then splice to_add k
      else splice_first to_add rest
  end.

(** The body of the loop over [self.line_strings].  Every test reads
    [self.connecting_dict]; nothing rebinds it in between, so it is read
    once, where the first test reads it. *)
Definition connect_line (line_string : LineString) : M Assembler (list LineString) :=
  let to_add := [line_string] in
  let coords_list := coords_of line_string in
  do head_coords <- lift_option (head coords_list);
  do tail_coords <- lift_option (last coords_list);
  do d <- get_connecting_dict;
  let has k := bool_decide (is_Some (dict_get d k)) in
  do to_add <-
    (if has head_coords && has tail_coords then ret []
     else if has head_coords then splice to_add head_coords
     else if has tail_coords then splice to_add tail_coords
     else splice_first to_add coords_list);
  ret (if (0 <? length to_add)%nat then unary_union to_add else []).

Fixpoint connect_lines (lines : list LineString) (new_linestrings : list LineString)
    : M Assembler (list LineString) :=
  match lines with
  | [] => ret new_linestrings
  | l :: rest =>
      do extra <- connect_line l;
      connect_lines rest (new_linestrings ++ extra)
  end.

(** *** Vectorizer.connect_to_base_waterways *)
Definition connect_to_base_waterways : M Assembler unit :=
  do a <- get_state;
  do new_linestrings <- connect_lines (shapely_line_strings a) [];
  modify (fun a =>
    set_frame (map (fun g => (true, g)) (reference_waterway_data a)
               ++ map (fun g => (false, g)) new_linestrings) a).

(** *** Vectorizer.__init__ *)

Inductive init_outcome : Type :=
| InitOk (v : Vectorizer) (a : Assembler)
| InitRaise (e : exn).

Definition new_assembler (x_min y_max x_res y_res : float)
    (reference_waterway_data : list LineString) : Assembler :=
  mk_Assembler x_min y_max x_res y_res reference_waterway_data [] [] None None.

Definition init (fuel : nat) (thin : ndarray Z)
    (reference_waterway_data : list LineString)
    (x_min y_max x_res y_res : float) : init_outcome :=
  match init_tracer thin with
  | None => InitRaise IndexError
  | Some v0 =>
      match make_all_simple_linestrings fuel v0 with
      | Raise e _ => InitRaise e
      | Ok _ v =>
          let a := make_shapely_line_strings (line_strings v)
                     (new_assembler x_min y_max x_res y_res reference_waterway_data) in
          match connect_to_base_waterways a with
          | Raise e _ => InitRaise e
          | Ok _ a' => InitOk v a'
          end
      end
  end.

End Geometry.

End Vectorize.


(** * Vocabulary of the properties *)

(** A pair of indices inside the shape of an array. *)
Definition in_shape {A} (a : ndarray A) (rc : cell) : Prop :=
  0 <= rc.1 < nrows a /\ 0 <= rc.2 < ncols a.

Module ConnectSpec.
Import Connect.

(** [v] lies in the 3x3 window centred on [u]. *)
Definition near (u v : cell) : Prop :=
  Z.abs (v.1 - u.1) <= 1 /\ Z.abs (v.2 - u.2) <= 1.

(** The end points of a weighted edge. *)
Definition ends (e : cell * cell * float) : cell * cell := (e.1.1, e.1.2).

(** The label of a cell inside the shape of a component grid. *)
Definition label_of (components : ndarray Z) (rc : cell) : Z :=
  item components rc.1 rc.2.

(** Invariant of the loop of [get_component_min_elevation_points]: every
    entry of the dictionary is keyed by the label of its node, its node is
    one of the cells handled so far, and every label met so far has an
    entry. *)
Definition reps_inv (components : ndarray Z) (handled : list cell)
    (m : gmap Z component_info) : Prop :=
  (forall L info, m !! L = Some info ->
     node info ∈ handled /\ label_of components (node info) = L) /\
  (forall rc, rc ∈ handled -> is_Some (m !! label_of components rc)).

(** The label of a cell in the Connector's component grid, as
    [self.component_grid[row, col]] reads it. *)
Definition label (self : Connector) (h : heap) (rc : cell) : option Z :=
  g ← int_arrays h !! component_grid self; getitem g rc.

(** The entry of a cell in the Connector's own weight grid. *)
Definition own_weight (self : Connector) (h : heap) (rc : cell) : option float :=
  g ← float_arrays h !! weight_grid self; getitem g rc.

(** Between two stores: every cell labelled with a component of [seen]
    keeps its label. *)
Definition keeps (self : Connector) (seen : gset Z) (h h' : heap) : Prop :=
  forall rc L, label self h rc = Some L -> L ∈ seen -> label self h' rc = Some L.

(** Between two stores: the float arrays other than the Connector's own
    weight grid are the same, and zero weights stay zero. *)
Definition frame (self : Connector) (h h' : heap) : Prop :=
  (forall a, a <> weight_grid self -> float_arrays h' !! a = float_arrays h !! a) /\
  (forall rc, own_weight self h rc = Some zero -> own_weight self h' rc = Some zero).

Definition both (self : Connector) (seen : gset Z) (h h' : heap) : Prop :=
  keeps self seen h h' /\ frame self h h'.

(** Every cell of every committed path has weight zero in the Connector's
    own weight grid. *)
Definition paths_zero (self : Connector) (loc : locals) (h : heap) : Prop :=
  forall target path i rc,
    paths_to_return loc !! target = Some (path, i) -> rc ∈ path ->
    own_weight self h rc = Some zero.

(** The locals of [get_paths] before its loop over [cut_offs]. *)
Definition initial_locals (self : Connector) (components : ndarray Z) (targets : gset cell)
    : locals :=
  mk_locals (argwhere (Z.eqb (component self)) components) targets {[component self]} ∅.

(** The sorted list [target_paths] of a stage. *)
Definition target_paths_of (paths : gmap cell (list cell)) (loc : locals)
    : list (cell * list cell) :=
  sort_by_len ((fun target => (target, default [] (paths !! target)))
                 <$> elements (targets loc)).

(** A point of the run of [get_paths] from the store [h]: the locals [loc1]
    and the store [h1] after the stages of [done] have been completed and,
    in the stage of [cutoff] that follows them, the target paths of
    [committed] have been handled. *)
Definition run_point (oracle : gmap (cell * cell) float -> list cell -> Z -> library_run)
    (self : Connector) (cut_offs : list Z) (h : heap) (loc1 : locals) (h1 : heap) : Prop :=
  exists done cutoff rest components targets0 loc hk paths committed pending,
    cut_offs = done ++ cutoff :: rest /\
    int_arrays h !! component_grid self = Some components /\
    get_component_min_elevation_points self h = Ok targets0 h /\
    stages oracle self 0 done (initial_locals self components targets0) h = Ok loc hk /\
    (done = [] \/ size (targets loc) <> 0%nat) /\
    dijkstra oracle self (sources loc) cutoff hk = Ok paths hk /\
    target_paths_of paths loc = committed ++ pending /\
    commit_targets self (Z.of_nat (length done)) loc committed hk = Ok loc1 h1.


(** *** Vocabulary of the further properties *)

(** The test of the set comprehension that builds [self.nodes]. *)
Definition eligible_node (probability : ndarray float) (components : ndarray Z)
    (min_probability : float) (rc : cell) : Prop :=
  (exists p, getitem probability rc = Some p /\ gtb p min_probability = true) \/
  0 < label_of components rc.

Definition same_shape {A B} (a : ndarray A) (b : ndarray B) : Prop :=
  nrows a = nrows b /\ ncols a = ncols b.

(** The Connector before its graph is filled, and the store after the
    weight grid is copied. *)
Definition bare_connector (basin_data : BasinData) (components : ndarray Z)
    (nodes : list cell) (weight_copy : nat) : Connector :=
  mk_Connector (nrows components) (ncols components) nodes (bd_elevation_grid basin_data)
    weight_copy (bd_component_grid basin_data) (bd_main_component basin_data) ∅.

Definition with_copy (h : heap) (w : ndarray float) : heap :=
  mk_heap (int_arrays h) (<[fresh_float h := w]> (float_arrays h)).

(** [elevation_grid[row-1: row+2, col-1: col+2].mean()] *)
Definition window_mean (self : Connector) (rc : cell) : float :=
  mean (slice (elevation_grid self) (rc.1 - 1) (rc.1 + 2) (rc.2 - 1) (rc.2 + 2)).


End ConnectSpec.

(** * Concrete basins *)

Module ConnectExamples.
Import Connect.

(** Two cells, a drop of 30 from the first to the second; the first cell
    has weight zero, as a cell committed by [get_paths] has. *)
Definition steep_elevation : ndarray float := of_rows NaN [[of_Z 30; of_Z 0]].
Definition steep_weight : ndarray float := of_rows NaN [[of_Z 0; of_Z 1]].
Definition steep_heap : heap := mk_heap ∅ {[ 0%nat := steep_weight ]}.
Definition steep_connector : Connector :=
  mk_Connector 1 2 [(0, 0); (0, 1)] steep_elevation 0%nat 0%nat 1 ∅.

(** A row of three cells: the main component 1, an unlabelled cell that the
    model finds likely, and an orphan component 2. *)
Definition components : ndarray Z := of_rows 0 [[1; 0; 2]].
Definition probability : ndarray float := of_rows NaN [[Fin 0; Fin (1 # 2); Fin 0]].
Definition elevation : ndarray float := of_rows NaN [[Fin 0; Fin 0; Fin 0]].
Definition weights : ndarray float :=
  of_rows NaN [[Fin (1 # 2); Fin (1 # 2); Fin (1 # 2)]].
Definition store : heap := mk_heap {[ 0%nat := components ]} {[ 0%nat := weights ]}.
Definition basin : BasinData := mk_BasinData 0%nat probability elevation 0%nat 1.

Definition example_connector : Connector :=
  mk_Connector 1 3 [(0, 0); (0, 1); (0, 2)] elevation 0%nat 0%nat 1 ∅.

(** The paths from the main component to the cells of this basin. *)
Definition found_paths : gmap cell (list cell) :=
  {[ (0, 0) := [(0, 0)];
     (0, 1) := [(0, 0); (0, 1)];
     (0, 2) := [(0, 0); (0, 1); (0, 2)] ]}.

(** A library run that starts as a multi-source search does: without a
    source it raises; otherwise it takes the first source from its queue and
    asks for the weight of an edge out of it, here its loop.  With the cost
    it would go on to [found_paths]. *)
Definition search (g : gmap (cell * cell) float) (sources : list cell) (cutoff : Z)
    : library_run :=
  match sources with
  | [] => LibraryRaises
  | s :: _ => Calls s s (fun _ => Returns found_paths)
  end.

(** A basin of one cell, labelled with the main component. *)
Definition single_store : heap :=
  mk_heap {[ 0%nat := of_rows 0 [[1]] ]} {[ 0%nat := of_rows NaN [[Fin 1]] ]}.
Definition single_basin : BasinData :=
  mk_BasinData 0%nat (of_rows NaN [[Fin 0]]) (of_rows NaN [[Fin 0]]) 0%nat 1.


(** The basin of three cells with a probability grid of two columns only. *)
Definition short_basin : BasinData :=
  mk_BasinData 0%nat (of_rows NaN [[Fin 0; Fin (1 # 2)]]) elevation 0%nat 1.

(** One row of three cells: elevations 2, 0 and 30, weights 1/2, 3 and 2. *)
Definition slope_elevation : ndarray float := of_rows NaN [[of_Z 2; of_Z 0; of_Z 30]].
Definition slope_weight : ndarray float := of_rows NaN [[Fin (1 # 2); Fin 3; Fin 2]].
Definition slope_heap : heap := mk_heap ∅ {[ 0%nat := slope_weight ]}.
Definition slope_connector : Connector :=
  mk_Connector 1 3 [(0, 0); (0, 1); (0, 2)] slope_elevation 0%nat 0%nat 1 ∅.

(** A column of two labelled cells in the middle of a 3x3 grid; the lower
    one lies lower. *)
Definition ridge_components : ndarray Z := of_rows 0 [[0; 2; 0]; [0; 2; 0]; [0; 0; 0]].
Definition ridge_elevation : ndarray float :=
  of_rows NaN [[of_Z 9; of_Z 9; of_Z 9]; [of_Z 5; of_Z 5; of_Z 5]; [of_Z 1; of_Z 1; of_Z 1]].
Definition ridge_heap : heap := mk_heap {[ 0%nat := ridge_components ]} ∅.
Definition ridge_connector : Connector :=
  mk_Connector 3 3 [(0, 1); (1, 1)] ridge_elevation 0%nat 0%nat 1 ∅.

End ConnectExamples.


(** * Vocabulary of the skeleton tracer *)

Module VectorizeSpec.
Import Vectorize.

(** The entry of a cell in the current and in the initial count grid. *)
Definition cnt (v : Vectorizer) (rc : cell) : Z := item (count_grid v) rc.1 rc.2.
Definition init_cnt (v : Vectorizer) (rc : cell) : Z := item (init_count_grid v) rc.1 rc.2.

(** A mask cell of the padded grid [g]: inside its shape, with a positive
    entry. *)
Definition is_mask (g : ndarray Z) (rc : cell) : bool :=
  bool_decide (in_shape g rc) && (0 <? item g rc.1 rc.2).

Definition shift (rc o : cell) : cell := (rc.1 + o.1, rc.2 + o.2).

(** The eight neighbours of a cell, in the order in which
    [investigate_row_col] looks at them. *)
Definition nbrs (rc : cell) : list cell := shift rc <$> offsets8.

(** The mask cells among the neighbours, and their number. *)
Definition mask_nbrs (g : ndarray Z) (rc : cell) : list cell :=
  filter (fun d => is_mask g d = true) (nbrs rc).
Definition degree (g : ndarray Z) (rc : cell) : Z := Z.of_nat (length (mask_nbrs g rc)).

(** A mask adjacency: two 8-adjacent mask cells. *)
Definition adjacent (g : ndarray Z) (a b : cell) : Prop :=
  is_mask g a = true /\ is_mask g b = true /\ b ∈ nbrs a.

(** The mask is connected: any two mask cells are joined by a chain of
    adjacencies. *)
Definition connected (g : ndarray Z) : Prop :=
  forall a b, is_mask g a = true -> is_mask g b = true -> rtc (adjacent g) a b.

(** The mask neighbours of a cell whose pair with it is not yet in
    [connections_seen], and their number. *)
Definition open_nbrs (g : ndarray Z) (s : gmap cell (gset cell)) (rc : cell) : list cell :=
  filter (fun d => is_mask g d = true /\ d ∉ seen_of s rc) (nbrs rc).
Definition untraced (g : ndarray Z) (s : gmap cell (gset cell)) (rc : cell) : Z :=
  Z.of_nat (length (open_nbrs g s rc)).

(** The consecutive pairs of a chain, and of a list of chains. *)
Definition pairs (l : list cell) : list (cell * cell) := zip l (tail l).
Definition all_pairs (ls : list (list cell)) : list (cell * cell) := ls ≫= pairs.

(** How often the unordered pair of [a] and [b] occurs in a list of pairs. *)
Definition occurrences (a b : cell) (ps : list (cell * cell)) : nat :=
  length (filter (fun p => p = (a, b) \/ p = (b, a)) ps).

(** The sum of the entries of a grid, and the sum of its positive entries. *)
Definition grid_sum (f : Z -> Z) (g : ndarray Z) : Z :=
  sum_list ((fun rc => f (item g rc.1 rc.2)) <$> indices g).
Definition total_count (v : Vectorizer) : Z := grid_sum id (count_grid v).
Definition positive_count (v : Vectorizer) : Z := grid_sum (Z.max 0) (count_grid v).

(** *** One step of [investigate_row_col], as pure functions *)

(** [g] with the entry at [rc] replaced by [x]. *)
Definition upd (g : ndarray Z) (rc : cell) (x : Z) : ndarray Z :=
  mk_ndarray (nrows g) (ncols g)
    (fun r c => if (r =? rc.1) && (c =? rc.2) then x else item g r c).

(** The state after [self.count_grid[rc] -= 1]. *)
Definition dec (rc : cell) (v : Vectorizer) : Vectorizer :=
  set_count_grid (upd (count_grid v) rc (cnt v rc - 1)) v.

(** The state after [self.add_to_connections_seen(a, b)]. *)
Definition mark (a b : cell) (v : Vectorizer) : Vectorizer :=
  let s := connections_seen v in
  let s := <[a := {[b]} ∪ seen_of s a]> s in
  let s := <[b := {[a]} ∪ seen_of s b]> s in
  set_connections_seen s v.

(** The test of the loop over the neighbours. *)
Definition eligible (v : Vectorizer) (rc d : cell) : bool :=
  (0 <? cnt v d) && bool_decide (d ∉ seen_of (connections_seen v) rc).

(** The neighbour at which the loop breaks, if any. *)
Definition next_cell (v : Vectorizer) (rc : cell) : option cell :=
  List.find (eligible v rc) (nbrs rc).

(** The state after a neighbour is taken: the pair is marked and the
    neighbour's count decremented. *)
Definition after_take (rc rc1 : cell) (v : Vectorizer) : Vectorizer :=
  dec rc1 (mark rc rc1 v).

(** What [investigate_row_col] does with the neighbour at which its loop
    breaks; [recur] is the recursive call. *)
Definition take (recur : cell -> list cell -> M Vectorizer (list cell))
    (rc rc1 : cell) (l : list cell) (all : bool) (v : Vectorizer)
    : result Vectorizer (list cell) :=
  let v2 := after_take rc rc1 v in
  if (init_cnt v rc1 =? 1) && negb all then Ok (l ++ [rc1]) v2
  else if (init_cnt v rc1 =? 2) && negb all then recur rc1 (l ++ [rc1]) v2
  else Ok (l ++ [rc1]) v2.

(** *** The invariant of the tracer

    The grids keep the shape of the padded mask; the initial counts are the
    degrees; a cell outside the mask has count 0; the count of a mask cell
    is the number of its adjacencies not yet consumed, or it is -1 and all
    its adjacencies are consumed; [connections_seen] is symmetric and holds
    adjacencies only. *)
Record wf (v : Vectorizer) : Prop := mk_wf {
  wf_rows : nrows (count_grid v) = nrows (clean_embed v);
  wf_cols : ncols (count_grid v) = ncols (clean_embed v);
  wf_init_rows : nrows (init_count_grid v) = nrows (clean_embed v);
  wf_init_cols : ncols (init_count_grid v) = ncols (clean_embed v);
  wf_interior : forall rc, is_mask (clean_embed v) rc = true ->
    1 <= rc.1 <= nrows (clean_embed v) - 2 /\ 1 <= rc.2 <= ncols (clean_embed v) - 2;
  wf_init : forall rc, in_shape (clean_embed v) rc ->
    init_cnt v rc = if is_mask (clean_embed v) rc then degree (clean_embed v) rc else 0;
  wf_outside : forall rc, in_shape (clean_embed v) rc ->
    is_mask (clean_embed v) rc = false -> cnt v rc = 0;
  wf_count : forall rc, is_mask (clean_embed v) rc = true ->
    cnt v rc = untraced (clean_embed v) (connections_seen v) rc \/
    (cnt v rc = -1 /\ untraced (clean_embed v) (connections_seen v) rc = 0);
  wf_sym : forall a b,
    b ∈ seen_of (connections_seen v) a -> a ∈ seen_of (connections_seen v) b;
  wf_adj : forall a b,
    b ∈ seen_of (connections_seen v) a -> adjacent (clean_embed v) a b
}.

(** Every pair of a chain occurs once, and is in [connections_seen]. *)
Definition edges_once (s : gmap cell (gset cell)) (ps : list (cell * cell)) : Prop :=
  forall a b, (occurrences a b ps <= 1)%nat /\
              ((1 <= occurrences a b ps)%nat -> b ∈ seen_of s a).

(** Every pair of [connections_seen] occurs in a chain. *)
Definition edges_all (s : gmap cell (gset cell)) (ps : list (cell * cell)) : Prop :=
  forall a b, b ∈ seen_of s a -> (1 <= occurrences a b ps)%nat.

(** Not a closed loop: some mask cell does not have exactly two mask
    neighbours. *)
Definition not_a_loop (g : ndarray Z) : Prop :=
  exists rc, is_mask g rc = true /\ degree g rc <> 2.

(** Away from the cells of [except], a mask cell with two neighbours has
    both of its adjacencies consumed or none. *)
Definition through_cells_whole (v : Vectorizer) (except : list cell) : Prop :=
  forall rc, is_mask (clean_embed v) rc = true -> degree (clean_embed v) rc = 2 ->
    rc ∉ except ->
    untraced (clean_embed v) (connections_seen v) rc = 0 \/
    untraced (clean_embed v) (connections_seen v) rc = 2.

(** What a call of [investigate_row_col] at [rc] with chain [l] leaves
    behind. *)
Record investigated (rc : cell) (l : list cell) (all : bool)
    (v : Vectorizer) (l' : list cell) (v' : Vectorizer) : Prop := mk_investigated {
  inv_wf : wf v';
  inv_embed : clean_embed v' = clean_embed v;
  inv_init : init_count_grid v' = init_count_grid v;
  inv_lines : line_strings v' = line_strings v;
  inv_le : forall c, cnt v' c <= cnt v c;
  inv_lt : cnt v' rc < cnt v rc;
  inv_others : all = true -> forall c, c <> rc -> 0 <= cnt v c -> 0 <= cnt v' c;
  inv_chain :
    (cnt v rc = 0 /\ l' = removelast l /\ connections_seen v' = connections_seen v) \/
    (1 <= cnt v rc /\ exists ext, l' = l ++ ext);
  inv_once : forall base, last l = Some rc ->
    edges_once (connections_seen v) (base ++ pairs l) ->
    edges_once (connections_seen v') (base ++ pairs l');
  inv_all : all = true -> forall base, l = [rc] ->
    edges_all (connections_seen v) base ->
    edges_all (connections_seen v') (base ++ pairs l')
}.

(** Between a state of the tracer and a later one: the invariant holds,
    the mask and the initial counts are the same, and no count has grown. *)
Definition safe (v v' : Vectorizer) : Prop :=
  wf v' /\ clean_embed v' = clean_embed v /\ init_count_grid v' = init_count_grid v /\
  forall c, cnt v' c <= cnt v c.

(** What is known of a run: if it returns, [post] holds of the value and
    the state; if it does not, it ran out of fuel, in a state for which
    [cut] holds; and with [enough] fuel it returns. *)
Definition run_spec {A} (post : A -> Vectorizer -> Prop) (cut : Vectorizer -> Prop)
    (enough : Prop) (r : result Vectorizer A) : Prop :=
  match r with
  | Ok a v' => post a v'
  | Raise e v' => e = OutOfFuel /\ cut v'
  end /\
  (enough -> exists a v', r = Ok a v').

(** The cells that [through_cells_whole] leaves out during a call at [rc]:
    the cell itself and, on the first walk from a cell with two neighbours,
    that start. *)
Definition excepted (rc : cell) (start : option cell) : list cell :=
  rc :: option_list start.

(** On the first walk from a start with two neighbours: the chain holds the
    start; its cells have two neighbours each; a consumed adjacency of a
    cell of the chain leads to a cell of the chain; apart from the current
    cell and the start, all adjacencies of its cells are consumed; the start
    has one open adjacency left (two before the first step). *)
Definition walk_guard (v : Vectorizer) (l : list cell) (rc : cell)
    (start : option cell) : Prop :=
  forall X, start = Some X ->
    X ∈ l /\
    (rc = X -> untraced (clean_embed v) (connections_seen v) X = 2) /\
    (rc <> X -> untraced (clean_embed v) (connections_seen v) X = 1) /\
    forall c, c ∈ l ->
      is_mask (clean_embed v) c = true /\ degree (clean_embed v) c = 2 /\
      (forall d, d ∈ seen_of (connections_seen v) c -> d ∈ l) /\
      (c <> rc -> c <> X -> untraced (clean_embed v) (connections_seen v) c = 0).

(** What a walk leaves behind on a mask that is not a closed loop. *)
Record exact_after (start : option cell) (base : list (cell * cell))
    (l' : list cell) (v' : Vectorizer) : Prop := mk_exact_after {
  ex_whole : through_cells_whole v' (option_list start);
  ex_all : edges_all (connections_seen v') (base ++ pairs l');
  ex_start : forall X, start = Some X ->
    untraced (clean_embed v') (connections_seen v') X = 1
}.

(** The invariant between two top-level calls of the tracer: the invariant
    of the state; every pair of the emitted chains occurs once and is
    consumed; and, on a connected mask that is not a closed loop, every
    consumed pair is in an emitted chain and (while [whole] is set, that is
    before [add_remaining]) cells with two neighbours have both or none of
    their adjacencies consumed. *)
Definition top_inv (whole : bool) (v : Vectorizer) : Prop :=
  wf v /\
  edges_once (connections_seen v) (all_pairs (line_strings v)) /\
  (connected (clean_embed v) -> not_a_loop (clean_embed v) ->
   edges_all (connections_seen v) (all_pairs (line_strings v)) /\
   (whole = true -> through_cells_whole v [])).

(** The state in which a chain [l] is about to be emitted. *)
Definition chain_inv (v : Vectorizer) (l : list cell) : Prop :=
  wf v /\
  edges_once (connections_seen v) (all_pairs (line_strings v) ++ pairs l) /\
  (connected (clean_embed v) -> not_a_loop (clean_embed v) ->
   edges_all (connections_seen v) (all_pairs (line_strings v) ++ pairs l) /\
   through_cells_whole v []).

(** The padded grid of [__init__]: the thin grid with its entries 2 set to
    0, inside a border of zeros. *)
Definition padded (thin : ndarray Z) : ndarray Z :=
  embed_in_larger (assign_where (Z.eqb 2) 0 thin) 1.

(** The grid after [grid[grid > 0] = 1]. *)
Definition binary (g : ndarray Z) : ndarray Z := assign_where (fun x => 0 <? x) 1 g.

(** The state in which [make_all_simple_linestrings] leaves a [Vectorizer]
    built from [thin], when it returns. *)
Definition traced (fuel : nat) (thin : ndarray Z) : option Vectorizer :=
  v ← init_tracer thin;
  match make_all_simple_linestrings fuel v with
  | Ok _ v' => Some v'
  | Raise _ _ => None
  end.

(** The input grid: a shape, and the codes 0, 1 and 2 (any non-negative
    entry is accepted). *)
Definition thin_ok (thin : ndarray Z) : Prop :=
  0 <= nrows thin /\ 0 <= ncols thin /\
  forall rc, in_shape thin rc -> 0 <= item thin rc.1 rc.2.


(** *** Vocabulary of the further properties *)

(** The coordinate arrays that [make_shapely_line_strings] passes to
    [shapely.LineString]: one for each chain of more than one cell, its
    cells taken back to the indices of the thin grid. *)
Definition midpoint_lines {LineString : Type} (a : Assembler LineString)
    (row_col_lists : list (list cell)) : list (list coords) :=
  row_col_list ← row_col_lists;
  let row_col_array := map (fun rc => (rc.1 - 1, rc.2 - 1)) row_col_list in
  if (1 <? length row_col_array)%nat
  then [row_col_array_to_midpoint_coordinates LineString a row_col_array] else [].

(** Between two states of the tracer: the thin grid is the same. *)
Definition same_thin (v v' : Vectorizer) : Prop := thin_grid v' = thin_grid v.

End VectorizeSpec.

(** * Concrete masks *)

Module VectorizeExamples.
Import Vectorize.

(** A closed loop of four cells, all with two neighbours. *)
Definition diamond : ndarray Z := of_rows 0 [[0; 1; 0]; [1; 0; 1]; [0; 1; 0]].

(** A Y: three arms meeting in a cell with three neighbours. *)
Definition wye : ndarray Z := of_rows 0 [[1; 0; 1]; [0; 1; 0]; [0; 1; 0]].

(** Two skeleton cells side by side. *)
Definition segment : ndarray Z := of_rows 0 [[1; 1]].


(** Two skeleton cells that do not touch. *)
Definition specks : ndarray Z := of_rows 0 [[1; 0; 1]].

(** A skeleton cell beside a cell marked 2. *)
Definition marked : ndarray Z := of_rows 0 [[1; 1; 2]].

(** A line of three points, and an assembler with bounds at the origin and
    unit resolution that holds it. *)
Definition pt (x y : Z) : coords := (of_Z x, of_Z y).

Definition river : list coords := [pt 0 0; pt 1 0; pt 2 0].

Definition keyed_assembler (d : list (coords * link (list coords))) : Assembler (list coords) :=
  mk_Assembler _ zero zero (of_Z 1) (of_Z 1) [[pt 0 5; pt 9 5]] [river] [] (Some d) None.

End VectorizeExamples.


(** * Proofs *)

(** ** The outcome monad *)

Section MonadLemmas.
Context {S A B : Type}.

Lemma bind_Ok_inv (m : M S A) (k : A -> M S B) s b s' :
  bind m k s = Ok b s' -> exists a s1, m s = Ok a s1 /\ k a s1 = Ok b s'.
Proof. unfold bind. destruct (m s) as [a s1|e s1]; [eauto | discriminate]. Qed.

Lemma lift_option_Ok_inv (o : option A) (s s' : S) a :
  lift_option o s = Ok a s' -> o = Some a /\ s' = s.
Proof. destruct o; cbn; [intros [= -> ->]; auto | discriminate]. Qed.

Lemma final_state_bind (m : M S A) (k : A -> M S B) s :
  final_state (bind m k s) =
  match m s with Ok a s1 => final_state (k a s1) | Raise _ s1 => s1 end.
Proof. unfold bind. destruct (m s); reflexivity. Qed.

Lemma final_state_lift_option (o : option A) (s : S) :
  final_state (lift_option o s) = s.
Proof. destruct o; reflexivity. Qed.

(** A transitive relation that every step of a sequence respects holds
    between its start and its end, also when the sequence raises. *)
Lemma bind_respects (R : S -> S -> Prop) (m : M S A) (k : A -> M S B) s :
  (forall x y z, R x y -> R y z -> R x z) ->
  R s (final_state (m s)) ->
  (forall a s1, m s = Ok a s1 -> R s1 (final_state (k a s1))) ->
  R s (final_state (bind m k s)).
Proof.
  intros Htrans Hm Hk. rewrite final_state_bind.
  destruct (m s) as [a s1|e s1] eqn:E; cbn in Hm; [|assumption].
  eapply Htrans; [exact Hm | apply Hk; reflexivity].
Qed.

End MonadLemmas.

Ltac inv_ok :=
  repeat match goal with
  | H : lift_option _ _ = Ok _ _ |- _ =>
      let H1 := fresh "H" in
      apply lift_option_Ok_inv in H; destruct H as [H1 ->]
  | H : ret _ _ = Ok _ _ |- _ => unfold ret in H; injection H as <- <-
  | H : get_state _ = Ok _ _ |- _ => unfold get_state in H; injection H as <- <-
  | H : modify _ _ = Ok _ _ |- _ => unfold modify in H; injection H as <-
  end.

Ltac inv_binds :=
  repeat match goal with
  | H : bind _ _ _ = Ok _ _ |- _ =>
      let a := fresh "a" in let s := fresh "s" in
      let H1 := fresh "H" in let H2 := fresh "H" in
      apply bind_Ok_inv in H; destruct H as (a & s & H1 & H2)
  | _ => progress inv_ok
  end.

(** ** numpy arrays *)

Section NumpyLemmas.
Context {A : Type}.
Implicit Types (a : ndarray A) (rc : cell).

Lemma elem_of_range lo hi k : k ∈ range lo hi <-> lo <= k < hi.
Proof.
  unfold range. rewrite list_elem_of_fmap. setoid_rewrite elem_of_seq. split.
  - intros (n & -> & Hn). lia.
  - intros Hk. exists (Z.to_nat (k - lo)). lia.
Qed.

Lemma elem_of_indices a rc : rc ∈ indices a <-> in_shape a rc.
Proof.
  unfold indices, in_shape. destruct rc as [r c]. cbn [fst snd].
  rewrite list_elem_of_bind. setoid_rewrite list_elem_of_bind.
  setoid_rewrite list_elem_of_singleton. setoid_rewrite elem_of_range. split.
  - intros (r' & (c' & [= -> ->] & Hc) & Hr). auto.
  - intros [Hr Hc]. exists r. split; [|assumption]. exists c. auto.
Qed.

Lemma index_in_range n i : 0 <= i < n -> index n i = Some i.
Proof.
  intros H. unfold index.
  destruct (0 <=? i) eqn:E1; [|lia]. destruct (i <? n) eqn:E2; [|lia]. reflexivity.
Qed.

Lemma getitem_in_shape a rc :
  in_shape a rc -> getitem a rc = Some (item a rc.1 rc.2).
Proof. intros [Hr Hc]. unfold getitem. by rewrite !index_in_range. Qed.

Lemma elem_of_argwhere (p : A -> bool) a rc :
  rc ∈ argwhere p a <-> in_shape a rc /\ p (item a rc.1 rc.2) = true.
Proof. unfold argwhere. rewrite list_elem_of_filter, elem_of_indices. tauto. Qed.

(** Reading after a write: either the same item was written, or the read
    is as before. *)
Lemma getitem_setitem a rc v a' rc' :
  setitem a rc v = Some a' ->
  (getitem a' rc' = Some v /\ getitem a rc' = getitem a rc) \/
  getitem a' rc' = getitem a rc'.
Proof.
  unfold setitem, getitem. intros H.
  destruct (index (nrows a) rc.1) as [r|] eqn:Er; [|discriminate].
  destruct (index (ncols a) rc.2) as [c|] eqn:Ec; [|discriminate].
  injection H as <-. cbn [nrows ncols item].
  destruct (index (nrows a) rc'.1) as [r'|]; [|auto].
  destruct (index (ncols a) rc'.2) as [c'|]; [|auto].
  destruct (Z.eqb_spec r' r) as [->|]; [|auto].
  destruct (Z.eqb_spec c' c) as [->|]; auto.
Qed.

Lemma getitem_setitem_same a rc v a' :
  setitem a rc v = Some a' -> getitem a' rc = Some v.
Proof.
  unfold setitem, getitem. intros H.
  destruct (index (nrows a) rc.1) as [r|] eqn:Er; [|discriminate].
  destruct (index (ncols a) rc.2) as [c|] eqn:Ec; [|discriminate].
  injection H as <-. cbn [nrows ncols item]. rewrite Er, Ec, !Z.eqb_refl. reflexivity.
Qed.

End NumpyLemmas.


(** ** connect.py *)

Module ConnectProofs.
Import Connect ConnectSpec ConnectExamples.

(** *** The edge weight *)

Section EdgeWeight.

Lemma get_weight_edge_cost self node1 node2 maxd h e1 e2 w g :
  getitem (elevation_grid self) node1 = Some e1 ->
  getitem (elevation_grid self) node2 = Some e2 ->
  float_arrays h !! weight_grid self = Some g ->
  getitem g node1 = Some w ->
  get_weight self node1 node2 maxd h = Ok (edge_cost e1 e2 w maxd) h.
Proof.
  intros H1 H2 Hg Hw. unfold get_weight, bind, read_float, load_float, bind.
  rewrite H1, H2. simpl. rewrite Hg. simpl. rewrite Hw. reflexivity.
Qed.

Lemma Qle_bool_false (x y : Q) : Qle_bool x y = false <-> (y < x)%Q.
Proof.
  rewrite <- not_true_iff_false, Qle_bool_iff. split; intros H.
  - apply Qnot_le_lt. exact H.
  - apply Qlt_not_le. exact H.
Qed.

Lemma Qeq_bool_false (x y : Q) : Qeq_bool x y = false <-> ~ (x == y)%Q.
Proof. rewrite <- not_true_iff_false, Qeq_bool_iff. reflexivity. Qed.

Lemma py_max_fin (a b : Q) :
  py_max (Fin a) (Fin b) = Fin (if Qle_bool b a then a else b).
Proof. unfold py_max, gtb, ltb. destruct (Qle_bool b a); reflexivity. Qed.

(** A positive drop of at most 20: the larger of the drop and the drop
    scaled by the weight. *)
Lemma edge_cost_gentle (w e1 e2 : Q) :
  (0 < e1 - e2)%Q -> (e1 - e2 <= 20)%Q ->
  edge_cost (Fin e1) (Fin e2) (Fin w) default_max_elevation_diff
  = py_max (Fin (w * (e1 - e2))) (Fin (e1 - e2)).
Proof.
  intros Hpos Hcap. unfold edge_cost, zero, default_max_elevation_diff, of_Z.
  change (inject_Z 20) with 20%Q. cbn [sub].
  rewrite py_max_fin.
  assert (Qle_bool (e1 - e2) 0 = false) as -> by (apply Qle_bool_false; lra).
  unfold gtb. cbn [ltb].
  assert (Qle_bool (e1 - e2) 20 = true) as -> by (apply Qle_bool_iff; lra).
  cbn [negb eqb].
  assert (Qeq_bool (e1 - e2) 0 = false) as -> by (apply Qeq_bool_false; lra).
  reflexivity.
Qed.

(** A drop of more than 20: the difference is replaced by infinity, and
    the result is [max(weight * inf, inf)]. *)
Lemma edge_cost_steep (w e1 e2 : Q) :
  (20 < e1 - e2)%Q ->
  edge_cost (Fin e1) (Fin e2) (Fin w) default_max_elevation_diff
  = py_max (mul (Fin w) PInf) PInf.
Proof.
  intros Hcap. unfold edge_cost, zero, default_max_elevation_diff, of_Z.
  change (inject_Z 20) with 20%Q. cbn [sub].
  rewrite py_max_fin.
  assert (Qle_bool (e1 - e2) 0 = false) as -> by (apply Qle_bool_false; lra).
  unfold gtb. cbn [ltb].
  assert (Qle_bool (e1 - e2) 20 = false) as -> by (apply Qle_bool_false; lra).
  reflexivity.
Qed.

(** No drop: the weight itself. *)
Lemma edge_cost_flat (w e1 e2 : Q) :
  (e1 - e2 <= 0)%Q ->
  edge_cost (Fin e1) (Fin e2) (Fin w) default_max_elevation_diff = Fin w.
Proof.
  intros Hd. unfold edge_cost, zero, default_max_elevation_diff, of_Z.
  change (inject_Z 20) with 20%Q. cbn [sub]. rewrite py_max_fin.
  assert (Qle_bool (e1 - e2) 0 = true) as -> by (apply Qle_bool_iff; lra).
  reflexivity.
Qed.

Lemma mul_pos_inf (w : Q) : (0 < w)%Q -> mul (Fin w) PInf = PInf.
Proof.
  intros Hw. cbn. unfold inf_times, sign_of.
  destruct (Qcompare_spec w 0); try lra. reflexivity.
Qed.

Lemma mul_zero_inf (w : Q) : (w == 0)%Q -> mul (Fin w) PInf = NaN.
Proof.
  intros Hw. cbn. unfold inf_times, sign_of.
  destruct (Qcompare_spec w 0); try lra. reflexivity.
Qed.

Lemma leb_fin (a b : Q) : leb (Fin a) (Fin b) = true <-> (a <= b)%Q.
Proof.
  unfold leb, ltb, eqb. rewrite orb_true_iff, negb_true_iff, Qle_bool_false, Qeq_bool_iff.
  split; [intros [H|H]|intros H]; lra.
Qed.

(** With a positive finite weight a drop of more than 20 costs infinity;
    with weight zero it costs NaN. *)
Lemma edge_cost_steep_positive (w e1 e2 : Q) :
  (20 < e1 - e2)%Q -> (0 < w)%Q ->
  edge_cost (Fin e1) (Fin e2) (Fin w) default_max_elevation_diff = PInf.
Proof. intros Hd Hw. rewrite edge_cost_steep, mul_pos_inf by assumption. reflexivity. Qed.

Lemma edge_cost_steep_zero (w e1 e2 : Q) :
  (20 < e1 - e2)%Q -> (w == 0)%Q ->
  edge_cost (Fin e1) (Fin e2) (Fin w) default_max_elevation_diff = NaN.
Proof. intros Hd Hw. rewrite edge_cost_steep, mul_zero_inf by assumption. reflexivity. Qed.

(** C3, at the failing input: the elevation drops by 30 from node1 to
    node2, more than [max_elevation_diff = 20], and the weight at node1 is
    zero.  [get_weight] returns NaN (zero times infinity), not +infinity. *)
Theorem get_weight_zero_weight_steep_drop_is_nan :
  getitem (elevation_grid steep_connector) (0, 0) = Some (of_Z 30) /\
  getitem (elevation_grid steep_connector) (0, 1) = Some (of_Z 0) /\
  own_weight steep_connector steep_heap (0, 0) = Some (of_Z 0) /\
  get_weight steep_connector (0, 0) (0, 1) default_max_elevation_diff steep_heap
    = Ok NaN steep_heap.
Proof. vm_compute. repeat split; reflexivity. Qed.

(** C4, counterexample: with weight 4 the cost at elevation difference 0
    is 4, and at elevation difference 1/2 it is 2: the cost decreases when
    the elevation difference grows from 0 to 1/2. *)
Lemma edge_cost_not_monotone_from_zero :
  let w := Fin 4 in
  let at_zero := edge_cost (Fin 0) (Fin 0) w default_max_elevation_diff in
  let at_half := edge_cost (Fin (1 # 2)) (Fin 0) w default_max_elevation_diff in
  eqb at_zero (Fin 4) = true /\ eqb at_half (Fin 2) = true /\
  leb at_zero at_half = false.
Proof. vm_compute. auto. Qed.

(** C4, amended: for a fixed non-negative weight the cost is monotonically
    non-decreasing over the positive elevation differences, as long as the
    larger one is at most 20 or the weight is positive; at elevation
    difference 0 the cost is the weight itself. *)
Theorem edge_cost_monotone_on_positive_drops (w e1 e2 e1' e2' : Q) :
  (0 <= w)%Q -> (0 < e1 - e2)%Q -> (e1 - e2 <= e1' - e2')%Q ->
  (e1' - e2' <= 20 \/ 0 < w)%Q ->
  leb (edge_cost (Fin e1) (Fin e2) (Fin w) default_max_elevation_diff)
      (edge_cost (Fin e1') (Fin e2') (Fin w) default_max_elevation_diff) = true /\
  edge_cost (Fin e2) (Fin e2) (Fin w) default_max_elevation_diff = Fin w.
Proof.
  intros Hw H1 H12 Hcap. split; [|apply edge_cost_flat; lra].
  assert (w * (e1 - e2) <= w * (e1' - e2'))%Q as Hmul by nra.
  destruct (Qlt_le_dec 20 (e1' - e2')) as [Hsteep'|Hgentle'].
  - assert (0 < w)%Q as Hpos by (destruct Hcap; [lra | assumption]).
    rewrite (edge_cost_steep_positive w e1' e2') by assumption.
    destruct (Qlt_le_dec 20 (e1 - e2)) as [Hsteep|Hgentle].
    + rewrite edge_cost_steep_positive by assumption. reflexivity.
    + rewrite edge_cost_gentle, py_max_fin by assumption. reflexivity.
  - rewrite !edge_cost_gentle, !py_max_fin by lra.
    apply leb_fin.
    destruct (Qle_bool (e1 - e2) (w * (e1 - e2))) eqn:Ea;
      destruct (Qle_bool (e1' - e2') (w * (e1' - e2'))) eqn:Eb;
      rewrite ?Qle_bool_iff, ?Qle_bool_false in *; lra.
Qed.

Lemma edge_cost_monotone_on_positive_drops_witness :
  leb (edge_cost (Fin 3) (Fin 1) (Fin (1 # 2)) default_max_elevation_diff)
      (edge_cost (Fin 30) (Fin 5) (Fin (1 # 2)) default_max_elevation_diff) = true /\
  edge_cost (Fin 1) (Fin 1) (Fin (1 # 2)) default_max_elevation_diff = Fin (1 # 2).
Proof.
  apply (edge_cost_monotone_on_positive_drops (1 # 2) 3 1 30 5);
    [lra | lra | lra | right; lra].
Defined.

End EdgeWeight.


(** *** The grid graph *)

Section Graph.

Lemma elem_of_neighbours_in all_nodes u v :
  v ∈ neighbours_in all_nodes u <-> v ∈ all_nodes /\ near u v.
Proof.
  unfold neighbours_in, near, offsets3. destruct u as [r c], v as [r' c']. cbn [fst snd].
  rewrite list_elem_of_bind. split.
  - intros (i & Hv & Hi). apply list_elem_of_bind in Hv as (j & Hv & Hj).
    case_bool_decide as Hin; [|by apply elem_of_nil in Hv].
    apply list_elem_of_singleton in Hv as [= -> ->].
    split; [assumption|].
    set_unfold. lia.
  - intros [Hin [H1 H2]].
    exists (r' - r). split.
    + apply list_elem_of_bind. exists (c' - c). split.
      * replace (r + (r' - r)) with r' by lia. replace (c + (c' - c)) with c' by lia.
        rewrite bool_decide_eq_true_2 by assumption. set_solver.
      * set_unfold. lia.
    + set_unfold. lia.
Qed.

Lemma get_weight_pure self u v maxd h w h' :
  get_weight self u v maxd h = Ok w h' -> h' = h.
Proof.
  unfold get_weight, read_float, load_float. intros H. inv_binds. reflexivity.
Qed.

Lemma weigh_edges_ends self u dsts h l h' :
  weigh_edges self u dsts h = Ok l h' -> h' = h /\ ends <$> l = (fun d => (u, d)) <$> dsts.
Proof.
  revert l h h'. induction dsts as [|d dsts IH]; intros l h h' H; cbn in H.
  - inv_ok. auto.
  - apply bind_Ok_inv in H as (w & h1 & Hw & H).
    apply bind_Ok_inv in H as (tl & h2 & Htl & H). inv_ok.
    apply get_weight_pure in Hw as ->. apply IH in Htl as [-> Hl].
    split; [reflexivity|]. cbn. by rewrite Hl.
Qed.

Lemma edge_list_ends self nodes_list h l h' :
  edge_list self nodes_list h = Ok l h' ->
  h' = h /\ ends <$> l = u ← nodes_list; (fun d => (u, d)) <$> neighbours_in (nodes self) u.
Proof.
  revert l h h'. induction nodes_list as [|u nl IH]; intros l h h' H; cbn in H.
  - inv_ok. auto.
  - apply bind_Ok_inv in H as (here & h1 & Hhere & H).
    apply bind_Ok_inv in H as (tl & h2 & Htl & H). inv_ok.
    apply weigh_edges_ends in Hhere as [-> Hl1]. apply IH in Htl as [-> Hl2].
    split; [reflexivity|]. rewrite fmap_app, Hl1, Hl2. reflexivity.
Qed.

Lemma add_weighted_edges_from_lookup g edges k :
  is_Some (add_weighted_edges_from g edges !! k) <-> is_Some (g !! k) \/ k ∈ ends <$> edges.
Proof.
  unfold add_weighted_edges_from. revert g.
  induction edges as [|e edges IH]; intros g; cbn.
  - set_solver.
  - rewrite IH. rewrite elem_of_cons.
    destruct (decide (k = ends e)) as [->|Hne].
    + unfold ends. rewrite lookup_insert_eq. split; eauto.
    + unfold ends in *. rewrite lookup_insert_ne by congruence. tauto.
Qed.

Lemma add_edges_to_graph_edges self nodes_list h self' h' :
  add_edges_to_graph self nodes_list h = Ok self' h' ->
  nodes self' = nodes self /\
  forall u v, is_Some (graph self' !! (u, v)) <->
    is_Some (graph self !! (u, v)) \/
    (u ∈ default (nodes self) nodes_list /\ v ∈ nodes self /\ near u v).
Proof.
  unfold add_edges_to_graph. intros H.
  apply bind_Ok_inv in H as (edges & h1 & Hedges & H). inv_ok.
  apply edge_list_ends in Hedges as [-> Hl]. split; [reflexivity|].
  intros u v. cbn. rewrite add_weighted_edges_from_lookup, Hl.
  rewrite list_elem_of_bind. setoid_rewrite list_elem_of_fmap.
  setoid_rewrite elem_of_neighbours_in. split.
  - intros [?|(u' & (d & [= -> ->] & Hd) & Hu)]; auto.
  - intros [?|(Hu & Hv & Hn)]; auto. right. exists u. eauto.
Qed.

(** C5, counterexample: the graph built for a basin of one eligible cell
    has an edge from that cell to itself. *)
Lemma single_cell_graph_has_self_loop :
  match init single_basin default_min_probability single_store with
  | Ok self _ => nodes self = [(0, 0)] /\ is_Some (graph self !! ((0, 0), (0, 0)))
  | Raise _ _ => False
  end.
Proof. vm_compute. split; [reflexivity | eauto]. Qed.

(** C5, amended: the graph built by the constructor has an edge from [u]
    to [v] exactly when both are graph nodes and [v] lies in the 3x3
    window centred on [u]; the window contains [u], so every node has a
    self-loop, and an edge between two different nodes joins
    8-neighbours. *)
Theorem init_graph_edges basin_data min_probability h self h' :
  init basin_data min_probability h = Ok self h' ->
  (forall u v, is_Some (graph self !! (u, v)) <->
               u ∈ nodes self /\ v ∈ nodes self /\ near u v) /\
  (forall u, u ∈ nodes self -> is_Some (graph self !! (u, u))).
Proof.
  unfold init. intros H.
  apply bind_Ok_inv in H as (components & h1 & _ & H).
  apply bind_Ok_inv in H as (nodes0 & h2 & _ & H).
  apply bind_Ok_inv in H as (weight_copy & h3 & _ & H).
  apply add_edges_to_graph_edges in H as [Hn He]. cbn in Hn, He.
  assert (forall u v, is_Some (graph self !! (u, v)) <->
               u ∈ nodes self /\ v ∈ nodes self /\ near u v) as Hedges.
  { intros u v. rewrite He, Hn, lookup_empty. split.
    - intros [[? [=]]|?]; assumption.
    - auto. }
  split; [exact Hedges|].
  intros u Hu. apply Hedges. repeat split; try assumption; unfold near; lia.
Qed.

Lemma init_graph_edges_witness :
  exists self h',
    init single_basin default_min_probability single_store = Ok self h' /\
    (forall u v, is_Some (graph self !! (u, v)) <->
                 u ∈ nodes self /\ v ∈ nodes self /\ near u v) /\
    (forall u, u ∈ nodes self -> is_Some (graph self !! (u, u))).
Proof.
  destruct (init single_basin default_min_probability single_store)
    as [self h'|e h'] eqn:E.
  - exists self, h'. split; [reflexivity|].
    exact (init_graph_edges single_basin default_min_probability single_store self h' E).
  - vm_compute in E. discriminate.
Defined.
End Graph.


(** *** The representatives of the components *)

Section Representatives.
Variable self : Connector.
Variable comps : ndarray Z.

Lemma min_elevation_step_inv done m rc :
  in_shape comps rc -> reps_inv comps done m ->
  exists m', min_elevation_step self comps m rc = Some m' /\ reps_inv comps (done ++ [rc]) m'.
Proof.
  intros Hrc [Hkey Hdom]. unfold min_elevation_step.
  rewrite getitem_in_shape by assumption. cbn [mbind option_bind].
  fold (label_of comps rc).
  set (elevation := mean _).
  set (m1 := match m !! label_of comps rc with Some _ => m | None => _ end).
  assert (reps_inv comps (done ++ [rc]) m1) as [Hkey1 Hdom1].
  { subst m1. split.
    - intros L info. destruct (m !! label_of comps rc) eqn:E.
      + intros H. apply Hkey in H as [? ?]. split; [set_solver | assumption].
      + destruct (decide (L = label_of comps rc)) as [->|Hne].
        * rewrite lookup_insert_eq. intros [= <-]. cbn. split; [set_solver | reflexivity].
        * rewrite lookup_insert_ne by congruence. intros H. apply Hkey in H as [? ?].
          split; [set_solver | assumption].
    - intros rc' Hin. apply elem_of_app in Hin as [Hin|Hin].
      + apply Hdom in Hin. destruct (m !! label_of comps rc) eqn:E; [assumption|].
        destruct (decide (label_of comps rc' = label_of comps rc)) as [->|Hne].
        * rewrite lookup_insert_eq. eauto.
        * by rewrite lookup_insert_ne by congruence.
      + apply list_elem_of_singleton in Hin as ->.
        destruct (m !! label_of comps rc) eqn:E; [rewrite E; eauto|].
        rewrite lookup_insert_eq. eauto. }
  eexists. split; [reflexivity|].
  destruct (ltb elevation _); [|split; assumption].
  split.
  - intros L info. destruct (decide (L = label_of comps rc)) as [->|Hne].
    + rewrite lookup_insert_eq. intros [= <-]. cbn. split; [set_solver | reflexivity].
    + rewrite lookup_insert_ne by congruence. apply Hkey1.
  - intros rc' Hin. apply Hdom1 in Hin.
    destruct (decide (label_of comps rc' = label_of comps rc)) as [->|Hne].
    + rewrite lookup_insert_eq. eauto.
    + by rewrite lookup_insert_ne by congruence.
Qed.

Lemma min_elevation_loop_inv cells done m :
  (forall rc, rc ∈ cells -> in_shape comps rc) -> reps_inv comps done m ->
  exists m', min_elevation_loop self comps m cells = Some m' /\ reps_inv comps (done ++ cells) m'.
Proof.
  revert done m. induction cells as [|rc cells IH]; intros done m Hin Hinv.
  - exists m. rewrite app_nil_r. auto.
  - destruct (min_elevation_step_inv done m rc) as (m1 & Hstep & Hinv1);
      [apply Hin; set_solver | assumption |].
    destruct (IH (done ++ [rc]) m1) as (m' & Hloop & Hinv');
      [intros; apply Hin; set_solver | assumption |].
    exists m'. cbn. rewrite Hstep. cbn. rewrite <- app_assoc in Hinv'. auto.
Qed.

Lemma elem_of_info_nodes (m : gmap Z component_info) rc :
  rc ∈ info_nodes m <-> exists L info, m !! L = Some info /\ node info = rc.
Proof.
  unfold info_nodes. rewrite elem_of_list_to_set, list_elem_of_fmap. split.
  - intros (info & -> & Hin). apply list_elem_of_fmap in Hin as ([L info'] & -> & Hin).
    apply elem_of_map_to_list in Hin. eauto.
  - intros (L & info & Hm & <-). exists info. split; [reflexivity|].
    apply list_elem_of_fmap. exists (L, info). split; [reflexivity|].
    by apply elem_of_map_to_list.
Qed.
End Representatives.

(** C10: [get_component_min_elevation_points] returns; every returned cell
    carries a positive label of the grid, every positive label of the grid
    is carried by a returned cell, and no two returned cells carry the same
    label. *)
Theorem one_representative_per_component self h comps :
  int_arrays h !! component_grid self = Some comps ->
  exists representatives,
    get_component_min_elevation_points self h = Ok representatives h /\
    (forall rep, rep ∈ representatives ->
       in_shape comps rep /\ 0 < label_of comps rep) /\
    (forall rc, in_shape comps rc -> 0 < label_of comps rc ->
       exists rep, rep ∈ representatives /\ label_of comps rep = label_of comps rc) /\
    (forall rep1 rep2, rep1 ∈ representatives -> rep2 ∈ representatives ->
       label_of comps rep1 = label_of comps rep2 -> rep1 = rep2).
Proof.
  intros Hload.
  destruct (min_elevation_loop_inv self comps (argwhere (fun v => 0 <? v) comps) [] ∅)
    as (m & Hloop & Hkey & Hdom).
  { intros rc Hrc. apply elem_of_argwhere in Hrc. tauto. }
  { split; [intros L info; rewrite lookup_empty; discriminate | set_solver]. }
  exists (info_nodes m). split.
  { unfold get_component_min_elevation_points, bind, load_int. rewrite Hload. cbn.
    rewrite Hloop. reflexivity. }
  cbn [app] in Hkey, Hdom. split; [|split].
  - intros rep Hrep. apply elem_of_info_nodes in Hrep as (L & info & Hm & <-).
    apply Hkey in Hm as [Hin _]. apply elem_of_argwhere in Hin as [? Hpos].
    split; [assumption|]. unfold label_of. lia.
  - intros rc Hrc Hpos.
    destruct (Hdom rc) as [info Hm].
    { apply elem_of_argwhere. split; [assumption|]. unfold label_of in Hpos. lia. }
    exists (node info). split.
    + apply elem_of_info_nodes. eauto.
    + apply Hkey in Hm. tauto.
  - intros rep1 rep2 H1 H2 Heq.
    apply elem_of_info_nodes in H1 as (L1 & info1 & Hm1 & <-).
    apply elem_of_info_nodes in H2 as (L2 & info2 & Hm2 & <-).
    pose proof (Hkey _ _ Hm1) as [_ E1]. pose proof (Hkey _ _ Hm2) as [_ E2].
    assert (L1 = L2) as -> by congruence.
    congruence.
Qed.

(** *** The path stitcher *)

Section Stitching.
Variable dijkstra_oracle : gmap (cell * cell) float -> list cell -> Z -> library_run.
Variable self : Connector.

Lemma keeps_refl seen h : keeps self seen h h.
Proof. intros rc L H _. exact H. Qed.

Lemma keeps_trans seen h1 h2 h3 : keeps self seen h1 h2 -> keeps self seen h2 h3 -> keeps self seen h1 h3.
Proof. intros H12 H23 rc L H Hin. eauto. Qed.

Lemma keeps_mono seen seen' h h' : seen ⊆ seen' -> keeps self seen' h h' -> keeps self seen h h'.
Proof. intros Hsub H rc L Hl Hin. apply H; [assumption | set_solver]. Qed.

Lemma frame_refl h : frame self h h.
Proof. split; auto. Qed.

Lemma frame_trans h1 h2 h3 : frame self h1 h2 -> frame self h2 h3 -> frame self h1 h3.
Proof.
  intros [Ha Hz] [Ha' Hz']. split.
  - intros a Hne. rewrite Ha', Ha by assumption. reflexivity.
  - auto.
Qed.

Lemma both_refl seen h : both self seen h h.
Proof. split; [apply keeps_refl | apply frame_refl]. Qed.

Lemma both_trans seen h1 h2 h3 : both self seen h1 h2 -> both self seen h2 h3 -> both self seen h1 h3.
Proof. intros [? ?] [? ?]. split; [eapply keeps_trans | eapply frame_trans]; eauto. Qed.

(** The primitive reads and writes *)

Lemma read_int_state a rc h : final_state (read_int a rc h) = h.
Proof.
  unfold read_int, load_int. rewrite final_state_bind.
  destruct (int_arrays h !! a); cbn; [apply final_state_lift_option | reflexivity].
Qed.

Lemma read_int_Ok a rc h v h' :
  read_int a rc h = Ok v h' ->
  h' = h /\ exists g, int_arrays h !! a = Some g /\ getitem g rc = Some v.
Proof.
  unfold read_int, load_int. intros H. apply bind_Ok_inv in H as (g & h1 & Hg & H).
  inv_ok. eauto.
Qed.

Lemma load_int_Ok a h g h' : load_int a h = Ok g h' -> h' = h /\ int_arrays h !! a = Some g.
Proof. unfold load_int. intros H. inv_ok. auto. Qed.

Lemma load_int_state a h : final_state (load_int a h) = h.
Proof. unfold load_int. apply final_state_lift_option. Qed.

Lemma write_float_cases a rc v h :
  final_state (write_float a rc v h) = h \/
  exists g g', float_arrays h !! a = Some g /\ setitem g rc v = Some g' /\
    write_float a rc v h = Ok tt (mk_heap (int_arrays h) (<[a := g']> (float_arrays h))).
Proof.
  unfold write_float, load_float, bind.
  destruct (float_arrays h !! a) as [g|] eqn:Eg; cbn; [|auto].
  destruct (setitem g rc v) as [g'|] eqn:Es; cbn; [|auto].
  right. eauto.
Qed.

Lemma write_int_cases a rc v h :
  final_state (write_int a rc v h) = h \/
  exists g g', int_arrays h !! a = Some g /\ setitem g rc v = Some g' /\
    write_int a rc v h = Ok tt (mk_heap (<[a := g']> (int_arrays h)) (float_arrays h)).
Proof.
  unfold write_int, load_int, bind.
  destruct (int_arrays h !! a) as [g|] eqn:Eg; cbn; [|auto].
  destruct (setitem g rc v) as [g'|] eqn:Es; cbn; [|auto].
  right. eauto.
Qed.

Lemma write_zero_both seen rc h :
  both self seen h (final_state (write_float (weight_grid self) rc zero h)).
Proof.
  destruct (write_float_cases (weight_grid self) rc zero h)
    as [->|(g & g' & Hg & Hs & ->)]; [apply both_refl|].
  cbn. split; [intros rc' L H _; exact H|]. split.
  - intros a Hne. cbn. by rewrite lookup_insert_ne.
  - intros rc'. unfold own_weight. cbn. rewrite Hg, lookup_insert_eq. cbn.
    destruct (getitem_setitem _ _ _ _ rc' Hs) as [[-> _]| ->]; auto.
Qed.

Lemma write_zero_Ok rc h h' :
  write_float (weight_grid self) rc zero h = Ok tt h' -> own_weight self h' rc = Some zero.
Proof.
  destruct (write_float_cases (weight_grid self) rc zero h)
    as [Hfail|(g & g' & Hg & Hs & ->)].
  - unfold write_float, load_float, bind in *.
    destruct (float_arrays h !! weight_grid self) as [g|]; cbn in *; [|discriminate].
    destruct (setitem g rc zero) as [g'|] eqn:Es; cbn in *; [|discriminate].
    intros [= <-]. unfold own_weight. cbn. rewrite lookup_insert_eq. cbn.
    eapply getitem_setitem_same; eauto.
  - intros [= <-]. unfold own_weight. cbn. rewrite lookup_insert_eq. cbn.
    eapply getitem_setitem_same; eauto.
Qed.

Lemma write_label_both seen rc v h cur :
  label self h rc = Some cur -> cur ∉ seen ->
  both self seen h (final_state (write_int (component_grid self) rc v h)).
Proof.
  intros Hcur Hnot.
  destruct (write_int_cases (component_grid self) rc v h)
    as [->|(g & g' & Hg & Hs & ->)]; [apply both_refl|].
  cbn. split; [|split; auto].
  intros rc' L Hl Hin. unfold label in *. cbn. rewrite lookup_insert_eq. cbn.
  rewrite Hg in Hl, Hcur. cbn in Hl, Hcur.
  destruct (getitem_setitem _ _ _ _ rc' Hs) as [[_ E]| ->]; [|assumption].
  congruence.
Qed.

(** The relabelling walk *)

Lemma relabel_stops seen new_component rc rest path_to_save h L :
  label self h rc = Some L -> L ∈ seen ->
  relabel self seen new_component (rc :: rest) path_to_save h = Ok path_to_save h.
Proof.
  intros Hl Hin. cbn. unfold bind, read_int, load_int, bind, label in *.
  destruct (int_arrays h !! component_grid self) as [g|]; [|discriminate]. cbn in *.
  rewrite Hl. cbn. rewrite bool_decide_eq_false_2 by auto. reflexivity.
Qed.

Lemma relabel_both seen new_component reversed_path path_to_save h :
  both self seen h (final_state (relabel self seen new_component reversed_path path_to_save h)).
Proof.
  revert path_to_save h. induction reversed_path as [|rc rest IH]; intros acc h.
  - apply both_refl.
  - cbn [relabel]. rewrite final_state_bind.
    destruct (read_int (component_grid self) rc h) as [cur h1|e h1] eqn:Eread.
    2: { pose proof (read_int_state (component_grid self) rc h) as E.
         rewrite Eread in E. cbn in E. subst. apply both_refl. }
    apply read_int_Ok in Eread as [-> (g & Hg & Hcur)].
    case_bool_decide as Hseen; [|apply both_refl].
    apply bind_respects; [apply both_trans | apply write_zero_both |].
    intros [] h1 Hw.
    apply bind_respects; [apply both_trans | |].
    + eapply write_label_both; [|exact Hseen].
      destruct (write_float_cases (weight_grid self) rc zero h)
        as [Hfail|(g1 & g1' & Hg1 & Hs1 & E)].
      * rewrite Hw in Hfail. cbn in Hfail. subst h1. unfold label. rewrite Hg. exact Hcur.
      * rewrite Hw in E. injection E as ->. unfold label. cbn. rewrite Hg. exact Hcur.
    + intros [] h2 _. apply IH.
Qed.

Lemma relabel_zero seen new_component reversed_path path_to_save h saved h' :
  relabel self seen new_component reversed_path path_to_save h = Ok saved h' ->
  (forall rc, rc ∈ path_to_save -> own_weight self h rc = Some zero) ->
  forall rc, rc ∈ saved -> own_weight self h' rc = Some zero.
Proof.
  revert path_to_save h. induction reversed_path as [|rc rest IH]; intros acc h H Hacc.
  - cbn in H. inv_ok. assumption.
  - cbn [relabel] in H. apply bind_Ok_inv in H as (cur & h1 & Hread & H).
    apply read_int_Ok in Hread as [-> _].
    case_bool_decide as Hseen; [|inv_ok; assumption].
    apply bind_Ok_inv in H as ([] & h1 & Hw & H).
    apply bind_Ok_inv in H as ([] & h2 & Hl & H).
    eapply IH; [exact H|].
    assert (frame self h h2) as [_ Hz].
    { eapply frame_trans.
      - pose proof (write_zero_both seen rc h) as [_ F]. rewrite Hw in F. exact F.
      - destruct (write_int_cases (component_grid self) rc new_component h1)
          as [E|(g & g' & _ & _ & E)]; rewrite Hl in E; cbn in E.
        + subst. apply frame_refl.
        + injection E as ->. split; auto. }
    intros rc' Hin. apply elem_of_app in Hin as [Hin|Hin].
    + apply Hz, Hacc, Hin.
    + apply list_elem_of_singleton in Hin as ->.
      destruct (write_int_cases (component_grid self) rc new_component h1)
          as [E|(g & g' & _ & _ & E)]; rewrite Hl in E; cbn in E.
      * subst. eapply write_zero_Ok; eauto.
      * injection E as ->. unfold own_weight. cbn.
        apply write_zero_Ok in Hw. exact Hw.
Qed.

(** Committing paths *)

Lemma paths_zero_frame loc h h' : frame self h h' -> paths_zero self loc h -> paths_zero self loc h'.
Proof. intros [_ Hz] Hp target path i rc Hl Hin. eapply Hz, Hp; eauto. Qed.

Lemma commit_target_both i loc tp h :
  both self (components_seen loc) h (final_state (commit_target self i loc tp h)).
Proof.
  unfold commit_target. destruct tp as [target path].
  destruct (0 <? length path)%nat; [|apply both_refl].
  apply bind_respects; [apply both_trans | rewrite read_int_state; apply both_refl |].
  intros new_component h1 Hread. apply read_int_Ok in Hread as [-> _].
  apply bind_respects; [apply both_trans | apply relabel_both |].
  intros saved h1 _.
  apply bind_respects; [apply both_trans | rewrite load_int_state; apply both_refl |].
  intros g h2 _. apply both_refl.
Qed.

Lemma commit_target_Ok i loc tp h loc' h' :
  commit_target self i loc tp h = Ok loc' h' ->
  (components_seen loc ⊆ components_seen loc') /\
  (paths_zero self loc h -> paths_zero self loc' h').
Proof.
  intros H. pose proof (commit_target_both i loc tp h) as [_ Hframe].
  rewrite H in Hframe. cbn in Hframe.
  unfold commit_target in H. destruct tp as [target path].
  destruct (0 <? length path)%nat.
  2: { inv_ok. split; [set_solver | auto]. }
  apply bind_Ok_inv in H as (new_component & h1 & Hread & H).
  apply read_int_Ok in Hread as [-> _].
  apply bind_Ok_inv in H as (saved & h1 & Hrel & H).
  apply bind_Ok_inv in H as (g & h2 & Hload & H).
  apply load_int_Ok in Hload as [-> _]. inv_ok. cbn.
  split; [set_solver|].
  intros Hp target' path' i' rc. cbn.
  destruct (decide (target' = target)) as [->|Hne].
  - rewrite lookup_insert_eq. intros [= <- <-] Hin.
    eapply relabel_zero; [exact Hrel | | exact Hin]. set_solver.
  - rewrite lookup_insert_ne by congruence. intros Hl Hin.
    destruct Hframe as [_ Hz]. eapply Hz, Hp; eauto.
Qed.

Lemma commit_targets_both i target_paths loc h :
  both self (components_seen loc) h (final_state (commit_targets self i loc target_paths h)).
Proof.
  revert loc h. induction target_paths as [|tp rest IH]; intros loc h.
  - apply both_refl.
  - cbn [commit_targets].
    apply bind_respects; [apply both_trans | apply commit_target_both |].
    intros loc1 h1 Hc. apply commit_target_Ok in Hc as [Hsub _].
    destruct (IH loc1 h1) as [Hk Hf]. split; [|assumption].
    eapply keeps_mono; eauto.
Qed.

Lemma commit_targets_Ok i target_paths loc h loc' h' :
  commit_targets self i loc target_paths h = Ok loc' h' ->
  (components_seen loc ⊆ components_seen loc') /\
  (paths_zero self loc h -> paths_zero self loc' h').
Proof.
  revert loc h. induction target_paths as [|tp rest IH]; intros loc h H.
  - cbn in H. inv_ok. split; [set_solver | auto].
  - cbn [commit_targets] in H. apply bind_Ok_inv in H as (loc1 & h1 & Hc & H).
    apply commit_target_Ok in Hc as [Hsub1 Hz1]. apply IH in H as [Hsub2 Hz2].
    split; [set_solver | auto].
Qed.

(** The library call *)

Lemma get_weight_dict_raises u v d h :
  exists e, get_weight_dict self u v d h = Raise e h.
Proof.
  unfold get_weight_dict, bind, read_float, load_float, bind.
  destruct (getitem (elevation_grid self) u); cbn; [|eauto].
  destruct (getitem (elevation_grid self) v); cbn; [|eauto].
  destruct (float_arrays h !! weight_grid self) as [g|]; cbn; [|eauto].
  destruct (getitem g u); cbn; eauto.
Qed.


Lemma run_library_state r h :
  final_state (run_library (get_weight_dict self) (graph self) r h) = h.
Proof.
  destruct r as [paths| |u v resume]; cbn [run_library]; try reflexivity.
  rewrite final_state_bind.
  destruct (get_weight_dict_raises u v (edge_data (graph self) u v) h) as [e ->].
  reflexivity.
Qed.

Lemma run_library_Ok r h paths h' :
  run_library (get_weight_dict self) (graph self) r h = Ok paths h' ->
  r = Returns paths /\ h' = h.
Proof.
  destruct r as [paths0| |u v resume]; cbn [run_library].
  - intros [= -> ->]. auto.
  - discriminate.
  - unfold bind.
    destruct (get_weight_dict_raises u v (edge_data (graph self) u v) h) as [e ->].
    discriminate.
Qed.

Lemma dijkstra_state sources cutoff h :
  final_state (dijkstra dijkstra_oracle self sources cutoff h) = h.
Proof. apply run_library_state. Qed.

Lemma dijkstra_Ok sources cutoff h paths h' :
  dijkstra dijkstra_oracle self sources cutoff h = Ok paths h' -> h' = h.
Proof. intros H. by apply run_library_Ok in H as [_ ->]. Qed.

Lemma stages_both i cut_offs loc h :
  both self (components_seen loc) h
    (final_state (stages dijkstra_oracle self i cut_offs loc h)).
Proof.
  revert i loc h. induction cut_offs as [|cutoff rest IH]; intros i loc h.
  - apply both_refl.
  - cbn [stages].
    apply bind_respects; [apply both_trans | rewrite dijkstra_state; apply both_refl |].
    intros paths h1 Hd. apply dijkstra_Ok in Hd as ->.
    apply bind_respects; [apply both_trans | apply commit_targets_both |].
    intros loc1 h1 Hc. apply commit_targets_Ok in Hc as [Hsub _].
    case_bool_decide; [apply both_refl|].
    destruct (IH (i + 1) loc1 h1) as [Hk Hf]. split; [|assumption].
    eapply keeps_mono; eauto.
Qed.

Lemma stages_Ok i cut_offs loc h loc' h' :
  stages dijkstra_oracle self i cut_offs loc h = Ok loc' h' ->
  (components_seen loc ⊆ components_seen loc') /\
  (paths_zero self loc h -> paths_zero self loc' h').
Proof.
  revert i loc h. induction cut_offs as [|cutoff rest IH]; intros i loc h H.
  - cbn in H. inv_ok. split; [set_solver | auto].
  - cbn [stages] in H. apply bind_Ok_inv in H as (paths & h1 & Hd & H).
    apply dijkstra_Ok in Hd as ->.
    apply bind_Ok_inv in H as (loc1 & h1 & Hc & H).
    apply commit_targets_Ok in Hc as [Hsub1 Hz1].
    case_bool_decide.
    + inv_ok. auto.
    + apply IH in H as [Hsub2 Hz2]. split; [set_solver | auto].
Qed.

Lemma min_elevation_points_state h :
  final_state (get_component_min_elevation_points self h) = h.
Proof.
  unfold get_component_min_elevation_points. rewrite final_state_bind.
  destruct (load_int (component_grid self) h) as [g h1|e h1] eqn:E.
  - apply load_int_Ok in E as [-> _]. rewrite final_state_bind.
    destruct (min_elevation_loop _ _ _ _); reflexivity.
  - pose proof (load_int_state (component_grid self) h) as E'. rewrite E in E'. exact E'.
Qed.

Lemma get_paths_both cut_offs h :
  both self {[component self]} h (final_state (get_paths dijkstra_oracle self cut_offs h)).
Proof.
  unfold get_paths.
  apply bind_respects; [apply both_trans | rewrite load_int_state; apply both_refl |].
  intros g h1 Hl. apply load_int_Ok in Hl as [-> _].
  apply bind_respects;
    [apply both_trans | rewrite min_elevation_points_state; apply both_refl |].
  intros targets h1 Ht.
  pose proof (min_elevation_points_state h) as E. rewrite Ht in E. cbn in E. subst h1.
  apply bind_respects; [apply both_trans | |].
  - exact (stages_both 0 cut_offs
             (mk_locals (argwhere (Z.eqb (component self)) g) targets {[component self]} ∅) h).
  - intros loc h1 _. apply both_refl.
Qed.

(** From any point of a run onwards *)

Lemma commit_targets_app i done todo : forall loc h loc1 h1,
  commit_targets self i loc done h = Ok loc1 h1 ->
  commit_targets self i loc (done ++ todo) h = commit_targets self i loc1 todo h1.
Proof.
  induction done as [|tp done IH]; intros loc h loc1 h1 H; cbn [commit_targets app] in *.
  - by inv_ok.
  - apply bind_Ok_inv in H as (loc' & h' & Hc & H).
    unfold bind at 1. rewrite Hc. by apply IH.
Qed.

Lemma commit_targets_from_point i loc done todo h loc1 h1 :
  commit_targets self i loc done h = Ok loc1 h1 ->
  components_seen loc ⊆ components_seen loc1 /\
  keeps self (components_seen loc1) h1
    (final_state (commit_targets self i loc (done ++ todo) h)).
Proof.
  intros H. split; [by apply commit_targets_Ok in H as [? _]|].
  rewrite (commit_targets_app _ _ _ _ _ _ _ H). apply commit_targets_both.
Qed.

Lemma stages_app todo : forall done i loc h loc1 h1,
  stages dijkstra_oracle self i done loc h = Ok loc1 h1 ->
  done = [] \/ size (targets loc1) <> 0%nat ->
  stages dijkstra_oracle self i (done ++ todo) loc h
  = stages dijkstra_oracle self (i + Z.of_nat (length done)) todo loc1 h1.
Proof.
  induction done as [|cutoff done IH]; intros i loc h loc1 h1 H Hgo.
  - cbn in H. inv_ok. cbn [app length]. by rewrite Z.add_0_r.
  - destruct Hgo as [|Hgo]; [discriminate|].
    cbn [stages app] in *. apply bind_Ok_inv in H as (paths & h' & Hd & H).
    unfold bind at 1. rewrite Hd.
    apply bind_Ok_inv in H as (loc' & h'' & Hc & H).
    unfold bind at 1. rewrite Hc.
    case_bool_decide as Hsize.
    + inv_ok. contradiction.
    + rewrite (IH _ _ _ _ _ H) by auto.
      f_equal. cbn [length]. lia.
Qed.

Lemma final_state_bind_ret {A B : Type} (m : M heap A) (f : A -> B) h :
  final_state ((do a <- m; ret (f a)) h) = final_state (m h).
Proof. unfold bind. destruct (m h); reflexivity. Qed.

Lemma get_paths_from_point cut_offs h loc1 h1 :
  run_point dijkstra_oracle self cut_offs h loc1 h1 ->
  keeps self (components_seen loc1) h1
    (final_state (get_paths dijkstra_oracle self cut_offs h)).
Proof.
  intros (done & cutoff & rest & components & targets0 & loc & hk & paths & committed &
          pending & -> & Hcomp & Htargets & Hdone & Hgo & Hd & Hsplit & Hc).
  unfold get_paths, bind at 1, load_int. rewrite Hcomp. cbn [lift_option ret].
  unfold bind at 1. rewrite Htargets.
  rewrite (final_state_bind_ret _
             (fun loc => (paths_to_return loc, targets0, components_seen loc))).
  fold (initial_locals self components targets0).
  rewrite (stages_app _ _ _ _ _ _ _ Hdone Hgo), Z.add_0_l. cbn [stages].
  unfold bind at 1. rewrite Hd.
  fold (target_paths_of paths loc). rewrite Hsplit.
  rewrite final_state_bind, (commit_targets_app _ _ _ _ _ _ _ Hc).
  pose proof (commit_targets_both (Z.of_nat (length done)) pending loc1 h1) as [Hk _].
  destruct (commit_targets self (Z.of_nat (length done)) loc1 pending h1)
    as [loc2 h2|e h2] eqn:Hrest; cbn in Hk; [|exact Hk].
  apply commit_targets_Ok in Hrest as [Hsub _].
  eapply keeps_trans; [exact Hk|].
  case_bool_decide; [apply keeps_refl|].
  eapply keeps_mono; [exact Hsub|]. apply stages_both.
Qed.
End Stitching.

Lemma one_representative_per_component_witness :
  exists representatives,
    get_component_min_elevation_points example_connector store = Ok representatives store /\
    (forall rep, rep ∈ representatives ->
       in_shape components rep /\ 0 < label_of components rep) /\
    (forall rc, in_shape components rc -> 0 < label_of components rc ->
       exists rep, rep ∈ representatives /\ label_of components rep = label_of components rc) /\
    (forall rep1 rep2, rep1 ∈ representatives -> rep2 ∈ representatives ->
       label_of components rep1 = label_of components rep2 -> rep1 = rep2).
Proof.
  apply (one_representative_per_component example_connector store components).
  reflexivity.
Defined.

(** C6: throughout a run of the stitcher no cell whose label is in the seen
    set is relabelled.  The relabelling walk stops at, and leaves out, the
    first cell whose label is in the seen set, and keeps every label of that
    set.  Every commit keeps the labels of the seen set it is entered with,
    and only adds to that set.  In the loop over the target paths, after any
    number of commits, the labels of the seen set as it is then are kept to
    the end of the loop.  The same holds for the stages from any stage on,
    for the whole of [get_paths], and from every point of a run of
    [get_paths] (after any number of stages and of commits of the next
    stage) to its end, whether the run returns or raises. *)
Theorem seen_components_never_relabelled dijkstra_oracle self :
  (forall seen new_component rc rest path_to_save h L,
     label self h rc = Some L -> L ∈ seen ->
     relabel self seen new_component (rc :: rest) path_to_save h = Ok path_to_save h) /\
  (forall seen new_component reversed_path path_to_save h,
     keeps self seen h
       (final_state (relabel self seen new_component reversed_path path_to_save h))) /\
  (forall i loc target_path h,
     keeps self (components_seen loc) h
       (final_state (commit_target self i loc target_path h))) /\
  (forall i loc target_path h loc' h',
     commit_target self i loc target_path h = Ok loc' h' ->
     components_seen loc ⊆ components_seen loc') /\
  (forall i loc committed pending h loc1 h1,
     commit_targets self i loc committed h = Ok loc1 h1 ->
     components_seen loc ⊆ components_seen loc1 /\
     keeps self (components_seen loc1) h1
       (final_state (commit_targets self i loc (committed ++ pending) h))) /\
  (forall i cut_offs loc h,
     keeps self (components_seen loc) h
       (final_state (stages dijkstra_oracle self i cut_offs loc h))) /\
  (forall cut_offs h,
     keeps self {[component self]} h
       (final_state (get_paths dijkstra_oracle self cut_offs h))) /\
  (forall cut_offs h loc1 h1,
     run_point dijkstra_oracle self cut_offs h loc1 h1 ->
     keeps self (components_seen loc1) h1
       (final_state (get_paths dijkstra_oracle self cut_offs h))).
Proof.
  split_and!.
  - apply relabel_stops.
  - intros. apply relabel_both.
  - intros. apply commit_target_both.
  - intros i loc tp h loc' h' H. by apply commit_target_Ok in H as [? _].
  - intros. by apply commit_targets_from_point.
  - intros. apply stages_both.
  - intros. apply get_paths_both.
  - intros. by apply get_paths_from_point.
Qed.


End ConnectProofs.


(** ** vectorize.py: the skeleton tracer *)

Module VectorizeProofs.
Import Vectorize VectorizeSpec VectorizeExamples.

(** *** The eight neighbours of a cell *)

Section Neighbours.

Lemma elem_of_nbrs rc d :
  d ∈ nbrs rc <-> d <> rc /\ Z.abs (d.1 - rc.1) <= 1 /\ Z.abs (d.2 - rc.2) <= 1.
Proof.
  destruct rc as [r c], d as [r' c']. unfold nbrs, offsets8, shift. cbn.
  rewrite !elem_of_cons, elem_of_nil. split.
  - intros H. repeat destruct H as [H|H]; try done; injection H as -> ->;
      (split; [intros [= ? ?]; lia | lia]).
  - intros (Hne & Hr & Hc).
    assert (r' = r - 1 \/ r' = r \/ r' = r + 1) as Hr' by lia.
    assert (c' = c - 1 \/ c' = c \/ c' = c + 1) as Hc' by lia.
    destruct Hr' as [-> | [-> | ->]]; destruct Hc' as [-> | [-> | ->]];
      try (exfalso; apply Hne; reflexivity);
      repeat (first [left; f_equal; lia | right]).
Qed.

Lemma nbrs_sym rc d : d ∈ nbrs rc -> rc ∈ nbrs d.
Proof. rewrite !elem_of_nbrs. intros (? & ? & ?). repeat split; [congruence | lia | lia]. Qed.

Lemma nbrs_irrefl rc : rc ∉ nbrs rc.
Proof. rewrite elem_of_nbrs. tauto. Qed.

Lemma NoDup_nbrs rc : NoDup (nbrs rc).
Proof.
  destruct rc as [r c]. unfold nbrs, offsets8, shift. cbn.
  repeat (apply NoDup_cons; split;
          [rewrite ?elem_of_cons, elem_of_nil; intros H;
           repeat destruct H as [H|H]; try done; injection H; lia|]).
  apply NoDup_nil. done.
Qed.

End Neighbours.

(** *** Filters and their lengths *)

Section ListLemmas.
Context {A : Type}.

Lemma filter_length_ext_in (P Q : A -> Prop) `{!forall x, Decision (P x)}
    `{!forall x, Decision (Q x)} (l : list A) :
  (forall y, y ∈ l -> (P y <-> Q y)) -> length (filter P l) = length (filter Q l).
Proof.
  induction l as [|y l IH]; intros Hext; [reflexivity|].
  rewrite !filter_cons.
  assert (length (filter P l) = length (filter Q l)) as E
    by (apply IH; intros; apply Hext; set_solver).
  destruct (decide (P y)) as [Hp|Hp], (decide (Q y)) as [Hq|Hq]; cbn; try lia.
  - exfalso. apply Hq, Hext; [set_solver | assumption].
  - exfalso. apply Hp, Hext; [set_solver | assumption].
Qed.

(** Removing one element of a duplicate-free list from a filter shortens
    the result by one. *)
Lemma filter_length_drop (P Q : A -> Prop) `{!forall x, Decision (P x)}
    `{!forall x, Decision (Q x)} (l : list A) (x : A) :
  NoDup l -> x ∈ l -> P x -> (forall y, y ∈ l -> (Q y <-> P y /\ y <> x)) ->
  (length (filter Q l) + 1 = length (filter P l))%nat.
Proof.
  intros Hnd Hin HP HQ. induction l as [|y l IH]; [by apply elem_of_nil in Hin|].
  apply NoDup_cons in Hnd as [Hy Hnd]. rewrite !filter_cons.
  apply elem_of_cons in Hin as [->|Hin].
  - destruct (decide (P y)) as [_|]; [|done].
    destruct (decide (Q y)) as [Hq|_]; [apply HQ in Hq; [tauto | set_solver]|].
    cbn. rewrite (filter_length_ext_in Q P); [lia|].
    intros z Hz. rewrite HQ by set_solver. split; [tauto|]. intros. split; [assumption|].
    intros ->. contradiction.
  - assert (x <> y) as Hne by (intros ->; contradiction).
    assert (length (filter Q l) + 1 = length (filter P l))%nat as E.
    { apply IH; [assumption | assumption | intros; apply HQ; set_solver]. }
    assert (Q y <-> P y) as Hy'.
    { rewrite HQ by set_solver. split; [tauto|]. intros. split; [assumption | congruence]. }
    destruct (decide (P y)), (decide (Q y)); cbn; try lia; tauto.
Qed.

Lemma filter_iff_in (P Q : A -> Prop) `{!forall x, Decision (P x)}
    `{!forall x, Decision (Q x)} (l : list A) :
  (forall y, y ∈ l -> (P y <-> Q y)) -> filter P l = filter Q l.
Proof.
  induction l as [|y l IH]; intros Hext; [reflexivity|].
  rewrite !filter_cons.
  rewrite IH by (intros; apply Hext; set_solver).
  destruct (decide (P y)) as [Hp|Hp], (decide (Q y)) as [Hq|Hq]; try reflexivity.
  - exfalso. apply Hq, Hext; [set_solver | assumption].
  - exfalso. apply Hp, Hext; [set_solver | assumption].
Qed.

Lemma find_filter_head (p : A -> bool) (l : list A) :
  List.find p l = head (filter (fun x => p x = true) l).
Proof.
  induction l as [|y l IH]; [reflexivity|]. cbn [List.find]. rewrite filter_cons.
  destruct (p y) eqn:E.
  - rewrite decide_True by reflexivity. reflexivity.
  - rewrite decide_False by discriminate. exact IH.
Qed.

End ListLemmas.

(** *** Sums over a grid *)

Section Sums.

Lemma sum_list_le {A} (f g : A -> Z) (l : list A) :
  (forall x, x ∈ l -> f x <= g x) -> sum_list (f <$> l) <= sum_list (g <$> l).
Proof.
  induction l as [|y l IH]; intros H; cbn; [lia|].
  assert (f y <= g y) by (apply H; set_solver).
  assert (sum_list (f <$> l) <= sum_list (g <$> l)) by (apply IH; intros; apply H; set_solver).
  unfold sum_list in *. lia.
Qed.

Lemma sum_list_lt {A} (f g : A -> Z) (l : list A) x0 :
  (forall x, x ∈ l -> f x <= g x) -> x0 ∈ l -> f x0 < g x0 ->
  sum_list (f <$> l) < sum_list (g <$> l).
Proof.
  induction l as [|y l IH]; intros H Hin Hlt; [by apply elem_of_nil in Hin|].
  cbn. assert (f y <= g y) by (apply H; set_solver).
  assert (sum_list (f <$> l) <= sum_list (g <$> l))
    by (apply sum_list_le; intros; apply H; set_solver).
  apply elem_of_cons in Hin as [->|Hin].
  - unfold sum_list in *. lia.
  - assert (sum_list (f <$> l) < sum_list (g <$> l))
      by (apply IH; [intros; apply H; set_solver | assumption | assumption]).
    unfold sum_list in *. lia.
Qed.

Lemma grid_sum_le (f : Z -> Z) (g g' : ndarray Z) :
  nrows g' = nrows g -> ncols g' = ncols g ->
  (forall rc, in_shape g rc -> f (item g' rc.1 rc.2) <= f (item g rc.1 rc.2)) ->
  grid_sum f g' <= grid_sum f g.
Proof.
  intros Hr Hc H. unfold grid_sum, indices. rewrite Hr, Hc.
  apply sum_list_le. intros rc Hin. apply H. apply elem_of_indices. exact Hin.
Qed.

Lemma grid_sum_lt (f : Z -> Z) (g g' : ndarray Z) rc0 :
  nrows g' = nrows g -> ncols g' = ncols g ->
  (forall rc, in_shape g rc -> f (item g' rc.1 rc.2) <= f (item g rc.1 rc.2)) ->
  in_shape g rc0 -> f (item g' rc0.1 rc0.2) < f (item g rc0.1 rc0.2) ->
  grid_sum f g' < grid_sum f g.
Proof.
  intros Hr Hc H Hin Hlt. unfold grid_sum, indices. rewrite Hr, Hc.
  apply (sum_list_lt _ _ _ rc0); [|by apply elem_of_indices|assumption].
  intros rc Hrc. apply H. apply elem_of_indices. exact Hrc.
Qed.

End Sums.

(** *** The consecutive pairs of a chain *)

Section Pairs.

Lemma pairs_snoc (l : list cell) (y x : cell) :
  last l = Some y -> pairs (l ++ [x]) = pairs l ++ [(y, x)].
Proof.
  unfold pairs. induction l as [|a l IH]; [discriminate|].
  destruct l as [|b l]; cbn.
  - intros [= ->]. reflexivity.
  - intros Hl. cbn in IH. rewrite IH by exact Hl. reflexivity.
Qed.

Lemma occurrences_app a b (p q : list (cell * cell)) :
  occurrences a b (p ++ q) = (occurrences a b p + occurrences a b q)%nat.
Proof. unfold occurrences. by rewrite filter_app, length_app. Qed.

Lemma occurrences_one a b x y :
  occurrences a b [(x, y)] =
  if decide ((x, y) = (a, b) \/ (x, y) = (b, a)) then 1%nat else 0%nat.
Proof.
  unfold occurrences. rewrite filter_cons, filter_nil.
  destruct (decide _); reflexivity.
Qed.

Lemma occurrences_removelast a b (ps : list (cell * cell)) :
  (occurrences a b (removelast ps) <= occurrences a b ps)%nat.
Proof.
  destruct (decide (ps = [])) as [->|Hne]; [reflexivity|].
  rewrite (app_removelast_last (0, 0, (0, 0)) Hne) at 2.
  rewrite occurrences_app. apply Nat.le_add_r.
Qed.

Lemma pairs_removelast (l : list cell) : pairs (removelast l) = removelast (pairs l).
Proof.
  unfold pairs. induction l as [|a l IH]; [reflexivity|].
  destruct l as [|b l]; [reflexivity|].
  destruct l as [|c l]; [reflexivity|].
  change (removelast (a :: b :: c :: l)) with (a :: removelast (b :: c :: l)).
  change (zip (a :: b :: c :: l) (tail (a :: b :: c :: l)))
    with ((a, b) :: zip (b :: c :: l) (tail (b :: c :: l))).
  change (removelast ((a, b) :: zip (b :: c :: l) (tail (b :: c :: l))))
    with ((a, b) :: removelast (zip (b :: c :: l) (tail (b :: c :: l)))).
  rewrite <- IH. reflexivity.
Qed.

End Pairs.

(** *** [investigate_row_col], step by step *)

Section Steps.
Implicit Types (v : Vectorizer) (rc : cell).

Lemma read_count_in_shape v rc :
  in_shape (count_grid v) rc -> read_count rc v = Ok (cnt v rc) v.
Proof. intros H. unfold read_count. by rewrite getitem_in_shape. Qed.

Lemma read_init_count_in_shape v rc :
  in_shape (init_count_grid v) rc -> read_init_count rc v = Ok (init_cnt v rc) v.
Proof. intros H. unfold read_init_count. by rewrite getitem_in_shape. Qed.

Lemma decrement_in_shape v rc :
  in_shape (count_grid v) rc -> decrement rc v = Ok tt (dec rc v).
Proof.
  intros H. unfold decrement, bind. rewrite read_count_in_shape by assumption.
  destruct H as [Hr Hc]. unfold setitem. rewrite !index_in_range by assumption.
  reflexivity.
Qed.

Lemma scan_find recur rc l all offs v :
  (forall o, o ∈ offs -> in_shape (count_grid v) (shift rc o) /\
                         in_shape (init_count_grid v) (shift rc o)) ->
  scan recur rc l all offs v =
  match List.find (eligible v rc) (shift rc <$> offs) with
  | None => pop l v
  | Some rc1 => take recur rc rc1 l all v
  end.
Proof.
  induction offs as [|[i j] offs IH]; intros Hin; [reflexivity|].
  cbn [scan fmap list_fmap List.find].
  change (rc.1 + i, rc.2 + j) with (shift rc (i, j)).
  destruct (Hin (i, j)) as [Hc Hi]; [set_solver|].
  unfold bind at 1. rewrite read_count_in_shape by assumption.
  unfold bind at 1, get_state.
  match goal with |- (if ?c then _ else _) _ = _ =>
    change c with (eligible v rc (shift rc (i, j))) end.
  destruct (eligible v rc (shift rc (i, j))) eqn:E.
  - unfold bind at 1, add_to_connections_seen, modify.
    fold (mark rc (shift rc (i, j)) v).
    unfold bind at 1. rewrite decrement_in_shape by exact Hc.
    fold (after_take rc (shift rc (i, j)) v).
    unfold bind at 1. rewrite read_init_count_in_shape by exact Hi.
    unfold take.
    change (init_cnt (after_take rc (shift rc (i, j)) v) (shift rc (i, j)))
      with (init_cnt v (shift rc (i, j))).
    destruct ((init_cnt v (shift rc (i, j)) =? 1) && negb all); [reflexivity|].
    destruct ((init_cnt v (shift rc (i, j)) =? 2) && negb all); reflexivity.
  - apply IH. intros o Ho. apply Hin. set_solver.
Qed.

Lemma investigate_unfold fuel rc l all v :
  in_shape (count_grid v) rc ->
  (forall d, d ∈ nbrs rc -> in_shape (count_grid v) d /\ in_shape (init_count_grid v) d) ->
  investigate_row_col (S fuel) rc l all v =
  match next_cell (dec rc v) rc with
  | None => pop l (dec rc v)
  | Some rc1 =>
      take (fun rc1 l => investigate_row_col fuel rc1 l all) rc rc1 l all (dec rc v)
  end.
Proof.
  intros Hrc Hn. cbn [investigate_row_col]. unfold bind.
  rewrite decrement_in_shape by assumption.
  rewrite scan_find; [reflexivity|].
  intros o Ho. apply Hn. unfold nbrs. set_solver.
Qed.

End Steps.

(** *** One step keeps the invariant *)

Section StepInvariant.
Implicit Types (v : Vectorizer) (rc d : cell).

Lemma cnt_dec rc v c :
  cnt (dec rc v) c = if decide (c = rc) then cnt v rc - 1 else cnt v c.
Proof.
  destruct c as [r c], rc as [r0 c0]. unfold cnt, dec. cbn.
  destruct (Z.eqb_spec r r0) as [->|Hr]; cbn.
  - destruct (Z.eqb_spec c c0) as [->|Hc].
    + by rewrite decide_True.
    + rewrite decide_False; [reflexivity | congruence].
  - rewrite decide_False; [reflexivity | congruence].
Qed.

Lemma cnt_dec_same rc v : cnt (dec rc v) rc = cnt v rc - 1.
Proof. rewrite cnt_dec. by rewrite decide_True. Qed.

Lemma cnt_dec_other rc v c : c <> rc -> cnt (dec rc v) c = cnt v c.
Proof. intros H. rewrite cnt_dec. by rewrite decide_False. Qed.

Lemma elem_of_seen_mark a b v x d :
  d ∈ seen_of (connections_seen (mark a b v)) x <->
  d ∈ seen_of (connections_seen v) x \/ (x = a /\ d = b) \/ (x = b /\ d = a).
Proof.
  unfold mark, seen_of. cbn.
  destruct (decide (x = b)) as [->|Hb].
  - rewrite lookup_insert_eq. cbn.
    destruct (decide (b = a)) as [->|Ha].
    + rewrite lookup_insert_eq. cbn. set_solver.
    + rewrite lookup_insert_ne by congruence. set_solver.
  - rewrite lookup_insert_ne by congruence.
    destruct (decide (x = a)) as [->|Ha].
    + rewrite lookup_insert_eq. cbn. set_solver.
    + rewrite lookup_insert_ne by congruence. set_solver.
Qed.

Lemma untraced_mark_end g a b v :
  a <> b -> is_mask g b = true -> b ∈ nbrs a ->
  b ∉ seen_of (connections_seen v) a ->
  untraced g (connections_seen (mark a b v)) a + 1 = untraced g (connections_seen v) a.
Proof.
  intros Hne Hb Hin Hopen. unfold untraced, open_nbrs.
  rewrite <- (filter_length_drop
    (fun d => is_mask g d = true /\ d ∉ seen_of (connections_seen v) a)
    (fun d => is_mask g d = true /\ d ∉ seen_of (connections_seen (mark a b v)) a)
    (nbrs a) b); [lia | apply NoDup_nbrs | assumption | auto |].
  intros y _. rewrite elem_of_seen_mark. split.
  - intros [Hm Hy]. repeat split; [assumption| tauto |]. intros ->. tauto.
  - intros [[Hm Hy] Hyb]. split; [assumption|]. intros [?|[[_ ?]|[? _]]]; congruence.
Qed.

Lemma untraced_mark_end_r g a b v :
  a <> b -> is_mask g a = true -> a ∈ nbrs b ->
  a ∉ seen_of (connections_seen v) b ->
  untraced g (connections_seen (mark a b v)) b + 1 = untraced g (connections_seen v) b.
Proof.
  intros Hne Ha Hin Hopen. unfold untraced, open_nbrs.
  rewrite <- (filter_length_drop
    (fun d => is_mask g d = true /\ d ∉ seen_of (connections_seen v) b)
    (fun d => is_mask g d = true /\ d ∉ seen_of (connections_seen (mark a b v)) b)
    (nbrs b) a); [lia | apply NoDup_nbrs | assumption | auto |].
  intros y _. rewrite elem_of_seen_mark. split.
  - intros [Hm Hy]. repeat split; [assumption| tauto |]. intros ->. tauto.
  - intros [[Hm Hy] Hyb]. split; [assumption|]. intros [?|[[? _]|[_ ?]]]; congruence.
Qed.

Lemma untraced_mark_other g a b v x :
  x <> a -> x <> b ->
  untraced g (connections_seen (mark a b v)) x = untraced g (connections_seen v) x.
Proof.
  intros Ha Hb. unfold untraced, open_nbrs. f_equal. apply filter_length_ext_in.
  intros y _. rewrite elem_of_seen_mark. split.
  - intros [Hm Hy]. split; [assumption | tauto].
  - intros [Hm Hy]. split; [assumption|]. intros [?|[[? _]|[? _]]]; congruence.
Qed.

(** Under the invariant, the neighbours that pass the test of the loop
    are the open ones. *)
Lemma eligible_open v rc d :
  wf v -> is_mask (clean_embed v) rc = true -> d ∈ nbrs rc ->
  eligible (dec rc v) rc d = true <->
  is_mask (clean_embed v) d = true /\ d ∉ seen_of (connections_seen v) rc.
Proof.
  intros Hwf Hrc Hd. unfold eligible.
  assert (d <> rc) as Hne by (intros ->; by apply nbrs_irrefl in Hd).
  rewrite cnt_dec_other by assumption.
  change (connections_seen (dec rc v)) with (connections_seen v).
  rewrite andb_true_iff, bool_decide_eq_true, Z.ltb_lt.
  assert (in_shape (clean_embed v) d) as Hshape.
  { apply (wf_interior v Hwf) in Hrc. apply elem_of_nbrs in Hd. unfold in_shape. lia. }
  split; intros [H1 H2]; (split; [|assumption]).
  - destruct (is_mask (clean_embed v) d) eqn:E; [reflexivity|].
    rewrite (wf_outside v Hwf d) in H1 by assumption. lia.
  - assert (1 <= untraced (clean_embed v) (connections_seen v) d) as Hopen.
    { unfold untraced, open_nbrs.
      assert (rc ∈ filter (fun d0 => is_mask (clean_embed v) d0 = true /\
                 d0 ∉ seen_of (connections_seen v) d) (nbrs d)) as Hin.
      { apply list_elem_of_filter. repeat split; [assumption | | by apply nbrs_sym].
        intros Hs. apply H2. by apply (wf_sym v Hwf). }
      destruct (filter _ (nbrs d)); [by apply elem_of_nil in Hin | cbn; lia]. }
    destruct (wf_count v Hwf d H1) as [->|[_ ?]]; lia.
Qed.

Lemma next_cell_open v rc :
  wf v -> is_mask (clean_embed v) rc = true ->
  next_cell (dec rc v) rc = head (open_nbrs (clean_embed v) (connections_seen v) rc).
Proof.
  intros Hwf Hrc. unfold next_cell, open_nbrs. rewrite find_filter_head. f_equal.
  apply filter_iff_in. intros d Hd. by apply eligible_open.
Qed.

Lemma cnt_after_take rc rc1 v c :
  rc1 <> rc ->
  cnt (after_take rc rc1 (dec rc v)) c =
  if decide (c = rc) then cnt v rc - 1
  else if decide (c = rc1) then cnt v rc1 - 1 else cnt v c.
Proof.
  intros Hne. unfold after_take. rewrite cnt_dec.
  change (cnt (mark rc rc1 (dec rc v))) with (cnt (dec rc v)).
  rewrite !cnt_dec.
  destruct (decide (c = rc1)) as [->|H1].
  - rewrite !decide_False by assumption. reflexivity.
  - reflexivity.
Qed.

(** No neighbour passes the test: every adjacency of the cell is consumed,
    its count was 0 and is now -1. *)
Lemma step_dead_end v rc :
  wf v -> is_mask (clean_embed v) rc = true -> 0 <= cnt v rc ->
  next_cell (dec rc v) rc = None ->
  cnt v rc = 0 /\ wf (dec rc v).
Proof.
  intros Hwf Hrc Hpos Hnext. rewrite next_cell_open in Hnext by assumption.
  assert (untraced (clean_embed v) (connections_seen v) rc = 0) as Hu.
  { unfold untraced. destruct (open_nbrs _ _ rc); [reflexivity | discriminate]. }
  assert (cnt v rc = 0) as Hc by (destruct (wf_count v Hwf rc Hrc) as [?|[? _]]; lia).
  split; [assumption|].
  destruct Hwf. constructor; try assumption.
  - intros c Hs Hm. change (clean_embed (dec rc v)) with (clean_embed v) in *.
    rewrite cnt_dec_other; [auto | intros ->; congruence].
  - intros c Hm. change (connections_seen (dec rc v)) with (connections_seen v).
    change (clean_embed (dec rc v)) with (clean_embed v) in *.
    destruct (decide (c = rc)) as [->|Hne].
    + rewrite cnt_dec_same. right. split; [lia | assumption].
    + rewrite cnt_dec_other by assumption. auto.
Qed.

(** A neighbour passes the test: it is an open mask neighbour, both counts
    were positive, and the invariant holds again once the pair is marked
    and both counts are decremented. *)
Lemma step_take v rc rc1 :
  wf v -> is_mask (clean_embed v) rc = true -> 0 <= cnt v rc ->
  next_cell (dec rc v) rc = Some rc1 ->
  is_mask (clean_embed v) rc1 = true /\ rc1 ∈ nbrs rc /\
  rc1 ∉ seen_of (connections_seen v) rc /\
  1 <= cnt v rc /\ 1 <= cnt v rc1 /\
  cnt v rc = untraced (clean_embed v) (connections_seen v) rc /\
  cnt v rc1 = untraced (clean_embed v) (connections_seen v) rc1 /\
  wf (after_take rc rc1 (dec rc v)).
Proof.
  intros Hwf Hrc Hpos Hnext.
  pose proof Hnext as Hel. unfold next_cell in Hel. apply find_some in Hel as [Hin Hel].
  apply list_elem_of_In in Hin.
  rewrite next_cell_open in Hnext by assumption.
  assert (rc1 ∈ open_nbrs (clean_embed v) (connections_seen v) rc) as Hopen.
  { destruct (open_nbrs _ _ rc) as [|x l]; [discriminate|]. injection Hnext as ->. set_solver. }
  apply list_elem_of_filter in Hopen as [[Hm1 Hns] _].
  assert (rc1 <> rc) as Hne by (intros ->; by apply nbrs_irrefl in Hin).
  assert (1 <= untraced (clean_embed v) (connections_seen v) rc) as Hu.
  { unfold untraced. destruct (open_nbrs _ _ rc); [discriminate | cbn; lia]. }
  assert (cnt v rc = untraced (clean_embed v) (connections_seen v) rc) as Hc
    by (destruct (wf_count v Hwf rc Hrc) as [?|[? _]]; lia).
  assert (0 < cnt v rc1) as Hc1pos.
  { unfold eligible in Hel. apply andb_true_iff in Hel as [Hel _].
    rewrite cnt_dec_other in Hel by assumption. lia. }
  assert (cnt v rc1 = untraced (clean_embed v) (connections_seen v) rc1) as Hc1
    by (destruct (wf_count v Hwf rc1 Hm1) as [?|[? _]]; lia).
  assert (rc ∉ seen_of (connections_seen v) rc1) as Hns'.
  { intros Hs. apply Hns. by apply (wf_sym v Hwf). }
  (split_and!); try assumption; try lia.
  destruct Hwf. constructor; try assumption.
  - intros c Hs Hm. rewrite cnt_after_take by assumption.
    change (clean_embed (after_take rc rc1 (dec rc v))) with (clean_embed v) in *.
    rewrite !decide_False; [auto | intros ->; congruence | intros ->; congruence].
  - intros c Hm. rewrite cnt_after_take by assumption.
    change (clean_embed (after_take rc rc1 (dec rc v))) with (clean_embed v) in *.
    change (connections_seen (after_take rc rc1 (dec rc v)))
      with (connections_seen (mark rc rc1 v)).
    destruct (decide (c = rc)) as [->|Hc_rc].
    + left. rewrite <- (untraced_mark_end (clean_embed v) rc rc1 v) in Hc by auto. lia.
    + destruct (decide (c = rc1)) as [->|Hc_rc1].
      * left.
        rewrite <- (untraced_mark_end_r (clean_embed v) rc rc1 v) in Hc1;
          [lia | auto | assumption | by apply nbrs_sym | assumption].
      * rewrite untraced_mark_other by assumption. auto.
  - intros a b. change (connections_seen (after_take rc rc1 (dec rc v)))
      with (connections_seen (mark rc rc1 v)).
    rewrite !elem_of_seen_mark. intros [?|[[-> ->]|[-> ->]]]; auto.
  - intros a b. change (connections_seen (after_take rc rc1 (dec rc v)))
      with (connections_seen (mark rc rc1 v)).
    change (clean_embed (after_take rc rc1 (dec rc v))) with (clean_embed v).
    rewrite elem_of_seen_mark. intros [?|[[-> ->]|[-> ->]]]; auto.
    + repeat split; assumption.
    + repeat split; [assumption | assumption | by apply nbrs_sym].
Qed.

End StepInvariant.

(** *** Counts and chains along a walk *)

Section Investigate.
Implicit Types (v : Vectorizer) (rc : cell).

Lemma positive_count_nonneg v : 0 <= positive_count v.
Proof.
  unfold positive_count, grid_sum.
  induction (indices (count_grid v)) as [|c l IH]; cbn; [lia|].
  unfold sum_list in *. lia.
Qed.

Lemma positive_count_le v v' :
  nrows (count_grid v') = nrows (count_grid v) ->
  ncols (count_grid v') = ncols (count_grid v) ->
  (forall c, cnt v' c <= cnt v c) -> positive_count v' <= positive_count v.
Proof.
  intros Hr Hc H. apply grid_sum_le; [assumption | assumption |].
  intros c _. specialize (H c). unfold cnt in H. lia.
Qed.

Lemma positive_count_lt v v' c0 :
  nrows (count_grid v') = nrows (count_grid v) ->
  ncols (count_grid v') = ncols (count_grid v) ->
  (forall c, cnt v' c <= cnt v c) ->
  in_shape (count_grid v) c0 -> cnt v' c0 < cnt v c0 -> 0 < cnt v c0 ->
  positive_count v' < positive_count v.
Proof.
  intros Hr Hc H Hin Hlt Hpos. apply (grid_sum_lt _ _ _ c0); try assumption.
  - intros c _. specialize (H c). unfold cnt in H. lia.
  - unfold cnt in *. lia.
Qed.

Lemma mask_in_shape v rc :
  wf v -> is_mask (clean_embed v) rc = true ->
  in_shape (count_grid v) rc /\
  forall d, d ∈ nbrs rc -> in_shape (count_grid v) d /\ in_shape (init_count_grid v) d.
Proof.
  intros Hwf Hm. pose proof (wf_interior v Hwf rc Hm) as Hi.
  unfold in_shape.
  rewrite (wf_rows v Hwf), (wf_cols v Hwf), (wf_init_rows v Hwf), (wf_init_cols v Hwf).
  split; [lia|]. intros d Hd. apply elem_of_nbrs in Hd. lia.
Qed.

Lemma edges_once_pop s base (l : list cell) :
  edges_once s (base ++ pairs l) -> edges_once s (base ++ pairs (removelast l)).
Proof.
  intros H a b. destruct (H a b) as [H1 H2].
  assert (occurrences a b (base ++ pairs (removelast l))
          <= occurrences a b (base ++ pairs l))%nat as Hle.
  { rewrite pairs_removelast, !occurrences_app.
    apply Nat.add_le_mono_l, occurrences_removelast. }
  split; [etrans; eassumption|]. intros H3. apply H2. etrans; eassumption.
Qed.

Lemma edges_once_take v base (l : list cell) rc rc1 :
  last l = Some rc -> rc1 <> rc ->
  rc1 ∉ seen_of (connections_seen v) rc -> rc ∉ seen_of (connections_seen v) rc1 ->
  edges_once (connections_seen v) (base ++ pairs l) ->
  edges_once (connections_seen (mark rc rc1 v)) (base ++ pairs (l ++ [rc1])).
Proof.
  intros Hlast Hne Hns Hns' H a b. destruct (H a b) as [H1 H2].
  rewrite pairs_snoc with (y := rc) by assumption.
  rewrite app_assoc, occurrences_app, occurrences_one, elem_of_seen_mark.
  destruct (decide _) as [[E|E]|Hno].
  - injection E as <- <-.
    assert (occurrences rc rc1 (base ++ pairs l) = 0)%nat as ->.
    { destruct (occurrences rc rc1 (base ++ pairs l)); [reflexivity|].
      exfalso. apply Hns, H2. apply le_n_S, Nat.le_0_l. }
    split; [reflexivity | auto].
  - injection E as <- <-.
    assert (occurrences rc1 rc (base ++ pairs l) = 0)%nat as ->.
    { destruct (occurrences rc1 rc (base ++ pairs l)); [reflexivity|].
      exfalso. apply Hns', H2. apply le_n_S, Nat.le_0_l. }
    split; [reflexivity | auto].
  - rewrite Nat.add_0_r. split; [assumption | auto].
Qed.

Lemma occurrences_app_l a b (p q : list (cell * cell)) :
  (1 <= occurrences a b p)%nat -> (1 <= occurrences a b (p ++ q))%nat.
Proof. rewrite occurrences_app. lia. Qed.

Lemma edges_all_take v base (l : list cell) rc rc1 :
  last l = Some rc ->
  edges_all (connections_seen v) (base ++ pairs l) ->
  edges_all (connections_seen (mark rc rc1 v)) (base ++ pairs (l ++ [rc1])).
Proof.
  intros Hlast H a b. rewrite elem_of_seen_mark.
  rewrite pairs_snoc with (y := rc) by assumption.
  rewrite app_assoc, occurrences_app, occurrences_one.
  intros [Hs|[[-> ->]|[-> ->]]].
  - specialize (H a b Hs). lia.
  - rewrite decide_True by auto. lia.
  - rewrite decide_True by auto. lia.
Qed.

Lemma last_elem_of (l : list cell) rc : last l = Some rc -> rc ∈ l.
Proof.
  intros H. induction l as [|a l IH]; [discriminate|].
  destruct l as [|b l]; [injection H as ->; set_solver|].
  apply list_elem_of_further, IH. exact H.
Qed.

End Investigate.

(** *** [investigate_row_col] returns and keeps the invariant *)

Section InvestigateOk.

Lemma safe_refl v : wf v -> safe v v.
Proof. intros H. split_and!; [assumption | reflexivity | reflexivity | reflexivity]. Qed.

Lemma safe_trans v1 v2 v3 : safe v1 v2 -> safe v2 v3 -> safe v1 v3.
Proof.
  intros (_ & E1 & I1 & L1) (W & E2 & I2 & L2). split_and!; try congruence.
  intros c. etrans; [apply L2 | apply L1].
Qed.

Lemma investigated_safe rc l all v l' v' : investigated rc l all v l' v' -> safe v v'.
Proof. intros []. by split_and!. Qed.

Lemma pop_nonempty (l : list cell) v : l <> [] -> pop l v = Ok (removelast l) v.
Proof. destruct l; [done | reflexivity]. Qed.

Lemma investigate_spec fuel : forall rc l all v,
  wf v -> is_mask (clean_embed v) rc = true -> 0 <= cnt v rc -> l <> [] ->
  run_spec (fun l' v' => investigated rc l all v l' v') (safe v)
    (positive_count v < Z.of_nat fuel)
    (investigate_row_col fuel rc l all v).
Proof.
  induction fuel as [|fuel IH]; intros rc l all v Hwf Hm Hpos Hl.
  { split; [split; [reflexivity | by apply safe_refl]|].
    pose proof (positive_count_nonneg v). lia. }
  destruct (mask_in_shape v rc Hwf Hm) as [Hshape Hnbrs].
  rewrite investigate_unfold by assumption.
  destruct (next_cell (dec rc v) rc) as [rc1|] eqn:Hnext.
  - (* a neighbour is taken *)
    destruct (step_take v rc rc1 Hwf Hm Hpos Hnext)
      as (Hm1 & Hin1 & Hns & Hc & Hc1 & Hu & Hu1 & Hwf2).
    assert (rc1 <> rc) as Hne by (intros ->; by apply nbrs_irrefl in Hin1).
    assert (rc ∉ seen_of (connections_seen v) rc1) as Hns'.
    { intros Hs. apply Hns. by apply (wf_sym v Hwf). }
    set (v2 := after_take rc rc1 (dec rc v)) in *.
    assert (forall c, cnt v2 c <= cnt v c) as Hle2.
    { intros c. subst v2. rewrite cnt_after_take by assumption.
      repeat case_decide; subst; lia. }
    assert (investigated rc l all v (l ++ [rc1]) v2) as Hstop.
    { constructor; try reflexivity; try assumption.
      - subst v2. rewrite cnt_after_take by assumption. rewrite decide_True by reflexivity. lia.
      - intros _ c Hc_ne Hc0. subst v2. rewrite cnt_after_take by assumption.
        rewrite decide_False by assumption. case_decide; subst; lia.
      - right. split; [lia | eauto].
      - intros base Hlast Honce.
        change (connections_seen v2) with (connections_seen (mark rc rc1 v)).
        by apply edges_once_take.
      - intros _ base -> Hbase.
        change (connections_seen v2) with (connections_seen (mark rc rc1 v)).
        apply edges_all_take; [reflexivity|].
        change (pairs [rc]) with (@nil (cell * cell)). by rewrite app_nil_r. }
    unfold take. fold v2.
    change (init_cnt (dec rc v) rc1) with (init_cnt v rc1).
    destruct ((init_cnt v rc1 =? 1) && negb all); [split; eauto|].
    destruct ((init_cnt v rc1 =? 2) && negb all) eqn:Hrec; [|split; eauto].
    apply andb_true_iff in Hrec as [_ Hall]. apply negb_true_iff in Hall. subst all.
    assert (cnt v2 rc1 = cnt v rc1 - 1) as Hc21.
    { subst v2. rewrite cnt_after_take by assumption.
      by rewrite decide_False, decide_True. }
    destruct (IH rc1 (l ++ [rc1]) false v2) as [Hres Htotal];
      [assumption | assumption | lia | by destruct l |].
    split.
    + destruct (investigate_row_col fuel rc1 (l ++ [rc1]) false v2) as [l' v'|e v'].
      * destruct Hres. destruct Hstop.
        constructor; try assumption; try congruence.
        -- intros c. etrans; [apply inv_le0 | apply Hle2].
        -- eapply Z.le_lt_trans; [apply inv_le0 | assumption].
        -- right. split; [lia|].
           destruct inv_chain0 as [(_ & -> & _)|(_ & ext & ->)].
           ++ exists []. rewrite removelast_last, app_nil_r. reflexivity.
           ++ exists ([rc1] ++ ext). by rewrite app_assoc.
        -- intros base Hlast Honce. apply inv_once0; [apply last_snoc|].
           by apply inv_once1.
      * destruct Hres as [-> Hsafe]. split; [reflexivity|].
        eapply safe_trans; [|exact Hsafe]. by eapply investigated_safe.
    + intros Hfuel. apply Htotal.
      assert (positive_count v2 < positive_count v); [|lia].
      destruct (Hnbrs rc1 Hin1) as [Hs1 _].
      apply (positive_count_lt v v2 rc1); try reflexivity; try assumption; lia.
  - (* no neighbour: the chain is popped *)
    destruct (step_dead_end v rc Hwf Hm Hpos Hnext) as [Hc0 Hwf1].
    rewrite pop_nonempty by assumption.
    split; [|eauto].
    constructor; try reflexivity; try assumption.
    + intros c. rewrite cnt_dec. case_decide; subst; lia.
    + rewrite cnt_dec_same. lia.
    + intros _ c Hne Hc. by rewrite cnt_dec_other.
    + left. auto.
    + intros base _ Honce. by apply edges_once_pop.
    + intros _ base -> Hbase.
      change (pairs (removelast [rc])) with (@nil (cell * cell)). by rewrite app_nil_r.
Qed.

End InvestigateOk.

(** *** Open adjacencies *)

Section Untraced.
Implicit Types (v : Vectorizer) (rc : cell) (g : ndarray Z) (s : gmap cell (gset cell)).

Lemma filter_and_length_le {A} (P Q : A -> Prop) `{!forall x, Decision (P x)}
    `{!forall x, Decision (Q x)} (l : list A) :
  (length (filter (fun x => P x /\ Q x) l) <= length (filter P l))%nat.
Proof.
  induction l as [|z l IH]; [reflexivity|]. rewrite !filter_cons.
  destruct (decide (P z /\ Q z)) as [[? ?]|?]; destruct (decide (P z)); cbn; try tauto; lia.
Qed.

Lemma filter_and_length_full {A} (P Q : A -> Prop) `{!forall x, Decision (P x)}
    `{!forall x, Decision (Q x)} (l : list A) :
  length (filter (fun x => P x /\ Q x) l) = length (filter P l) ->
  forall x, x ∈ l -> P x -> Q x.
Proof.
  induction l as [|y l IH]; intros Hlen x Hin HP; [by apply elem_of_nil in Hin|].
  rewrite !filter_cons in Hlen.
  pose proof (filter_and_length_le P Q l) as Hle.
  destruct (decide (P y /\ Q y)) as [[Hp Hq]|Hn]; destruct (decide (P y)) as [Hp'|Hp'];
    cbn in Hlen; try tauto.
  - apply elem_of_cons in Hin as [->|Hin]; [assumption|].
    apply IH; [lia | assumption | assumption].
  - lia.
  - apply elem_of_cons in Hin as [->|Hin]; [contradiction|]. by apply IH.
Qed.

Lemma untraced_nonneg g s rc : 0 <= untraced g s rc.
Proof. unfold untraced. lia. Qed.

Lemma open_nbr_spec g s rc d :
  d ∈ open_nbrs g s rc <-> d ∈ nbrs rc /\ is_mask g d = true /\ d ∉ seen_of s rc.
Proof. unfold open_nbrs. rewrite list_elem_of_filter. tauto. Qed.

Lemma untraced_zero g s rc d :
  untraced g s rc = 0 -> d ∈ nbrs rc -> is_mask g d = true -> d ∈ seen_of s rc.
Proof.
  unfold untraced. intros Hz Hd Hm.
  destruct (decide (d ∈ seen_of s rc)) as [|Hn]; [assumption|].
  assert (d ∈ open_nbrs g s rc) as Hin by (by apply open_nbr_spec).
  destruct (open_nbrs g s rc); [by apply elem_of_nil in Hin | discriminate].
Qed.

Lemma untraced_one g s rc d d' :
  untraced g s rc = 1 -> d ∈ open_nbrs g s rc -> d' ∈ open_nbrs g s rc -> d = d'.
Proof.
  unfold untraced. intros H1 Hd Hd'.
  destruct (open_nbrs g s rc) as [|x [|y l]]; cbn in H1; try lia.
  apply list_elem_of_singleton in Hd, Hd'. congruence.
Qed.

Lemma untraced_full g s rc d :
  untraced g s rc = degree g rc -> (forall d, d ∈ seen_of s rc -> adjacent g rc d) ->
  d ∉ seen_of s rc.
Proof.
  unfold untraced, degree, open_nbrs, mask_nbrs. intros Hlen Hadj Hd.
  destruct (Hadj d Hd) as (_ & Hm & Hin).
  apply (filter_and_length_full (fun d => is_mask g d = true)
           (fun d => d ∉ seen_of s rc) (nbrs rc)) in Hin; [contradiction | lia | assumption].
Qed.

Lemma init_cnt_degree v rc :
  wf v -> is_mask (clean_embed v) rc = true -> init_cnt v rc = degree (clean_embed v) rc.
Proof.
  intros Hwf Hm. rewrite (wf_init v Hwf), Hm; [reflexivity|].
  pose proof (wf_interior v Hwf rc Hm). unfold in_shape. lia.
Qed.

(** In a connected mask, a set of mask cells that contains a mask cell and
    all mask neighbours of its cells contains every mask cell. *)
Lemma closed_set_is_all g (l : list cell) x c :
  connected g -> x ∈ l -> is_mask g x = true ->
  (forall a b, a ∈ l -> adjacent g a b -> b ∈ l) ->
  is_mask g c = true -> c ∈ l.
Proof.
  intros Hconn Hx Hmx Hclosed Hc.
  specialize (Hconn x c Hmx Hc).
  induction Hconn as [|a b c' Hab _ IH]; [assumption|].
  apply IH; [by eapply Hclosed | by destruct Hab as (_ & ? & _) | assumption].
Qed.

End Untraced.

(** *** A walk does not close on a mask that is not a closed loop *)

Section Exact.
Implicit Types (v : Vectorizer) (rc : cell).

(** A walk through cells with two neighbours cannot come back to its start
    unless the mask is a closed loop. *)
Lemma walk_does_not_close v (l : list cell) rc X :
  wf v -> connected (clean_embed v) -> not_a_loop (clean_embed v) ->
  last l = Some rc -> rc <> X ->
  walk_guard v l rc (Some X) ->
  untraced (clean_embed v) (connections_seen v) rc = 1 ->
  X ∈ nbrs rc -> X ∉ seen_of (connections_seen v) rc ->
  False.
Proof.
  intros Hwf Hconn (c0 & Hm0 & Hd0) Hlast Hne Hguard Hu Hin Hns.
  destruct (Hguard X eq_refl) as (HX & _ & HuX & Hcells).
  specialize (HuX Hne).
  pose proof (last_elem_of l rc Hlast) as Hrc.
  destruct (Hcells X HX) as (HmX & _ & _ & _).
  destruct (Hcells rc Hrc) as (Hmrc & _ & _ & _).
  assert (forall a b, a ∈ l -> adjacent (clean_embed v) a b -> b ∈ l) as Hclosed.
  { intros a b Ha (_ & Hmb & Hb).
    destruct (Hcells a Ha) as (Hma & _ & Hseen & Hzero).
    destruct (decide (b ∈ seen_of (connections_seen v) a)) as [Hs|Hs]; [by apply Hseen|].
    assert (b ∈ open_nbrs (clean_embed v) (connections_seen v) a) as Hopen
      by (by apply open_nbr_spec).
    destruct (decide (a = rc)) as [->|Har].
    - assert (b = X) as ->; [|assumption].
      eapply untraced_one; [exact Hu | exact Hopen | by apply open_nbr_spec].
    - destruct (decide (a = X)) as [->|HaX].
      + assert (b = rc) as ->; [|assumption].
        eapply untraced_one; [exact HuX | exact Hopen |].
        apply open_nbr_spec. split_and!; [by apply nbrs_sym | assumption |].
        intros Hs'. apply Hns. by apply (wf_sym v Hwf).
      + exfalso. apply Hs. eapply untraced_zero; [by apply Hzero | assumption | assumption]. }
  assert (c0 ∈ l) as Hc0 by (by eapply closed_set_is_all).
  destruct (Hcells c0 Hc0) as (_ & Hdeg & _). contradiction.
Qed.

End Exact.

(** *** Every consumed adjacency is in the chain *)

Section ExactWalk.
Implicit Types (v : Vectorizer) (rc : cell).

Lemma investigate_exact fuel : forall rc l v start base l' v',
  wf v -> is_mask (clean_embed v) rc = true -> 1 <= cnt v rc -> last l = Some rc ->
  connected (clean_embed v) -> not_a_loop (clean_embed v) ->
  through_cells_whole v (excepted rc start) ->
  (degree (clean_embed v) rc = 2 -> start <> Some rc ->
   untraced (clean_embed v) (connections_seen v) rc = 1) ->
  walk_guard v l rc start ->
  edges_all (connections_seen v) (base ++ pairs l) ->
  investigate_row_col fuel rc l false v = Ok l' v' ->
  exact_after start base l' v'.
Proof.
  induction fuel as [|fuel IH];
    intros rc l v start base l' v' Hwf Hm Hpos Hlast Hconn Hnl Hwhole Hrc1 Hguard Hall Hrun;
    [discriminate|].
  destruct (mask_in_shape v rc Hwf Hm) as [Hshape Hnbrs].
  rewrite investigate_unfold in Hrun by assumption.
  destruct (next_cell (dec rc v) rc) as [rc1|] eqn:Hnext.
  2: { destruct (step_dead_end v rc Hwf Hm) as [Hc0 _]; [lia | assumption | lia]. }
  destruct (step_take v rc rc1 Hwf Hm) as (Hm1 & Hin1 & Hns & _ & Hc1 & Hu & Hu1 & Hwf2);
    [lia | assumption |].
  assert (rc1 <> rc) as Hne by (intros ->; by apply nbrs_irrefl in Hin1).
  assert (rc ∉ seen_of (connections_seen v) rc1) as Hns'.
  { intros Hs. apply Hns. by apply (wf_sym v Hwf). }
  set (v2 := after_take rc rc1 (dec rc v)) in *.
  assert (connections_seen v2 = connections_seen (mark rc rc1 v)) as Hs2 by reflexivity.
  assert (clean_embed v2 = (clean_embed v)) as HG2 by reflexivity.
  (* the open adjacencies after the step *)
  assert (untraced (clean_embed v) (connections_seen v2) rc + 1 = untraced (clean_embed v) (connections_seen v) rc) as Hu_rc.
  { rewrite Hs2. apply untraced_mark_end; auto. }
  assert (untraced (clean_embed v) (connections_seen v2) rc1 + 1 = untraced (clean_embed v) (connections_seen v) rc1) as Hu_rc1.
  { rewrite Hs2. apply untraced_mark_end_r; auto. by apply nbrs_sym. }
  assert (forall c, c <> rc -> c <> rc1 ->
            untraced (clean_embed v) (connections_seen v2) c = untraced (clean_embed v) (connections_seen v) c) as Hu_other.
  { intros c ? ?. rewrite Hs2. by apply untraced_mark_other. }
  assert (edges_all (connections_seen v2) (base ++ pairs (l ++ [rc1]))) as Hall2.
  { rewrite Hs2. by apply edges_all_take. }
  assert (init_cnt v rc1 = degree (clean_embed v) rc1) as Hinit by (by apply init_cnt_degree).
  pose proof (last_elem_of l rc Hlast) as Hrc_l.
  (* the state after the step when the walk stops there *)
  assert (init_cnt v rc1 <> 2 -> exact_after start base (l ++ [rc1]) v2) as Hstop.
  { intros Hnot2.
    assert (start <> Some rc1) as Hstart1.
    { intros E. destruct (Hguard rc1 E) as (H1 & _ & _ & Hcells).
      destruct (Hcells rc1 H1) as (_ & Hd & _). lia. }
    constructor; [| exact Hall2 |].
    - intros c Hmc Hdc Hex. rewrite HG2 in *.
      destruct (decide (c = rc)) as [->|Hc_rc].
      + left. rewrite Hrc1 in Hu_rc; [lia | assumption |].
        intros E. apply Hex. rewrite E. set_solver.
      + destruct (decide (c = rc1)) as [->|Hc_rc1]; [lia|].
        rewrite Hu_other by assumption. apply Hwhole; [assumption | assumption |].
        unfold excepted. set_solver.
    - intros X E. rewrite HG2. destruct (Hguard X E) as (_ & H2 & H1 & _).
      destruct (decide (rc = X)) as [<-|HrcX].
      + specialize (H2 eq_refl). lia.
      + rewrite Hu_other; [auto | congruence | congruence]. }
  unfold take in Hrun. fold v2 in Hrun.
  change (init_cnt (dec rc v) rc1) with (init_cnt v rc1) in Hrun.
  rewrite !andb_true_r in Hrun.
  destruct (Z.eqb_spec (init_cnt v rc1) 1) as [E1|_].
  { injection Hrun as <- <-. apply Hstop. lia. }
  destruct (Z.eqb_spec (init_cnt v rc1) 2) as [E2|N2].
  2: { injection Hrun as <- <-. by apply Hstop. }
  (* the walk goes on through a cell with two neighbours *)
  assert (degree (clean_embed v) rc1 = 2) as Hd1 by lia.
  assert (start <> Some rc1) as Hstart1.
  { intros E.
    assert (rc <> rc1) as Hrc_ne by congruence.
    assert (walk_guard v l rc (Some rc1)) as Hguard' by (by rewrite <- E).
    apply (walk_does_not_close v l rc rc1); try assumption.
    apply Hrc1; [|congruence].
    destruct (Hguard rc1 E) as (_ & _ & _ & Hcells).
    by destruct (Hcells rc Hrc_l) as (_ & ? & _). }
  assert (untraced (clean_embed v) (connections_seen v) rc1 = 2) as Hu1_2.
  { destruct (Hwhole rc1 Hm1 Hd1) as [?|?]; [|lia|assumption].
    unfold excepted. rewrite elem_of_cons. intros [?|Hin]; [congruence|].
    destruct start as [X|]; cbn in Hin; [|by apply elem_of_nil in Hin].
    apply list_elem_of_singleton in Hin. congruence. }
  assert (cnt v2 rc1 = 1) as Hc21.
  { subst v2. rewrite cnt_after_take by assumption.
    rewrite decide_False, decide_True by done. lia. }
  eapply (IH rc1 (l ++ [rc1]) v2 start base l' v'); try eassumption.
  - lia.
  - apply last_snoc.
  - (* through cells away from rc1 and the start *)
    intros c Hmc Hdc Hex. rewrite HG2 in *.
    destruct (decide (c = rc)) as [->|Hc_rc].
    + left. rewrite Hrc1 in Hu_rc; [lia | assumption |].
      intros E. apply Hex. unfold excepted. rewrite E. set_solver.
    + rewrite Hu_other; [|assumption|intros ->; apply Hex; unfold excepted; set_solver].
      apply Hwhole; [assumption | assumption |].
      unfold excepted in *. set_solver.
  - intros _ _. rewrite HG2. lia.
  - (* the guard of the walk *)
    intros X E. destruct (Hguard X E) as (HX & H2 & H1 & Hcells).
    rewrite HG2. split_and!.
    + set_solver.
    + intros ->. congruence.
    + intros _. destruct (decide (rc = X)) as [<-|HrcX].
      * specialize (H2 eq_refl). lia.
      * rewrite Hu_other; [auto | congruence | congruence].
    + intros c Hc. apply elem_of_app in Hc as [Hc|Hc].
      * destruct (Hcells c Hc) as (Hmc & Hdc & Hseen & Hzero).
        split_and!; try assumption.
        -- intros d. rewrite Hs2, elem_of_seen_mark.
           intros [Hd|[[_ ->]|[_ ->]]]; [apply elem_of_app; left; by apply Hseen | set_solver | set_solver].
        -- intros Hc1' HcX. destruct (decide (c = rc)) as [->|Hc_rc].
           ++ rewrite Hrc1 in Hu_rc; [lia | assumption | congruence].
           ++ rewrite Hu_other by assumption. by apply Hzero.
      * apply list_elem_of_singleton in Hc as ->.
        split_and!; try assumption; [|done].
        intros d. rewrite Hs2, elem_of_seen_mark.
        intros [Hd|[[_ ->]|[_ ->]]]; [|set_solver|set_solver].
        exfalso. eapply (untraced_full (clean_embed v) (connections_seen v) rc1 d); [lia | apply (wf_adj v Hwf) | exact Hd].
Qed.

End ExactWalk.

(** *** Composing runs *)

Section RunSpec.
Context {A B : Type}.

Lemma run_spec_bind (m : M Vectorizer A) (k : A -> M Vectorizer B) v
    (P : A -> Vectorizer -> Prop) (Q : B -> Vectorizer -> Prop) cut (E : Prop) :
  run_spec P cut E (m v) ->
  (forall a v1, m v = Ok a v1 -> P a v1 -> run_spec Q cut E (k a v1)) ->
  run_spec Q cut E (bind m k v).
Proof.
  intros [Hm Hen] Hk. unfold bind. destruct (m v) as [a v1|e v1] eqn:Em.
  - by apply Hk.
  - split; [exact Hm|]. intros HE. by destruct (Hen HE) as (a & v' & [=]).
Qed.

Lemma run_spec_weaken (P P' : A -> Vectorizer -> Prop) (cut cut' : Vectorizer -> Prop)
    (E E' : Prop) (r : result Vectorizer A) :
  run_spec P cut E r ->
  (forall a v, P a v -> P' a v) -> (forall v, cut v -> cut' v) -> (E' -> E) ->
  run_spec P' cut' E' r.
Proof.
  intros [Hr Hen] HP Hcut HE. split; [|auto].
  destruct r; [auto | destruct Hr; auto].
Qed.

Lemma run_spec_Ok (P : A -> Vectorizer -> Prop) cut (E : Prop) a v :
  P a v -> run_spec P cut E (Ok a v).
Proof. intros H. split; [exact H | eauto]. Qed.

End RunSpec.

(** *** The passes of [make_all_simple_linestrings] *)

Section TopLevel.
Implicit Types (v : Vectorizer) (rc : cell) (l : list cell).

Lemma wf_set_line_strings ls v : wf v -> wf (set_line_strings ls v).
Proof. intros []. by constructor. Qed.

Lemma safe_set_line_strings ls v v' : safe v v' -> safe v (set_line_strings ls v').
Proof. intros (W & ? & ? & ?). split_and!; try assumption. by apply wf_set_line_strings. Qed.

Lemma all_pairs_snoc (ls : list (list cell)) l : all_pairs (ls ++ [l]) = all_pairs ls ++ pairs l.
Proof. unfold all_pairs. rewrite bind_app. cbn. by rewrite app_nil_r. Qed.

Lemma positive_is_mask v rc :
  wf v -> in_shape (count_grid v) rc -> 0 < cnt v rc -> is_mask (clean_embed v) rc = true.
Proof.
  intros Hwf Hin Hpos. destruct (is_mask (clean_embed v) rc) eqn:Hm; [reflexivity|].
  rewrite (wf_outside v Hwf rc) in Hpos; [lia | | assumption].
  unfold in_shape in *. by rewrite <- (wf_rows v Hwf), <- (wf_cols v Hwf).
Qed.

Lemma safe_positive_count v v' : wf v -> safe v v' -> positive_count v' <= positive_count v.
Proof.
  intros Hwf (Hwf' & He & _ & Hle). apply positive_count_le; [| |assumption].
  - by rewrite (wf_rows v' Hwf'), (wf_rows v Hwf), He.
  - by rewrite (wf_cols v' Hwf'), (wf_cols v Hwf), He.
Qed.

Lemma safe_in_shape v v' rc :
  wf v -> safe v v' -> in_shape (count_grid v) rc -> in_shape (count_grid v') rc.
Proof.
  intros Hwf (Hwf' & He & _ & _). unfold in_shape.
  by rewrite (wf_rows v' Hwf'), (wf_rows v Hwf), (wf_cols v' Hwf'), (wf_cols v Hwf), He.
Qed.

Lemma investigated_positive_count rc l all v l' v' :
  wf v -> in_shape (count_grid v) rc -> 1 <= cnt v rc ->
  investigated rc l all v l' v' -> positive_count v' < positive_count v.
Proof.
  intros Hwf Hin Hpos Hi. pose proof (investigated_safe _ _ _ _ _ _ Hi) as (Hwf' & He & _ & Hle).
  apply (positive_count_lt v v' rc); try assumption; [| | by destruct Hi | lia].
  - by rewrite (wf_rows v' Hwf'), (wf_rows v Hwf), He.
  - by rewrite (wf_cols v' Hwf'), (wf_cols v Hwf), He.
Qed.

(** A walk from a cell whose count is 1. *)
Lemma top_inv_endpoint fuel rc v l' v' :
  top_inv true v -> is_mask (clean_embed v) rc = true -> cnt v rc = 1 ->
  investigate_row_col fuel rc [rc] false v = Ok l' v' ->
  top_inv true (set_line_strings (line_strings v' ++ [l']) v').
Proof.
  intros (Hwf & Honce & Hexact) Hm Hc Hrun.
  destruct (investigate_spec fuel rc [rc] false v) as [Hi _]; [done | done | lia | done |].
  rewrite Hrun in Hi. split_and!.
  - apply wf_set_line_strings. by destruct Hi.
  - cbn. rewrite all_pairs_snoc, (inv_lines _ _ _ _ _ _ Hi).
    apply (inv_once _ _ _ _ _ _ Hi); [reflexivity|].
    change (pairs [rc]) with (@nil (cell * cell)). by rewrite app_nil_r.
  - cbn [clean_embed set_line_strings]. rewrite (inv_embed _ _ _ _ _ _ Hi). intros Hconn Hnl.
    destruct (Hexact Hconn Hnl) as [Hall Hwhole]. specialize (Hwhole eq_refl).
    destruct (investigate_exact fuel rc [rc] v None (all_pairs (line_strings v)) l' v')
      as [Hw Ha _]; try assumption; try reflexivity.
    + lia.
    + intros c ? ? Hex. apply Hwhole; try assumption. set_solver.
    + intros _ _. destruct (wf_count v Hwf rc Hm) as [<-|[? _]]; lia.
    + intros X [=].
    + change (pairs [rc]) with (@nil (cell * cell)). by rewrite app_nil_r.
    + split.
      * cbn. by rewrite all_pairs_snoc, (inv_lines _ _ _ _ _ _ Hi).
      * intros _. exact Hw.
Qed.

(** The loop of [make_all_linestrings_starting_at_1] keeps the invariant;
    when its first cell has count 1, the sum of the positive counts
    decreases. *)
Lemma starting_at_1_loop_spec fuel : forall cells v,
  top_inv true v -> (forall c, c ∈ cells -> in_shape (count_grid v) c) ->
  run_spec (fun _ v' => top_inv true v' /\ safe v v' /\
              (forall rc rest, cells = rc :: rest -> cnt v rc = 1 ->
                 positive_count v' < positive_count v))
    (safe v) (positive_count v < Z.of_nat fuel)
    (starting_at_1_loop fuel false cells v).
Proof.
  induction cells as [|rc rest IH]; intros v Htop Hin.
  { apply run_spec_Ok. split_and!; [done | apply safe_refl; by destruct Htop | done]. }
  pose proof Htop as (Hwf & _).
  cbn [starting_at_1_loop].
  assert (in_shape (count_grid v) rc) as Hrc by (apply Hin; set_solver).
  unfold bind at 1. rewrite read_count_in_shape by assumption.
  destruct (Z.eqb_spec (cnt v rc) 1) as [Hc|Hc].
  - assert (is_mask (clean_embed v) rc = true) as Hm by (apply positive_is_mask; [done | done | lia]).
    unfold bind at 1. unfold bind at 1.
    pose proof (investigate_spec fuel rc [rc] false v Hwf Hm ltac:(lia) ltac:(done)) as [Hi Hen].
    destruct (investigate_row_col fuel rc [rc] false v) as [l' v1|e v1] eqn:Hrun.
    + unfold append_line_string, modify.
      set (v2 := set_line_strings (line_strings v1 ++ [l']) v1).
      assert (top_inv true v2) as Htop2 by (by eapply top_inv_endpoint).
      assert (safe v v2) as Hs2 by (by eapply safe_set_line_strings, investigated_safe).
      assert (positive_count v2 < positive_count v) as Hlt.
      { change (positive_count v2) with (positive_count v1).
        eapply investigated_positive_count; [done | done | lia | exact Hi]. }
      eapply run_spec_weaken; [apply (IH v2 Htop2)| | |].
      * intros c Hc'. apply (safe_in_shape v v2); [done | done |]. apply Hin. set_solver.
      * intros _ v' (Htop' & Hs' & _). split_and!; [done | by eapply safe_trans |].
        intros ? ? _ _. pose proof (safe_positive_count v2 v' ltac:(by destruct Htop2) Hs'). lia.
      * intros v' Hs'. by eapply safe_trans.
      * lia.
    + destruct Hi as [-> Hs]. split; [done|].
      intros HE. by destruct (Hen HE) as (? & ? & [=]).
  - unfold bind at 1. unfold ret at 1.
    eapply run_spec_weaken; [apply (IH v Htop)| | |].
    + intros c Hc'. apply Hin. set_solver.
    + intros _ v' (Htop' & Hs' & _). split_and!; [done | done |].
      intros ? ? [= <- <-] ?. lia.
    + done.
    + done.
Qed.

Lemma any_true_argwhere {A} (p q : A -> bool) (g : ndarray A) :
  (forall x, p x = true -> q x = true) ->
  any p g = true -> exists rc rest, argwhere q g = rc :: rest.
Proof.
  unfold any. intros Hpq H. apply existsb_exists in H as (rc & Hin & Hp).
  assert (rc ∈ argwhere q g) as Hrc.
  { unfold argwhere. apply list_elem_of_filter. split; [by apply Hpq | by apply list_elem_of_In]. }
  destruct (argwhere q g) as [|x rest]; [by apply elem_of_nil in Hrc | eauto].
Qed.

(** The [while] loop around [make_all_linestrings_starting_at_1]. *)
Lemma endpoint_pass_spec fuel : forall v,
  top_inv true v ->
  run_spec (fun _ v' => top_inv true v' /\ safe v v')
    (safe v) (positive_count v + 1 < Z.of_nat fuel)
    (endpoint_pass fuel v).
Proof.
  induction fuel as [|fuel IH]; intros v Htop; pose proof Htop as (Hwf & _).
  { split; [split; [reflexivity | by apply safe_refl]|].
    pose proof (positive_count_nonneg v). lia. }
  cbn [endpoint_pass]. unfold bind at 1. unfold get_state at 1.
  destruct (any (Z.eqb 1) (count_grid v)) eqn:Hany.
  - apply (any_true_argwhere _ (Z.eqb 1)) in Hany as (rc & rest & Hcells); [|done].
    assert (rc ∈ argwhere (Z.eqb 1) (count_grid v)) as Hrc by (rewrite Hcells; set_solver).
    apply elem_of_argwhere in Hrc as [Hin Hone]. apply Z.eqb_eq in Hone.
    eapply run_spec_bind.
    + unfold make_all_linestrings_starting_at_1, bind, get_state.
      eapply run_spec_weaken; [apply (starting_at_1_loop_spec fuel _ v Htop)| | |].
      * intros c Hc. by apply elem_of_argwhere in Hc as [? _].
      * intros a v' H. exact H.
      * done.
      * lia.
    + intros [] v1 _ (Htop1 & Hs1 & Hlt). specialize (Hlt rc rest Hcells (eq_sym Hone)).
      eapply run_spec_weaken; [apply (IH v1 Htop1)| | |].
      * intros _ v' (Htop' & Hs'). split; [done | by eapply safe_trans].
      * intros v' Hs'. by eapply safe_trans.
      * lia.
  - apply run_spec_Ok. split; [done | by apply safe_refl].
Qed.

Lemma occurrences_sym a b x y : occurrences a b [(x, y)] = occurrences a b [(y, x)].
Proof.
  rewrite !occurrences_one. repeat case_decide; try reflexivity; exfalso; naive_solver.
Qed.

Lemma occurrences_rev a b l : occurrences a b (pairs (rev l)) = occurrences a b (pairs l).
Proof.
  induction l as [|x l IH]; [reflexivity|].
  destruct l as [|y l]; [reflexivity|].
  change (rev (x :: y :: l)) with (rev (y :: l) ++ [x]).
  rewrite pairs_snoc with (y := y).
  - rewrite occurrences_app, IH.
    change (pairs (x :: y :: l)) with ([(x, y)] ++ pairs (y :: l)).
    rewrite occurrences_app, (occurrences_sym a b x y). lia.
  - cbn [rev]. apply last_snoc.
Qed.

Lemma edges_once_rev s base l :
  edges_once s (base ++ pairs l) -> edges_once s (base ++ pairs (rev l)).
Proof. intros H a b. rewrite occurrences_app, occurrences_rev, <- occurrences_app. apply H. Qed.

Lemma edges_all_rev s base l :
  edges_all s (base ++ pairs l) -> edges_all s (base ++ pairs (rev l)).
Proof. intros H a b. rewrite occurrences_app, occurrences_rev, <- occurrences_app. apply H. Qed.

Lemma top_inv_chain_inv v : top_inv true v -> chain_inv v [].
Proof.
  intros (Hwf & Honce & Hex). unfold chain_inv.
  change (pairs []) with (@nil (cell * cell)). rewrite app_nil_r.
  split_and!; [done | done |]. intros Hc Hn. destruct (Hex Hc Hn). auto.
Qed.

Lemma pairs_short l : (length l <= 1)%nat -> pairs l = [].
Proof. destruct l as [|x [|y l]]; cbn; [done | done | lia]. Qed.

(** [if len(line_string_list) > 1: self.line_strings.append(line_string_list)] *)
Lemma emit_chain v l :
  chain_inv v l ->
  run_spec (fun _ v' => top_inv true v' /\ safe v v') (safe v) True
    ((if (1 <? length l)%nat then append_line_string l else ret tt) v).
Proof.
  intros (Hwf & Honce & Hex).
  destruct (1 <? length l)%nat eqn:Hlen; apply run_spec_Ok.
  - split; [|by apply safe_set_line_strings, safe_refl].
    split_and!; [by apply wf_set_line_strings | cbn; by rewrite all_pairs_snoc |].
    cbn. rewrite all_pairs_snoc. intros Hc Hn. destruct (Hex Hc Hn). auto.
  - apply Nat.ltb_ge in Hlen. rewrite pairs_short, app_nil_r in * by assumption.
    split; [|by apply safe_refl].
    split_and!; [done | done |]. intros Hc Hn. destruct (Hex Hc Hn). auto.
Qed.

Lemma init_two_mask v rc :
  wf v -> in_shape (count_grid v) rc -> init_cnt v rc = 2 ->
  is_mask (clean_embed v) rc = true /\ degree (clean_embed v) rc = 2.
Proof.
  intros Hwf Hin H2. rewrite (wf_init v Hwf) in H2.
  - destruct (is_mask (clean_embed v) rc); [auto | lia].
  - unfold in_shape in *. by rewrite <- (wf_rows v Hwf), <- (wf_cols v Hwf).
Qed.

Lemma head_last_rev l rc ext : l = [rc] ++ ext -> last (rev l) = Some rc.
Proof. intros ->. cbn [app rev]. apply last_snoc. Qed.

(** The first walk from a cell with two neighbours, both open. *)
Lemma first_walk_exact fuel rc v l1 v1 :
  top_inv true v -> is_mask (clean_embed v) rc = true -> degree (clean_embed v) rc = 2 ->
  1 <= cnt v rc ->
  connected (clean_embed v) -> not_a_loop (clean_embed v) ->
  investigate_row_col fuel rc [rc] false v = Ok l1 v1 ->
  exact_after (Some rc) (all_pairs (line_strings v)) l1 v1.
Proof.
  intros (Hwf & Honce & Hex) Hm Hd Hc Hconn Hnl Hrun.
  destruct (Hex Hconn Hnl) as [Hall Hwhole]. specialize (Hwhole eq_refl).
  assert (untraced (clean_embed v) (connections_seen v) rc = 2) as Hu.
  { destruct (wf_count v Hwf rc Hm) as [E|[? _]]; [|lia].
    destruct (Hwhole rc Hm Hd) as [H0|H2]; [set_solver | lia | done]. }
  eapply (investigate_exact fuel rc [rc] v (Some rc)); try eassumption; try reflexivity.
  - intros c ? ? Hex'. apply Hwhole; try assumption. set_solver.
  - intros _ Hne. by destruct Hne.
  - intros X [= <-]. split_and!; [set_solver | done | done |].
    intros c Hc'. apply list_elem_of_singleton in Hc' as ->.
    split_and!; [done | done | | done].
    intros d Hd'. exfalso. revert Hd'.
    apply (untraced_full (clean_embed v)); [lia | apply (wf_adj v Hwf)].
  - change (pairs [rc]) with (@nil (cell * cell)). by rewrite app_nil_r.
Qed.

(** One iteration of [make_all_linestrings_starting_at_2]: up to two walks
    from the same cell, the second with the chain reversed. *)
Lemma starting_at_2_body_spec fuel rc v :
  top_inv true v -> in_shape (count_grid v) rc -> init_cnt v rc = 2 ->
  run_spec (fun _ v' => top_inv true v' /\ safe v v')
    (safe v) (positive_count v < Z.of_nat fuel)
    (starting_at_2_body fuel rc v).
Proof.
  intros Htop Hin H2. pose proof Htop as (Hwf & Honce & Hex).
  destruct (init_two_mask v rc Hwf Hin H2) as [Hm Hd].
  unfold starting_at_2_body.
  unfold bind at 1. rewrite read_count_in_shape by assumption.
  destruct (Z.ltb_spec 0 (cnt v rc)) as [Hc|Hc].
  - (* the first walk *)
    pose proof (investigate_spec fuel rc [rc] false v Hwf Hm ltac:(lia) ltac:(done)) as [Hi1 Hen1].
    unfold bind at 1.
    destruct (investigate_row_col fuel rc [rc] false v) as [l1 v1|e v1] eqn:Hrun1;
      [|destruct Hi1 as [-> Hs]; split; [done|];
        intros HE; by destruct (Hen1 HE) as (? & ? & [=])].
    pose proof (investigated_safe _ _ _ _ _ _ Hi1) as Hs1.
    pose proof Hs1 as (Hwf1 & He1 & Hinit1 & Hle1).
    assert (exists ext, l1 = [rc] ++ ext) as [ext Hl1].
    { destruct (inv_chain _ _ _ _ _ _ Hi1) as [[? _]|[_ ?]]; [lia | done]. }
    assert (edges_once (connections_seen v1) (all_pairs (line_strings v1) ++ pairs l1)) as Honce1.
    { rewrite (inv_lines _ _ _ _ _ _ Hi1). apply (inv_once _ _ _ _ _ _ Hi1); [reflexivity|].
      change (pairs [rc]) with (@nil (cell * cell)). by rewrite app_nil_r. }
    assert (in_shape (count_grid v1) rc) as Hin1 by (by apply (safe_in_shape v v1)).
    unfold bind at 1. rewrite read_count_in_shape by assumption.
    destruct (Z.ltb_spec 0 (cnt v1 rc)) as [Hc1|Hc1].
    + (* the second walk, from the same cell, with the chain reversed *)
      assert (is_mask (clean_embed v1) rc = true) as Hm1 by (by rewrite He1).
      assert (last (rev l1) = Some rc) as Hlast by (by eapply head_last_rev).
      pose proof (investigate_spec fuel rc (rev l1) false v1 Hwf1 Hm1 ltac:(lia)) as [Hi2 Hen2].
      { intros Hnil. rewrite Hnil in Hlast. discriminate. }
      unfold bind at 1.
      destruct (investigate_row_col fuel rc (rev l1) false v1) as [l2 v2|e v2] eqn:Hrun2.
      * pose proof (investigated_safe _ _ _ _ _ _ Hi2) as Hs2.
        eapply run_spec_weaken; [apply (emit_chain v2 l2)| | |].
        -- split_and!.
           ++ by destruct Hi2.
           ++ rewrite (inv_lines _ _ _ _ _ _ Hi2).
              apply (inv_once _ _ _ _ _ _ Hi2); [done|]. by apply edges_once_rev.
           ++ rewrite (inv_embed _ _ _ _ _ _ Hi2), He1. intros Hconn Hnl.
              destruct (first_walk_exact fuel rc v l1 v1) as [Hw1 Ha1 Hst1];
                try assumption; [lia|].
              destruct (investigate_exact fuel rc (rev l1) v1 None
                          (all_pairs (line_strings v1)) l2 v2) as [Hw2 Ha2 _];
                try assumption; try (by rewrite He1).
              ** lia.
              ** intros _ _. by apply Hst1.
              ** intros X [=].
              ** apply edges_all_rev. by rewrite (inv_lines _ _ _ _ _ _ Hi1).
              ** split; [|exact Hw2]. by rewrite (inv_lines _ _ _ _ _ _ Hi2).
        -- intros _ v' [Htop' Hs']. split; [done|].
           eapply safe_trans; [exact Hs1|]. by eapply safe_trans.
        -- intros v' Hs'. eapply safe_trans; [exact Hs1|]. by eapply safe_trans.
        -- done.
      * destruct Hi2 as [-> Hs2]. split; [split; [done | by eapply safe_trans]|].
        intros HE. destruct Hen2 as (? & ? & [=]).
        pose proof (safe_positive_count v v1 Hwf Hs1). lia.
    + (* no second walk *)
      unfold bind at 1. unfold ret at 1.
      eapply run_spec_weaken; [apply (emit_chain v1 l1)| | |].
      * split_and!; [done | done |].
        rewrite He1. intros Hconn Hnl. exfalso.
        destruct (first_walk_exact fuel rc v l1 v1) as [_ _ Hst1]; try assumption; [lia|].
        specialize (Hst1 rc eq_refl).
        destruct (wf_count v1 Hwf1 rc) as [E|[_ E]]; [by rewrite He1 | lia | lia].
      * intros _ v' [Htop' Hs']. split; [done | by eapply safe_trans].
      * intros v' Hs'. by eapply safe_trans.
      * done.
  - (* the count at the start is not positive: nothing is walked *)
    unfold bind at 1. unfold ret at 1.
    unfold bind at 1. rewrite read_count_in_shape by assumption.
    destruct (Z.ltb_spec 0 (cnt v rc)) as [?|_]; [lia|].
    unfold bind at 1. unfold ret at 1.
    eapply run_spec_weaken; [apply (emit_chain v [rc])| | |]; try done.
    by apply top_inv_chain_inv.
Qed.

Lemma starting_at_2_loop_spec fuel : forall cells v,
  top_inv true v ->
  (forall c, c ∈ cells -> in_shape (count_grid v) c /\ init_cnt v c = 2) ->
  run_spec (fun _ v' => top_inv true v' /\ safe v v')
    (safe v) (positive_count v < Z.of_nat fuel)
    (starting_at_2_loop fuel cells v).
Proof.
  induction cells as [|rc rest IH]; intros v Htop Hcells; pose proof Htop as (Hwf & _).
  { apply run_spec_Ok. split; [done | by apply safe_refl]. }
  cbn [starting_at_2_loop].
  destruct (Hcells rc) as [Hin H2]; [set_solver|].
  eapply run_spec_bind; [by apply starting_at_2_body_spec|].
  intros [] v1 _ [Htop1 Hs1].
  eapply run_spec_weaken; [apply (IH v1 Htop1)| | |].
  - intros c Hc. destruct (Hcells c) as [Hin' H2']; [set_solver|].
    split; [by apply (safe_in_shape v v1)|].
    unfold init_cnt in *. destruct Hs1 as (_ & _ & -> & _). done.
  - intros _ v' [Htop' Hs']. split; [done | by eapply safe_trans].
  - intros v' Hs'. by eapply safe_trans.
  - pose proof (safe_positive_count v v1 Hwf Hs1). lia.
Qed.

Lemma make_all_linestrings_starting_at_2_spec fuel v :
  top_inv true v ->
  run_spec (fun _ v' => top_inv true v' /\ safe v v')
    (safe v) (positive_count v < Z.of_nat fuel)
    (make_all_linestrings_starting_at_2 fuel false v).
Proof.
  intros Htop. unfold make_all_linestrings_starting_at_2, bind, get_state.
  apply starting_at_2_loop_spec; [done|].
  intros c Hc. apply list_elem_of_filter in Hc as [H2 Hc].
  apply elem_of_argwhere in Hc as [Hin _]. done.
Qed.

Lemma top_inv_weaken v : top_inv true v -> top_inv false v.
Proof.
  intros (Hwf & Honce & Hex). split_and!; [done | done |].
  intros Hc Hn. destruct (Hex Hc Hn). split; [done | discriminate].
Qed.

(** A walk of [add_remaining]: at most one adjacency is consumed, and it is
    in the emitted chain. *)
Lemma top_inv_remaining rc v l' v' :
  top_inv false v -> investigated rc [rc] true v l' v' ->
  top_inv false (set_line_strings (line_strings v' ++ [l']) v').
Proof.
  intros (Hwf & Honce & Hex) Hi. split_and!.
  - apply wf_set_line_strings. by destruct Hi.
  - cbn. rewrite all_pairs_snoc, (inv_lines _ _ _ _ _ _ Hi).
    apply (inv_once _ _ _ _ _ _ Hi); [reflexivity|].
    change (pairs [rc]) with (@nil (cell * cell)). by rewrite app_nil_r.
  - cbn [clean_embed set_line_strings]. rewrite (inv_embed _ _ _ _ _ _ Hi). intros Hc Hn.
    destruct (Hex Hc Hn) as [Hall _]. split; [|discriminate].
    cbn. rewrite all_pairs_snoc, (inv_lines _ _ _ _ _ _ Hi).
    by apply (inv_all _ _ _ _ _ _ Hi).
Qed.

(** The [for] loop of [add_remaining] runs over a snapshot of the cells
    with a positive count: a cell met later may have lost its count in the
    meantime, but not below 0. *)
Lemma add_remaining_loop_spec fuel : forall cells v,
  top_inv false v -> NoDup cells ->
  (forall c, c ∈ cells -> is_mask (clean_embed v) c = true /\ 0 <= cnt v c) ->
  run_spec (fun _ v' => top_inv false v' /\ safe v v' /\
              (forall rc rest, cells = rc :: rest -> 1 <= cnt v rc ->
                 positive_count v' < positive_count v))
    (safe v) (positive_count v < Z.of_nat fuel)
    (add_remaining_loop fuel cells v).
Proof.
  induction cells as [|rc rest IH]; intros v Htop Hnd Hcells; pose proof Htop as (Hwf & _).
  { apply run_spec_Ok. split_and!; [done | by apply safe_refl | done]. }
  cbn [add_remaining_loop].
  destruct (Hcells rc) as [Hm Hc]; [set_solver|].
  apply NoDup_cons in Hnd as [Hnotin Hnd].
  pose proof (investigate_spec fuel rc [rc] true v Hwf Hm Hc ltac:(done)) as [Hi Hen].
  unfold bind at 1.
  destruct (investigate_row_col fuel rc [rc] true v) as [l' v1|e v1] eqn:Hrun;
    [|destruct Hi as [-> Hs]; split; [done|];
      intros HE; by destruct (Hen HE) as (? & ? & [=])].
  unfold bind at 1. unfold append_line_string, modify.
  set (v2 := set_line_strings (line_strings v1 ++ [l']) v1).
  assert (top_inv false v2) as Htop2 by (by eapply top_inv_remaining).
  assert (safe v v2) as Hs2 by (by eapply safe_set_line_strings, investigated_safe).
  eapply run_spec_weaken; [apply (IH v2 Htop2 Hnd)| | |].
  - intros c Hc'. destruct (Hcells c) as [Hm' Hc0]; [set_solver|]. split.
    + cbn [v2 clean_embed set_line_strings]. by rewrite (inv_embed _ _ _ _ _ _ Hi).
    + change (cnt v2 c) with (cnt v1 c).
      apply (inv_others _ _ _ _ _ _ Hi); [done | | done]. intros ->. contradiction.
  - intros _ v' (Htop' & Hs' & _). split_and!; [done | by eapply safe_trans |].
    intros ? ? [= <- <-] Hpos.
    pose proof (safe_positive_count v2 v' ltac:(by destruct Htop2) Hs').
    assert (positive_count v1 < positive_count v).
    { eapply investigated_positive_count; [done | | done | exact Hi].
      by apply mask_in_shape. }
    change (positive_count v2) with (positive_count v1) in *. lia.
  - intros v' Hs'. by eapply safe_trans.
  - pose proof (safe_positive_count v v2 Hwf Hs2). lia.
Qed.

Lemma NoDup_range lo hi : NoDup (range lo hi).
Proof.
  unfold range. apply NoDup_fmap_2; [|apply NoDup_seq]. intros x y. lia.
Qed.

Lemma NoDup_indices {A} (g : ndarray A) : NoDup (indices g).
Proof.
  unfold indices. apply NoDup_bind; [| |apply NoDup_range].
  - intros r1 r2 rc _ _ H1 H2.
    apply list_elem_of_bind in H1 as (c1 & E1 & _), H2 as (c2 & E2 & _).
    apply list_elem_of_singleton in E1, E2. congruence.
  - intros r _. apply NoDup_bind; [| |apply NoDup_range].
    + intros c1 c2 rc _ _ E1 E2. apply list_elem_of_singleton in E1, E2. congruence.
    + intros c _. apply NoDup_singleton.
Qed.

Lemma NoDup_argwhere {A} (p : A -> bool) (g : ndarray A) : NoDup (argwhere p g).
Proof. apply NoDup_filter, NoDup_indices. Qed.

Lemma any_false {A} (p : A -> bool) (g : ndarray A) rc :
  any p g = false -> in_shape g rc -> p (item g rc.1 rc.2) = false.
Proof.
  unfold any. intros H Hin. destruct (p (item g rc.1 rc.2)) eqn:Hp; [|reflexivity].
  rewrite <- H. symmetry. apply existsb_exists. exists rc. split; [|exact Hp].
  by apply list_elem_of_In, elem_of_indices.
Qed.

(** [add_remaining] returns when no positive count is left. *)
Lemma add_remaining_spec fuel : forall v,
  top_inv false v ->
  run_spec (fun _ v' => top_inv false v' /\ safe v v' /\
              any (fun n => 0 <? n) (count_grid v') = false)
    (safe v) (positive_count v + 1 < Z.of_nat fuel)
    (add_remaining fuel v).
Proof.
  induction fuel as [|fuel IH]; intros v Htop; pose proof Htop as (Hwf & _).
  { split; [split; [reflexivity | by apply safe_refl]|].
    pose proof (positive_count_nonneg v). lia. }
  cbn [add_remaining]. unfold bind at 1. unfold get_state at 1.
  destruct (any (fun n => 0 <? n) (count_grid v)) eqn:Hany.
  - apply (any_true_argwhere _ (fun n => 1 <=? n)) in Hany as (rc & rest & Hcells); [|intros x; lia].
    assert (rc ∈ argwhere (fun n => 1 <=? n) (count_grid v)) as Hrc by (rewrite Hcells; set_solver).
    apply elem_of_argwhere in Hrc as [Hin Hone]. apply Z.leb_le in Hone.
    eapply run_spec_bind.
    + eapply run_spec_weaken;
        [apply (add_remaining_loop_spec fuel _ v Htop (NoDup_argwhere _ _))| | |].
      * intros c Hc. apply elem_of_argwhere in Hc as [Hin' Hc]. apply Z.leb_le in Hc.
        split; [|unfold cnt; lia]. apply positive_is_mask; [done | done | unfold cnt; lia].
      * intros a v' H. exact H.
      * done.
      * lia.
    + intros [] v1 _ (Htop1 & Hs1 & Hlt). specialize (Hlt rc rest Hcells Hone).
      eapply run_spec_weaken; [apply (IH v1 Htop1)| | |].
      * intros _ v' (Htop' & Hs' & Hno). split_and!; [done | by eapply safe_trans | done].
      * intros v' Hs'. by eapply safe_trans.
      * lia.
  - apply run_spec_Ok. split_and!; [done | by apply safe_refl | done].
Qed.

(** The four passes in sequence. *)
Lemma make_all_simple_linestrings_spec fuel v :
  top_inv true v ->
  run_spec (fun _ v' => top_inv false v' /\ safe v v' /\
              any (fun n => 0 <? n) (count_grid v') = false)
    (safe v) (positive_count v + 1 < Z.of_nat fuel)
    (make_all_simple_linestrings fuel v).
Proof.
  intros Htop. pose proof Htop as (Hwf & _). unfold make_all_simple_linestrings.
  eapply run_spec_bind; [by apply endpoint_pass_spec|].
  intros [] v1 _ [Htop1 Hs1]. pose proof (safe_positive_count v v1 Hwf Hs1) as Hp1.
  eapply run_spec_bind.
  { eapply run_spec_weaken; [by apply (make_all_linestrings_starting_at_2_spec fuel v1)| | |].
    - intros a v' H. exact H.
    - intros v' Hs'. by eapply safe_trans.
    - lia. }
  intros [] v2 _ [Htop2 Hs2].
  pose proof (safe_positive_count v1 v2 ltac:(by destruct Htop1) Hs2) as Hp2.
  eapply run_spec_bind.
  { eapply run_spec_weaken; [by apply (endpoint_pass_spec fuel v2)| | |].
    - intros a v' H. exact H.
    - intros v' Hs'. eapply safe_trans; [exact Hs1|]. by eapply safe_trans.
    - lia. }
  intros [] v3 _ [Htop3 Hs3].
  pose proof (safe_positive_count v2 v3 ltac:(by destruct Htop2) Hs3) as Hp3.
  assert (safe v v3) as Hs by (eapply safe_trans; [exact Hs1|]; by eapply safe_trans).
  eapply run_spec_weaken; [apply (add_remaining_spec fuel v3); by apply top_inv_weaken| | |].
  - intros _ v' (Htop' & Hs' & Hno). split_and!; [done | by eapply safe_trans | done].
  - intros v' Hs'. by eapply safe_trans.
  - lia.
Qed.

End TopLevel.

(** *** The count grid built by [__init__] *)

Section Init.
Implicit Types (g : ndarray Z) (rc : cell).

Lemma padded_nonneg thin r c : thin_ok thin -> 0 <= item (padded thin) r c.
Proof.
  intros (_ & _ & Hpos). unfold padded, embed_in_larger, assign_where. cbn [item nrows ncols].
  destruct (_ && _) eqn:E; [|lia].
  destruct (2 =? _); [lia|].
  apply (Hpos (r - 1, c - 1)). unfold in_shape. cbn [fst snd]. lia.
Qed.

Lemma padded_positive thin r c :
  0 < item (padded thin) r c ->
  1 <= r <= nrows (padded thin) - 2 /\ 1 <= c <= ncols (padded thin) - 2.
Proof.
  unfold padded, embed_in_larger, assign_where. cbn [item nrows ncols].
  destruct (_ && _) eqn:E; [|lia]. lia.
Qed.

Lemma is_mask_padded thin rc :
  is_mask (padded thin) rc = (0 <? item (padded thin) rc.1 rc.2).
Proof.
  unfold is_mask. destruct (Z.ltb_spec 0 (item (padded thin) rc.1 rc.2)) as [H|H].
  - rewrite andb_true_r. apply bool_decide_eq_true.
    apply padded_positive in H. unfold in_shape. lia.
  - apply andb_false_r.
Qed.

Lemma binary_padded thin r c :
  thin_ok thin ->
  item (binary (padded thin)) r c = if is_mask (padded thin) (r, c) then 1 else 0.
Proof.
  intros Hok. rewrite is_mask_padded. cbn [fst snd].
  unfold binary, assign_where at 1. cbn [item].
  pose proof (padded_nonneg thin r c Hok).
  destruct (Z.ltb_spec 0 (item (padded thin) r c)); lia.
Qed.

Lemma setitem_in_shape g rc x : in_shape g rc -> setitem g rc x = Some (upd g rc x).
Proof. intros [Hr Hc]. unfold setitem. by rewrite !index_in_range. Qed.

(** The loop of [make_count_8_grid]: the cells of the list get their value,
    the others keep theirs. *)
Lemma fill_spec (f : cell -> Z) : forall (cells : list cell) g0,
  (forall c, c ∈ cells -> in_shape g0 c) ->
  exists g, foldl (fun count_grid rc => g ← count_grid; setitem g rc (f rc)) (Some g0) cells
            = Some g /\
    nrows g = nrows g0 /\ ncols g = ncols g0 /\
    forall rc, item g rc.1 rc.2 = if decide (rc ∈ cells) then f rc else item g0 rc.1 rc.2.
Proof.
  induction cells as [|x cells IH]; intros g0 Hin.
  { exists g0. split_and!; reflexivity. }
  cbn [foldl]. cbn [mbind option_bind]. rewrite setitem_in_shape by (apply Hin; set_solver).
  destruct (IH (upd g0 x (f x))) as (g & Hg & Hr & Hc & Hitem).
  { intros c Hc. unfold in_shape, upd. cbn [nrows ncols]. apply Hin. set_solver. }
  exists g. split_and!; [exact Hg | exact Hr | exact Hc |].
  intros rc. rewrite Hitem. unfold upd. cbn [item].
  destruct (decide (rc ∈ cells)) as [Hrc|Hrc].
  - rewrite decide_True; [done | set_solver].
  - destruct (Z.eqb_spec rc.1 x.1) as [E1|E1], (Z.eqb_spec rc.2 x.2) as [E2|E2]; cbn [andb].
    + assert (rc = x) as -> by (destruct rc, x; cbn in *; congruence).
      rewrite decide_True; [done | set_solver].
    + rewrite decide_False; [done|]. intros [->|?]%elem_of_cons; done.
    + rewrite decide_False; [done|]. intros [->|?]%elem_of_cons; done.
    + rewrite decide_False; [done|]. intros [->|?]%elem_of_cons; done.
Qed.

Lemma length_filter_sum {A} (P : A -> Prop) `{!forall x, Decision (P x)} (l : list A) :
  Z.of_nat (length (filter P l)) = sum_list ((fun x => if decide (P x) then 1 else 0) <$> l).
Proof.
  induction l as [|x l IH]; [reflexivity|].
  rewrite filter_cons. cbn [fmap list_fmap sum_list foldr].
  fold (sum_list ((fun x => if decide (P x) then 1 else 0) <$> l)). rewrite <- IH.
  destruct (decide (P x)); cbn [length]; lia.
Qed.

Lemma range_three a b : b = a + 3 -> range a b = [a; a + 1; a + 2].
Proof.
  intros ->. unfold range. replace (a + 3 - a) with 3 by lia.
  change (Z.to_nat 3) with 3%nat. cbn [seq map].
  change (Z.of_nat 0) with 0. change (Z.of_nat 1) with 1. change (Z.of_nat 2) with 2.
  by rewrite Z.add_0_r.
Qed.

(** The window sum of an interior mask cell counts the cell and its mask
    neighbours. *)
Lemma window_sum_degree thin rc :
  thin_ok thin -> is_mask (padded thin) rc = true ->
  window_sum (binary (padded thin)) rc - 1 = degree (padded thin) rc.
Proof.
  intros Hok Hm. destruct rc as [r c].
  pose proof Hm as Hm'. rewrite is_mask_padded in Hm'. apply Z.ltb_lt in Hm'.
  apply padded_positive in Hm'. cbn [fst snd] in Hm'.
  unfold window_sum, slice, slice_bound. cbn [fst snd].
  change (nrows (binary (padded thin))) with (nrows (padded thin)).
  change (ncols (binary (padded thin))) with (ncols (padded thin)).
  destruct (Z.ltb_spec (r - 1) 0); [lia|]. destruct (Z.ltb_spec (r + 2) 0); [lia|].
  destruct (Z.ltb_spec (c - 1) 0); [lia|]. destruct (Z.ltb_spec (c + 2) 0); [lia|].
  rewrite (Z.min_l (r - 1)), (Z.min_l (r + 2)), (Z.min_l (c - 1)), (Z.min_l (c + 2)) by lia.
  rewrite (range_three (r - 1)) by lia. rewrite (range_three (c - 1)) by lia.
  unfold degree, mask_nbrs. rewrite length_filter_sum.
  unfold nbrs, offsets8, shift. cbn [fmap list_fmap fst snd mbind list_bind app sum_list foldr].
  rewrite !binary_padded by assumption.
  replace (r - 1 + 1) with r by lia. replace (r - 1 + 2) with (r + 1) by lia.
  replace (c - 1 + 1) with c by lia. replace (c - 1 + 2) with (c + 1) by lia.
  replace (r + -1) with (r - 1) by lia. replace (c + -1) with (c - 1) by lia.
  rewrite !Z.add_0_r. rewrite Hm.
  repeat match goal with
  | |- context [decide (is_mask ?g ?x = true)] =>
      destruct (decide (is_mask g x = true)) as [->|?%not_true_is_false]
  end;
  repeat match goal with H : is_mask _ _ = false |- _ => rewrite H; clear H end; lia.
Qed.

Lemma seen_of_empty rc : seen_of ∅ rc = ∅.
Proof. unfold seen_of. by rewrite lookup_empty. Qed.

Lemma untraced_empty g rc : untraced g ∅ rc = degree g rc.
Proof.
  unfold untraced, degree, open_nbrs, mask_nbrs. f_equal. apply filter_length_ext_in.
  intros d _. rewrite seen_of_empty. set_solver.
Qed.

(** The state built by [__init__] satisfies the invariant, with no chain
    emitted and no adjacency consumed. *)
Lemma init_tracer_spec thin :
  thin_ok thin ->
  exists v0, init_tracer thin = Some v0 /\ top_inv true v0 /\
    clean_embed v0 = padded thin /\ line_strings v0 = [].
Proof.
  intros Hok. unfold init_tracer, make_count_8_grid.
  fold (padded thin). fold (binary (padded thin)).
  destruct (fill_spec (fun rc => window_sum (binary (padded thin)) rc - 1)
              (argwhere (Z.eqb 1) (binary (padded thin)))
              (zeros (nrows (binary (padded thin))) (ncols (binary (padded thin)))))
    as (g & -> & Hr & Hc & Hitem).
  { intros c Hc. by apply elem_of_argwhere in Hc as [? _]. }
  eexists. split; [reflexivity|]. split; [|done].
  assert (forall rc, in_shape (padded thin) rc ->
            item g rc.1 rc.2 =
            if is_mask (padded thin) rc then degree (padded thin) rc else 0) as Hcount.
  { intros rc Hin. rewrite Hitem.
    destruct (is_mask (padded thin) rc) eqn:Hm.
    - rewrite decide_True; [by apply window_sum_degree|].
      apply elem_of_argwhere. split; [exact Hin|].
      destruct rc as [r c]. cbn [fst snd]. rewrite binary_padded, Hm by assumption. reflexivity.
    - rewrite decide_False; [reflexivity|].
      intros [_ H1]%elem_of_argwhere. destruct rc as [r c]. cbn [fst snd] in H1.
      rewrite binary_padded, Hm in H1 by assumption. discriminate. }
  assert (wf (mk_Vectorizer (assign_where (Z.eqb 2) 0 thin) (padded thin) g g ∅ [])) as Hwf.
  { constructor; cbn [count_grid clean_embed init_count_grid connections_seen]; try done.
    - intros rc Hm. rewrite is_mask_padded in Hm. apply Z.ltb_lt in Hm.
      by apply padded_positive.
    - intros rc Hin Hm. unfold cnt. cbn [count_grid]. by rewrite Hcount, Hm.
    - intros rc Hm. left. unfold cnt. cbn [count_grid]. rewrite untraced_empty, Hcount, Hm; [done|].
      rewrite is_mask_padded in Hm. apply Z.ltb_lt, padded_positive in Hm.
      unfold in_shape. lia. }
  split_and!; [exact Hwf | |].
  - intros a b. cbn. split; [lia | lia].
  - intros _ _. cbn [connections_seen line_strings clean_embed]. split.
    + intros a b. rewrite seen_of_empty. set_solver.
    + intros _ rc Hm Hd _. right. rewrite untraced_empty. exact Hd.
Qed.

End Init.

(** *** Bounds on the counts, and concrete masks *)

Section Final.
Implicit Types (v : Vectorizer) (rc : cell) (g : ndarray Z).

(** Under the invariant no count is below -1. *)
Lemma wf_lower v c : wf v -> in_shape (count_grid v) c -> -1 <= cnt v c.
Proof.
  intros Hwf Hin. destruct (is_mask (clean_embed v) c) eqn:Hm.
  - pose proof (untraced_nonneg (clean_embed v) (connections_seen v) c).
    destruct (wf_count v Hwf c Hm) as [->|[-> _]]; lia.
  - rewrite (wf_outside v Hwf c); [lia | | done].
    unfold in_shape in *. by rewrite <- (wf_rows v Hwf), <- (wf_cols v Hwf).
Qed.

Lemma run_spec_final {A} (P : A -> Vectorizer -> Prop) (Q : Vectorizer -> Prop) (E : Prop)
    (r : result Vectorizer A) :
  run_spec P Q E r -> (forall a v, P a v -> Q v) -> Q (final_state r).
Proof. intros [Hr _] HP. destruct r; cbn; [eauto | by destruct Hr]. Qed.

Lemma sum_list_const {A} (k : Z) (l : list A) :
  sum_list ((fun _ => k) <$> l) = k * Z.of_nat (length l).
Proof. induction l as [|x l IH]; cbn [fmap list_fmap sum_list foldr length]; [lia|].
  fold (sum_list ((fun _ => k) <$> l)). rewrite IH. lia. Qed.

Lemma total_count_lower v :
  wf v -> - Z.of_nat (length (indices (count_grid v))) <= total_count v.
Proof.
  intros Hwf. unfold total_count, grid_sum.
  pose proof (sum_list_le (fun _ => -1) (fun rc => id (item (count_grid v) rc.1 rc.2))
                (indices (count_grid v))) as H.
  rewrite sum_list_const in H. etrans; [|apply H]; [lia|].
  intros rc Hrc. apply elem_of_indices in Hrc. by apply wf_lower.
Qed.

(** A call of [investigate_row_col] decreases the sum of all counts. *)
Lemma investigated_total_count rc l all v l' v' :
  wf v -> is_mask (clean_embed v) rc = true ->
  investigated rc l all v l' v' -> total_count v' < total_count v.
Proof.
  intros Hwf Hm Hi. pose proof (investigated_safe _ _ _ _ _ _ Hi) as (Hwf' & He & _ & Hle).
  apply (grid_sum_lt id _ _ rc).
  - by rewrite (wf_rows v' Hwf'), (wf_rows v Hwf), He.
  - by rewrite (wf_cols v' Hwf'), (wf_cols v Hwf), He.
  - intros c _. apply Hle.
  - by apply mask_in_shape.
  - apply (inv_lt _ _ _ _ _ _ Hi).
Qed.

(** [thin_ok], [adjacent] and [connected] on a concrete grid. *)
Lemma thin_ok_check thin :
  (0 <=? nrows thin) && (0 <=? ncols thin) &&
  forallb (fun rc => 0 <=? item thin rc.1 rc.2) (indices thin) = true ->
  thin_ok thin.
Proof.
  intros H. apply andb_true_iff in H as [H Hall]. apply andb_true_iff in H as [Hr Hc].
  split_and!; [lia | lia |]. intros rc Hin.
  rewrite forallb_forall in Hall. apply Z.leb_le, Hall.
  by apply list_elem_of_In, elem_of_indices.
Qed.

Lemma adjacent_sym g a b : adjacent g a b -> adjacent g b a.
Proof. intros (Ha & Hb & Hn). split_and!; [done | done | by apply nbrs_sym]. Qed.

Lemma rtc_adjacent_sym g a b : rtc (adjacent g) a b -> rtc (adjacent g) b a.
Proof.
  induction 1 as [|a y b Hay _ IH]; [done|].
  eapply rtc_r; [exact IH | by apply adjacent_sym].
Qed.

Lemma connected_from_hub g hub :
  (forall a, a ∈ argwhere (fun x => 0 <? x) g -> rtc (adjacent g) hub a) -> connected g.
Proof.
  intros H a b Ha Hb.
  assert (forall c, is_mask g c = true -> c ∈ argwhere (fun x => 0 <? x) g) as Hc.
  { intros c Hm. unfold is_mask in Hm. apply andb_true_iff in Hm as [Hin Hpos].
    apply bool_decide_eq_true in Hin. by apply elem_of_argwhere. }
  etrans; [apply rtc_adjacent_sym, H, Hc, Ha | apply H, Hc, Hb].
Qed.

Lemma adjacent_check g a b :
  is_mask g a && is_mask g b && bool_decide (b ∈ nbrs a) = true -> adjacent g a b.
Proof.
  intros H. apply andb_true_iff in H as [H Hn]. apply andb_true_iff in H as [Ha Hb].
  apply bool_decide_eq_true in Hn. done.
Qed.

End Final.

Lemma thin_ok_wye : thin_ok wye.
Proof. apply thin_ok_check. vm_compute. reflexivity. Qed.

Ltac solve_hub :=
  match goal with
  | Ha : _ |- rtc _ _ ?a =>
      vm_compute in Ha;
      match type of Ha with
      | list_elem_of _ ?l => change (a ∈ l) in Ha
      end;
      repeat (apply elem_of_cons in Ha as [->|Ha]);
      [.. | by apply elem_of_nil in Ha]
  end.

Ltac step_to c :=
  apply (rtc_l _ _ c); [apply adjacent_check; vm_compute; reflexivity|].

Lemma connected_wye : connected (padded wye).
Proof.
  apply (connected_from_hub _ (2, 2)). intros a Ha. solve_hub.
  - step_to (1, 1). reflexivity.
  - step_to (1, 3). reflexivity.
  - reflexivity.
  - step_to (3, 2). reflexivity.
Qed.

Lemma not_a_loop_wye : not_a_loop (padded wye).
Proof. exists (2, 2). split; [reflexivity|]. vm_compute. discriminate. Qed.

Lemma connected_diamond : connected (padded diamond).
Proof.
  apply (connected_from_hub _ (1, 2)). intros a Ha. solve_hub.
  - reflexivity.
  - step_to (2, 1). reflexivity.
  - step_to (2, 3). reflexivity.
  - step_to (2, 1). step_to (3, 2). reflexivity.
Qed.

(** C9: the tracer terminates.  For every thin grid the constructor builds
    the count grid, and with enough fuel (more than the sum of the positive
    counts plus one) [make_all_simple_linestrings] returns, in a state with
    no positive count.  Every call of [investigate_row_col] that returns
    has strictly decreased the sum of all counts, and that sum is bounded
    below by minus the number of cells of the grid. *)
Theorem tracing_terminates thin :
  thin_ok thin ->
  exists v0, init_tracer thin = Some v0 /\
    (forall fuel, positive_count v0 + 1 < Z.of_nat fuel ->
       exists v', make_all_simple_linestrings fuel v0 = Ok tt v' /\
         any (fun n => 0 <? n) (count_grid v') = false) /\
    (forall fuel rc l all v l' v',
       wf v -> is_mask (clean_embed v) rc = true -> 0 <= cnt v rc -> l <> [] ->
       investigate_row_col fuel rc l all v = Ok l' v' ->
       total_count v' < total_count v /\
       - Z.of_nat (length (indices (count_grid v'))) <= total_count v').
Proof.
  intros Hok. destruct (init_tracer_spec thin Hok) as (v0 & Hinit & Htop & _).
  exists v0. split_and!; [exact Hinit | |].
  - intros fuel Hfuel.
    destruct (make_all_simple_linestrings_spec fuel v0 Htop) as [Hpost Hen].
    destruct (Hen Hfuel) as ([] & v' & Hrun). rewrite Hrun in Hpost.
    exists v'. split; [exact Hrun | by destruct Hpost as (_ & _ & ?)].
  - intros fuel rc l all v l' v' Hwf Hm Hc Hl Hrun.
    destruct (investigate_spec fuel rc l all v Hwf Hm Hc Hl) as [Hi _].
    rewrite Hrun in Hi. split; [by eapply investigated_total_count|].
    apply total_count_lower. by destruct Hi.
Qed.

Lemma tracing_terminates_witness :
  thin_ok wye /\
  exists v0, init_tracer wye = Some v0 /\
    (forall fuel, positive_count v0 + 1 < Z.of_nat fuel ->
       exists v', make_all_simple_linestrings fuel v0 = Ok tt v' /\
         any (fun n => 0 <? n) (count_grid v') = false) /\
    (forall fuel rc l all v l' v',
       wf v -> is_mask (clean_embed v) rc = true -> 0 <= cnt v rc -> l <> [] ->
       investigate_row_col fuel rc l all v = Ok l' v' ->
       total_count v' < total_count v /\
       - Z.of_nat (length (indices (count_grid v'))) <= total_count v').
Proof.
  split; [apply thin_ok_check; vm_compute; reflexivity|].
  apply (tracing_terminates wye). apply thin_ok_check. vm_compute. reflexivity.
Defined.

(** C2, amended: no entry of the count grid is ever below -1 or above its
    initial value: in the state in which [make_all_simple_linestrings] ends
    or is cut off, for every fuel, and in the state in which any call of
    [investigate_row_col] ends or is cut off. *)
Theorem counts_stay_above_minus_one thin :
  thin_ok thin ->
  exists v0, init_tracer thin = Some v0 /\
    (forall fuel c,
       in_shape (count_grid (final_state (make_all_simple_linestrings fuel v0))) c ->
       -1 <= cnt (final_state (make_all_simple_linestrings fuel v0)) c <= cnt v0 c) /\
    (forall fuel rc l all v c,
       wf v -> is_mask (clean_embed v) rc = true -> 0 <= cnt v rc -> l <> [] ->
       in_shape (count_grid (final_state (investigate_row_col fuel rc l all v))) c ->
       -1 <= cnt (final_state (investigate_row_col fuel rc l all v)) c <= cnt v c).
Proof.
  intros Hok. destruct (init_tracer_spec thin Hok) as (v0 & Hinit & Htop & _).
  exists v0. split_and!; [exact Hinit | |].
  - intros fuel c Hin.
    pose proof (run_spec_final _ _ _ _ (make_all_simple_linestrings_spec fuel v0 Htop))
      as (Hwf & _ & _ & Hle); [by intros ? ? (_ & ? & _)|].
    split; [by apply wf_lower | apply Hle].
  - intros fuel rc l all v c Hwf Hm Hc Hl Hin.
    pose proof (run_spec_final _ _ _ _ (investigate_spec fuel rc l all v Hwf Hm Hc Hl))
      as (Hwf' & _ & _ & Hle); [intros ? ?; apply investigated_safe|].
    split; [by apply wf_lower | apply Hle].
Qed.

Lemma counts_stay_above_minus_one_witness :
  thin_ok diamond /\
  exists v0, init_tracer diamond = Some v0 /\
    (forall fuel c,
       in_shape (count_grid (final_state (make_all_simple_linestrings fuel v0))) c ->
       -1 <= cnt (final_state (make_all_simple_linestrings fuel v0)) c <= cnt v0 c) /\
    (forall fuel rc l all v c,
       wf v -> is_mask (clean_embed v) rc = true -> 0 <= cnt v rc -> l <> [] ->
       in_shape (count_grid (final_state (investigate_row_col fuel rc l all v))) c ->
       -1 <= cnt (final_state (investigate_row_col fuel rc l all v)) c <= cnt v c).
Proof.
  split; [apply thin_ok_check; vm_compute; reflexivity|].
  apply (counts_stay_above_minus_one diamond). apply thin_ok_check. vm_compute. reflexivity.
Defined.

(** C2, counterexample: on the closed loop of four cells the tracer
    returns with count -1 at the cell (1, 2) of the padded grid, the cell
    from which the loop was walked. *)
Lemma diamond_count_below_zero :
  thin_ok diamond /\
  (fun v => (bool_decide (in_shape (count_grid v) (1, 2)), cnt v (1, 2))) <$> traced 10 diamond
  = Some (true, -1).
Proof. split; [apply thin_ok_check; vm_compute; reflexivity|]. vm_compute. reflexivity. Qed.

(** C1, amended: on a connected mask that is not a closed loop (some cell
    does not have exactly two neighbours), with enough fuel the tracer
    returns, every mask adjacency is a consecutive pair of the emitted
    chains exactly once, in one of its two orders, and every consecutive
    pair of the chains is a mask adjacency. *)
Theorem adjacencies_traced_once thin :
  thin_ok thin -> connected (padded thin) -> not_a_loop (padded thin) ->
  exists v0, init_tracer thin = Some v0 /\
    forall fuel, positive_count v0 + 1 < Z.of_nat fuel ->
      exists v', make_all_simple_linestrings fuel v0 = Ok tt v' /\
        (forall a b, adjacent (padded thin) a b ->
           occurrences a b (all_pairs (line_strings v')) = 1%nat) /\
        (forall a b, (1 <= occurrences a b (all_pairs (line_strings v')))%nat ->
           adjacent (padded thin) a b).
Proof.
  intros Hok Hconn Hnl. destruct (init_tracer_spec thin Hok) as (v0 & Hinit & Htop & Hembed & _).
  exists v0. split; [exact Hinit|]. intros fuel Hfuel.
  destruct (make_all_simple_linestrings_spec fuel v0 Htop) as [Hpost Hen].
  destruct (Hen Hfuel) as ([] & v' & Hrun). rewrite Hrun in Hpost.
  destruct Hpost as ((Hwf & Honce & Hex) & (_ & He & _ & _) & Hno).
  rewrite He, Hembed in Hex. destruct (Hex Hconn Hnl) as [Hall _].
  exists v'. split_and!; [exact Hrun | |].
  - intros a b (Ha & Hb & Hn). rewrite <- Hembed, <- He in Ha, Hb.
    assert (untraced (clean_embed v') (connections_seen v') a = 0) as Hu.
    { pose proof (any_false _ _ a Hno (proj1 (mask_in_shape v' a Hwf Ha))) as Hle.
      apply Z.ltb_ge in Hle. fold (cnt v' a) in Hle.
      pose proof (untraced_nonneg (clean_embed v') (connections_seen v') a).
      destruct (wf_count v' Hwf a Ha) as [E|[_ E]]; lia. }
    pose proof (untraced_zero _ _ _ _ Hu Hn Hb) as Hseen.
    specialize (Hall a b Hseen). destruct (Honce a b) as [Hle _]. lia.
  - intros a b Hocc. destruct (Honce a b) as [_ Hseen].
    rewrite <- Hembed, <- He. apply (wf_adj v' Hwf), Hseen, Hocc.
Qed.

Lemma adjacencies_traced_once_witness :
  thin_ok wye /\ connected (padded wye) /\ not_a_loop (padded wye) /\
  exists v0, init_tracer wye = Some v0 /\
    forall fuel, positive_count v0 + 1 < Z.of_nat fuel ->
      exists v', make_all_simple_linestrings fuel v0 = Ok tt v' /\
        (forall a b, adjacent (padded wye) a b ->
           occurrences a b (all_pairs (line_strings v')) = 1%nat) /\
        (forall a b, (1 <= occurrences a b (all_pairs (line_strings v')))%nat ->
           adjacent (padded wye) a b).
Proof.
  split_and!; [apply thin_ok_wye | apply connected_wye | apply not_a_loop_wye |].
  apply (adjacencies_traced_once wye);
    [apply thin_ok_wye | apply connected_wye | apply not_a_loop_wye].
Defined.

(** C1, counterexample: the closed loop of four cells is connected; the
    tracer emits the single chain (1,2), (2,3), (3,2), (2,1), in which the
    adjacency between (2,1) and (1,2) does not occur. *)
Lemma diamond_closing_adjacency_missing :
  thin_ok diamond /\ connected (padded diamond) /\
  adjacent (padded diamond) (2, 1) (1, 2) /\
  (fun v => (line_strings v, occurrences (2, 1) (1, 2) (all_pairs (line_strings v))))
    <$> traced 10 diamond
  = Some ([[(1, 2); (2, 3); (3, 2); (2, 1)]], 0%nat).
Proof.
  split_and!.
  - apply thin_ok_check. vm_compute. reflexivity.
  - apply connected_diamond.
  - apply adjacent_check. vm_compute. reflexivity.
  - vm_compute. reflexivity.
Qed.

End VectorizeProofs.


(** ** vectorize.py: the geometry phase *)

Module GeometryProofs.
Import Vectorize VectorizeSpec VectorizeExamples.

Section Raises.
Variable LineString : Type.
Variable coords_of : LineString -> list coords.
Variable merge_and_node : list (list coords) -> list LineString.
Variable unary_union : list LineString -> list LineString.

Lemma connect_line_raises (a : Assembler LineString) l :
  connecting_dict _ a = None -> coords_of l <> [] ->
  connect_line _ coords_of unary_union l a = Raise (AttributeError "connecting_dict") a.
Proof.
  intros Hd Hne. unfold connect_line.
  destruct (coords_of l) as [|k ks] eqn:E; [done|].
  destruct (last (k :: ks)) as [t|] eqn:Hlast; [|by apply last_None in Hlast].
  cbn [head]. unfold bind at 1. cbn [lift_option ret].
  unfold bind at 1. cbn [lift_option ret].
  unfold bind at 1. unfold get_connecting_dict. rewrite Hd. reflexivity.
Qed.

Lemma connect_to_base_waterways_raises (a : Assembler LineString) l rest :
  connecting_dict _ a = None -> shapely_line_strings _ a = l :: rest -> coords_of l <> [] ->
  connect_to_base_waterways _ coords_of unary_union a
  = Raise (AttributeError "connecting_dict") a.
Proof.
  intros Hd Hl Hne. unfold connect_to_base_waterways.
  unfold bind at 1. unfold get_state at 1. rewrite Hl. cbn [connect_lines].
  unfold bind at 1. unfold bind at 1. by rewrite connect_line_raises.
Qed.

End Raises.

(** C8, at every input that yields a line: when tracing returns and
    shapely makes at least one line with coordinates of the chains,
    [__init__] does not complete: [connect_to_base_waterways] reads
    [self.connecting_dict], which no statement assigns, and AttributeError
    is raised before any splicing. *)
Theorem init_raises_attribute_error (LineString : Type)
    (coords_of : LineString -> list coords)
    (merge_and_node : list (list coords) -> list LineString)
    (unary_union : list LineString -> list LineString)
    fuel thin reference_waterway_data x_min y_max x_res y_res v l rest :
  traced fuel thin = Some v ->
  shapely_line_strings _
    (make_shapely_line_strings _ merge_and_node (line_strings v)
       (new_assembler _ x_min y_max x_res y_res reference_waterway_data)) = l :: rest ->
  coords_of l <> [] ->
  init _ coords_of merge_and_node unary_union fuel thin reference_waterway_data
    x_min y_max x_res y_res
  = InitRaise _ (AttributeError "connecting_dict").
Proof.
  unfold traced, init. intros Ht Hl Hne.
  destruct (init_tracer thin) as [v0|]; [|discriminate]. cbn in Ht.
  destruct (make_all_simple_linestrings fuel v0) as [[] v1|]; [|discriminate].
  injection Ht as ->.
  by rewrite (connect_to_base_waterways_raises _ _ _ _ l rest).
Qed.

Lemma init_raises_attribute_error_witness :
  exists v l rest,
    traced 10 segment = Some v /\
    shapely_line_strings _
      (make_shapely_line_strings (list coords) id (line_strings v)
         (new_assembler _ zero zero (of_Z 1) (of_Z 1) [])) = l :: rest /\
    id l <> [] /\
    init (list coords) id id id 10 segment [] zero zero (of_Z 1) (of_Z 1)
    = InitRaise _ (AttributeError "connecting_dict").
Proof.
  eexists _, _, _. split_and!.
  - vm_compute. reflexivity.
  - vm_compute. reflexivity.
  - discriminate.
  - eapply (init_raises_attribute_error (list coords) id id id);
      [vm_compute; reflexivity | vm_compute; reflexivity | discriminate].
Defined.

End GeometryProofs.


(** ** connect.py: further properties *)

Module ConnectMore.
Import Connect ConnectSpec ConnectExamples ConnectProofs.

Section Nodes.

Lemma select_nodes_elem probability components min_probability : forall cells l,
  select_nodes probability components min_probability cells = Some l ->
  (forall rc, rc ∈ cells -> in_shape components rc) ->
  forall rc, rc ∈ l <-> rc ∈ cells /\ eligible_node probability components min_probability rc.
Proof.
  induction cells as [|x cells IH]; intros l H Hin rc; cbn in H.
  - injection H as <-. set_solver.
  - destruct (getitem probability x) as [p|] eqn:Hp; [|discriminate]. cbn in H.
    assert (in_shape components x) as Hx by (apply Hin; set_solver).
    rewrite (getitem_in_shape components x Hx) in H. cbn in H.
    destruct (select_nodes probability components min_probability cells) as [tl|] eqn:Htl;
      [|by destruct (gtb p min_probability)].
    assert (l = if gtb p min_probability || (0 <? item components x.1 x.2)
                then x :: tl else tl) as ->.
    { destruct (gtb p min_probability); cbn in H; injection H as <-; reflexivity. }
    specialize (IH tl eq_refl (fun c Hc => Hin c (list_elem_of_further _ _ _ Hc)) rc).
    assert (eligible_node probability components min_probability x <->
            gtb p min_probability || (0 <? item components x.1 x.2) = true) as Hel.
    { unfold eligible_node, label_of. rewrite orb_true_iff, Z.ltb_lt, Hp. split.
      - intros [(q & [= <-] & Hq)|Hc]; auto.
      - intros [Hq|Hc]; eauto. }
    destruct (gtb p min_probability || (0 <? item components x.1 x.2)) eqn:Hk.
    + rewrite !elem_of_cons, IH. split.
      * intros [->|[? ?]]; [split; [auto | by apply Hel] | auto].
      * intros [[->|?] ?]; auto.
    + rewrite elem_of_cons, IH. split; [intros [? ?]; auto|].
      intros [[->|?] Hr]; [|auto]. apply Hel in Hr. discriminate.
Qed.

Lemma select_nodes_total probability components min_probability : forall cells,
  (forall rc, rc ∈ cells -> in_shape probability rc /\ in_shape components rc) ->
  is_Some (select_nodes probability components min_probability cells).
Proof.
  induction cells as [|x cells IH]; intros Hin; cbn; [eauto|].
  destruct (Hin x) as [Hp Hc]; [set_solver|].
  rewrite (getitem_in_shape probability x Hp), (getitem_in_shape components x Hc). cbn.
  destruct IH as [tl ->]; [intros; apply Hin; set_solver|].
  destruct (gtb _ _); cbn; eauto.
Qed.

Lemma index_outside n i : 0 <= i -> n <= i -> index n i = None.
Proof.
  intros H0 Hn. unfold index.
  destruct (Z.ltb_spec i n); [lia|]. rewrite andb_false_r.
  destruct (Z.ltb_spec i 0); [lia|]. by rewrite andb_false_r.
Qed.

Lemma getitem_outside {A} (a : ndarray A) rc :
  0 <= rc.1 -> 0 <= rc.2 -> ~ in_shape a rc -> getitem a rc = None.
Proof.
  intros H1 H2 Hout. unfold getitem, in_shape in *.
  destruct (Z.lt_ge_cases rc.1 (nrows a)) as [Hr|Hr].
  - rewrite (index_outside (ncols a) rc.2) by lia. by destruct (index _ _).
  - by rewrite (index_outside (nrows a) rc.1) by lia.
Qed.

Lemma select_nodes_fails probability components min_probability rc : forall cells,
  rc ∈ cells -> getitem probability rc = None ->
  select_nodes probability components min_probability cells = None.
Proof.
  induction cells as [|x cells IH]; intros Hin Hnone; [by apply elem_of_nil in Hin|].
  cbn. apply elem_of_cons in Hin as [<-|Hin].
  - by rewrite Hnone.
  - rewrite (IH Hin Hnone).
    destruct (getitem probability x); [|reflexivity]. cbn.
    destruct (gtb _ _); cbn; [reflexivity|].
    by destruct (getitem components x).
Qed.

End Nodes.

Section Init.

Lemma init_unfold basin_data min_probability h components w :
  int_arrays h !! bd_component_grid basin_data = Some components ->
  float_arrays h !! bd_weight_grid basin_data = Some w ->
  init basin_data min_probability h =
  match select_nodes (bd_probability_grid basin_data) components min_probability
          (indices components) with
  | Some nodes =>
      add_edges_to_graph (bare_connector basin_data components nodes (fresh_float h)) None
        (with_copy h w)
  | None => Raise IndexError h
  end.
Proof.
  intros Hc Hw. unfold init, bind at 1, load_int. rewrite Hc. cbn [lift_option ret].
  unfold bind at 1. fold (indices components).
  destruct (select_nodes _ _ _ _) as [nodes|]; [|reflexivity]. cbn [lift_option ret].
  unfold bind at 1, copy_float, bind at 1, load_float. rewrite Hw. cbn [lift_option ret].
  reflexivity.
Qed.

Lemma init_Ok_inv basin_data min_probability h self h' :
  init basin_data min_probability h = Ok self h' ->
  exists components w nodes edges,
    int_arrays h !! bd_component_grid basin_data = Some components /\
    float_arrays h !! bd_weight_grid basin_data = Some w /\
    select_nodes (bd_probability_grid basin_data) components min_probability
      (indices components) = Some nodes /\
    h' = with_copy h w /\
    edge_list (bare_connector basin_data components nodes (fresh_float h)) nodes h'
      = Ok edges h' /\
    self = set_graph (bare_connector basin_data components nodes (fresh_float h))
             (add_weighted_edges_from ∅ edges).
Proof.
  intros H.
  destruct (int_arrays h !! bd_component_grid basin_data) as [components|] eqn:Hc.
  2: { unfold init, bind at 1, load_int in H. rewrite Hc in H. discriminate. }
  destruct (float_arrays h !! bd_weight_grid basin_data) as [w|] eqn:Hw.
  2: { unfold init, bind at 1, load_int in H. rewrite Hc in H. cbn [lift_option ret] in H.
       unfold bind at 1 in H. destruct (select_nodes _ _ _ _); [|discriminate].
       cbn [lift_option ret] in H.
       unfold bind at 1, copy_float, bind at 1, load_float in H. rewrite Hw in H.
       discriminate. }
  rewrite (init_unfold _ _ _ _ _ Hc Hw) in H.
  destruct (select_nodes _ _ _ _) as [nodes|] eqn:Hn; [|discriminate].
  unfold add_edges_to_graph in H. apply bind_Ok_inv in H as (edges & h1 & He & H).
  unfold ret in H. injection H as <- <-.
  pose proof (edge_list_ends _ _ _ _ _ He) as [-> _].
  exists components, w, nodes, edges. cbn [default] in He. by split_and!.
Qed.

End Init.

Section InitTheorems.

Lemma select_nodes_sublist probability components min_probability : forall cells l,
  select_nodes probability components min_probability cells = Some l -> sublist l cells.
Proof.
  induction cells as [|x cells IH]; intros l H; cbn in H.
  - injection H as <-. constructor.
  - destruct (getitem probability x) as [p|]; [|discriminate]. cbn in H.
    destruct (if gtb p min_probability then Some true
              else c ← getitem components x; Some (0 <? c)) as [keep|]; [|discriminate].
    cbn in H.
    destruct (select_nodes probability components min_probability cells) as [tl|];
      [|discriminate].
    cbn in H. injection H as <-. specialize (IH tl eq_refl).
    destruct keep; by constructor.
Qed.

(** X1: When the constructor returns, num_rows and num_cols are the shape of the
    component grid, and nodes holds, without repetition, exactly the cells of
    that shape whose probability exceeds min_probability or whose component
    label is positive. *)
Theorem init_nodes basin_data min_probability h self h' :
  init basin_data min_probability h = Ok self h' ->
  exists components,
    int_arrays h !! bd_component_grid basin_data = Some components /\
    num_rows self = nrows components /\ num_cols self = ncols components /\
    NoDup (nodes self) /\
    forall rc, rc ∈ nodes self <->
      in_shape components rc /\
      eligible_node (bd_probability_grid basin_data) components min_probability rc.
Proof.
  intros H. apply init_Ok_inv in H as (components & w & nodes & edges & Hc & _ & Hn & _ & _ & ->).
  exists components. cbn. split_and!; try done.
  - apply (sublist_NoDup _ (indices components));
      [apply VectorizeProofs.NoDup_indices | by eapply select_nodes_sublist].
  - intros rc. rewrite (select_nodes_elem _ _ _ _ _ Hn), elem_of_indices; [done|].
    intros c. by rewrite elem_of_indices.
Qed.

Lemma init_nodes_witness :
  exists self h' components,
    init basin default_min_probability store = Ok self h' /\
    int_arrays store !! bd_component_grid basin = Some components /\
    num_rows self = nrows components /\ num_cols self = ncols components /\
    NoDup (nodes self) /\
    forall rc, rc ∈ nodes self <->
      in_shape components rc /\
      eligible_node (bd_probability_grid basin) components default_min_probability rc.
Proof.
  destruct (init basin default_min_probability store) as [self h'|e h'] eqn:E.
  - destruct (init_nodes basin default_min_probability store self h' E) as (c & H).
    exists self, h', c. split; [reflexivity | exact H].
  - vm_compute in E. discriminate.
Defined.

End InitTheorems.

Section InitReturns.

Lemma get_weight_in_shape self u v maxd h g :
  float_arrays h !! weight_grid self = Some g ->
  in_shape (elevation_grid self) u -> in_shape (elevation_grid self) v -> in_shape g u ->
  get_weight self u v maxd h
  = Ok (edge_cost (item (elevation_grid self) u.1 u.2) (item (elevation_grid self) v.1 v.2)
          (item g u.1 u.2) maxd) h.
Proof.
  intros Hg Hu Hv Hgu. apply (get_weight_edge_cost _ _ _ _ _ _ _ _ g); try assumption;
    by apply getitem_in_shape.
Qed.

Lemma weigh_edges_total self u dsts h g :
  float_arrays h !! weight_grid self = Some g ->
  in_shape (elevation_grid self) u -> in_shape g u ->
  (forall v, v ∈ dsts -> in_shape (elevation_grid self) v) ->
  exists l, weigh_edges self u dsts h = Ok l h.
Proof.
  intros Hg Hu Hgu. induction dsts as [|d dsts IH]; intros Hd; cbn [weigh_edges]; [by eexists|].
  unfold bind at 1. rewrite (get_weight_in_shape _ _ _ _ _ g) by (try done; apply Hd; set_solver).
  destruct IH as [tl Htl]; [intros; apply Hd; set_solver|].
  unfold bind at 1. rewrite Htl. by eexists.
Qed.

Lemma edge_list_total self nodes_list h g :
  float_arrays h !! weight_grid self = Some g ->
  (forall u, u ∈ nodes_list -> in_shape (elevation_grid self) u /\ in_shape g u) ->
  (forall v, v ∈ nodes self -> in_shape (elevation_grid self) v) ->
  exists l, edge_list self nodes_list h = Ok l h.
Proof.
  intros Hg Hu Hv. induction nodes_list as [|u nl IH]; cbn [edge_list]; [by eexists|].
  destruct (Hu u) as [Hue Hug]; [set_solver|].
  destruct (weigh_edges_total self u (neighbours_in (nodes self) u) h g) as [here Hhere];
    try assumption.
  { intros v Hin. apply elem_of_neighbours_in in Hin as [Hin _]. by apply Hv. }
  destruct IH as [tl Htl]; [intros; apply Hu; set_solver|].
  unfold bind at 1. rewrite Hhere. unfold bind at 1. rewrite Htl. by eexists.
Qed.

Lemma in_shape_same {A B} (a : ndarray A) (b : ndarray B) rc :
  same_shape a b -> in_shape a rc -> in_shape b rc.
Proof. intros [Hr Hc]. unfold in_shape. by rewrite Hr, Hc. Qed.

(** X2: If the probability, elevation and weight grids have the shape of the
    component grid, the constructor returns. It leaves every integer array and
    every float array of the store as it was, and stores a copy of the caller's
    weight grid at a fresh address, which is the Connector's own weight_grid. *)
Theorem init_returns basin_data min_probability h components w :
  int_arrays h !! bd_component_grid basin_data = Some components ->
  float_arrays h !! bd_weight_grid basin_data = Some w ->
  same_shape components (bd_probability_grid basin_data) ->
  same_shape components (bd_elevation_grid basin_data) ->
  same_shape components w ->
  exists self h',
    init basin_data min_probability h = Ok self h' /\
    int_arrays h' = int_arrays h /\
    float_arrays h !! weight_grid self = None /\
    float_arrays h' = <[weight_grid self := w]> (float_arrays h).
Proof.
  intros Hc Hw Sp Se Sw. rewrite (init_unfold _ _ _ _ _ Hc Hw).
  destruct (select_nodes_total (bd_probability_grid basin_data) components min_probability
              (indices components)) as [nodes Hn].
  { intros rc Hrc. apply elem_of_indices in Hrc. split; [by eapply in_shape_same | done]. }
  rewrite Hn. unfold add_edges_to_graph, bind.
  change (default _ None) with nodes.
  assert (forall rc, rc ∈ nodes -> in_shape components rc) as Hin.
  { intros rc Hrc. eapply select_nodes_elem in Hrc as [Hrc _]; [|exact Hn|].
    - by apply elem_of_indices.
    - intros c. by rewrite elem_of_indices. }
  destruct (edge_list_total (bare_connector basin_data components nodes (fresh_float h))
              nodes (with_copy h w) w) as [edges ->].
  { cbn. by rewrite lookup_insert_eq. }
  { intros u Hu. cbn. split; eapply in_shape_same; eauto. }
  { intros v Hv. cbn in *. eapply in_shape_same; eauto. }
  eexists _, _. split; [reflexivity|]. cbn. split_and!; try done.
  apply not_elem_of_dom. unfold fresh_float. apply is_fresh.
Qed.

Lemma init_returns_witness :
  exists self h',
    init basin default_min_probability store = Ok self h' /\
    int_arrays h' = int_arrays store /\
    float_arrays store !! weight_grid self = None /\
    float_arrays h' = <[weight_grid self := weights]> (float_arrays store).
Proof.
  apply (init_returns basin default_min_probability store components weights);
    [reflexivity | reflexivity | split; reflexivity | split; reflexivity | split; reflexivity].
Defined.

(** X3: If some cell of the component grid's shape lies outside the probability
    grid, the constructor raises IndexError and leaves the store unchanged. *)
Theorem init_raises_on_short_probability_grid basin_data min_probability h components rc :
  int_arrays h !! bd_component_grid basin_data = Some components ->
  in_shape components rc -> ~ in_shape (bd_probability_grid basin_data) rc ->
  init basin_data min_probability h = Raise IndexError h.
Proof.
  intros Hc Hin Hout. unfold init, bind at 1, load_int. rewrite Hc. cbn [lift_option ret].
  unfold bind at 1. fold (indices components).
  rewrite (select_nodes_fails _ _ _ rc); [reflexivity | by apply elem_of_indices |].
  destruct Hin as [[? _] [? _]]. by apply getitem_outside.
Qed.

Lemma init_raises_on_short_probability_grid_witness :
  in_shape components (0, 2) /\ ~ in_shape (bd_probability_grid short_basin) (0, 2) /\
  init short_basin default_min_probability store = Raise IndexError store.
Proof.
  assert (in_shape components (0, 2)) as H1 by (vm_compute; intuition discriminate).
  assert (~ in_shape (bd_probability_grid short_basin) (0, 2)) as H2
    by (vm_compute; intros [_ [_ H]]; discriminate).
  split_and!; [exact H1 | exact H2 |].
  exact (init_raises_on_short_probability_grid short_basin default_min_probability store
           components (0, 2) eq_refl H1 H2).
Defined.

End InitReturns.

Section EdgeWeights.

Lemma weigh_edges_weights self u dsts h l h' :
  weigh_edges self u dsts h = Ok l h' ->
  forall e, e ∈ l -> get_weight self e.1.1 e.1.2 default_max_elevation_diff h = Ok e.2 h.
Proof.
  revert l h'. induction dsts as [|d dsts IH]; intros l h' H e He; cbn [weigh_edges] in H.
  - inv_ok. by apply elem_of_nil in He.
  - apply bind_Ok_inv in H as (w & h1 & Hw & H).
    pose proof (get_weight_pure _ _ _ _ _ _ _ Hw) as ->.
    apply bind_Ok_inv in H as (tl & h2 & Htl & H). inv_ok.
    apply elem_of_cons in He as [->|He]; [exact Hw | by eapply IH].
Qed.

Lemma edge_list_weights self nodes_list h l h' :
  edge_list self nodes_list h = Ok l h' ->
  forall e, e ∈ l -> get_weight self e.1.1 e.1.2 default_max_elevation_diff h = Ok e.2 h.
Proof.
  revert l h'. induction nodes_list as [|u nl IH]; intros l h' H e He; cbn [edge_list] in H.
  - inv_ok. by apply elem_of_nil in He.
  - apply bind_Ok_inv in H as (here & h1 & Hhere & H).
    pose proof (weigh_edges_ends _ _ _ _ _ _ Hhere) as [-> _].
    apply bind_Ok_inv in H as (tl & h2 & Htl & H). inv_ok.
    apply elem_of_app in He as [He|He]; [by eapply weigh_edges_weights | by eapply IH].
Qed.

Lemma add_weighted_edges_from_value g edges u v w :
  add_weighted_edges_from g edges !! (u, v) = Some w ->
  g !! (u, v) = Some w \/ (u, v, w) ∈ edges.
Proof.
  unfold add_weighted_edges_from. revert g.
  induction edges as [|e edges IH]; intros g H; cbn [foldl] in H; [auto|].
  apply IH in H as [H|H]; [|right; set_solver].
  destruct (decide ((e.1.1, e.1.2) = (u, v))) as [E|Hne].
  - rewrite E, lookup_insert_eq in H. injection H as <-. injection E as <- <-.
    right. destruct e as [[? ?] ?]. set_solver.
  - rewrite lookup_insert_ne in H by assumption. auto.
Qed.

(** X4: After the constructor returns, the weight stored on each edge (u, v) of
    the graph is the value that get_weight(u, v) returns, with
    max_elevation_diff 20, on the store the constructor leaves. *)
Theorem init_edge_weights basin_data min_probability h self h' u v w :
  init basin_data min_probability h = Ok self h' ->
  graph self !! (u, v) = Some w ->
  get_weight self u v default_max_elevation_diff h' = Ok w h'.
Proof.
  intros H Hg.
  apply init_Ok_inv in H as (components & w0 & nodes & edges & _ & _ & _ & _ & He & ->).
  cbn in Hg. apply add_weighted_edges_from_value in Hg as [Hg|Hg];
    [by rewrite lookup_empty in Hg|].
  exact (edge_list_weights _ _ _ _ _ He _ Hg).
Qed.

Lemma init_edge_weights_witness :
  exists self h' w,
    init basin default_min_probability store = Ok self h' /\
    graph self !! ((0, 1), (0, 2)) = Some w /\
    get_weight self (0, 1) (0, 2) default_max_elevation_diff h' = Ok w h'.
Proof.
  destruct (init basin default_min_probability store) as [self h'|e h'] eqn:E;
    [|vm_compute in E; discriminate].
  destruct (graph self !! ((0, 1), (0, 2))) as [w|] eqn:Hw.
  - exists self, h', w. split_and!; [reflexivity | exact Hw |].
    exact (init_edge_weights basin default_min_probability store self h' _ _ w E Hw).
  - exfalso. vm_compute in E. injection E as <- <-. vm_compute in Hw. discriminate.
Defined.

End EdgeWeights.

Section WeightCases.

Lemma get_weight_reads self node1 node2 maxd h e1 e2 w :
  getitem (elevation_grid self) node1 = Some e1 ->
  getitem (elevation_grid self) node2 = Some e2 ->
  own_weight self h node1 = Some w ->
  get_weight self node1 node2 maxd h = Ok (edge_cost e1 e2 w maxd) h.
Proof.
  intros H1 H2 Hw. unfold own_weight in Hw.
  destruct (float_arrays h !! weight_grid self) as [g|] eqn:Hg; [|discriminate].
  by apply (get_weight_edge_cost _ _ _ _ _ _ _ _ g).
Qed.

Lemma edge_cost_climb (e1 e2 : Q) (w : float) :
  (e1 <= e2)%Q -> edge_cost (Fin e1) (Fin e2) w default_max_elevation_diff = w.
Proof.
  intros Hd. unfold edge_cost, zero, default_max_elevation_diff, of_Z.
  change (inject_Z 20) with 20%Q. cbn [sub]. rewrite py_max_fin.
  assert (Qle_bool (e1 - e2) 0 = true) as -> by (apply Qle_bool_iff; lra).
  reflexivity.
Qed.


Lemma inject_Z_sub (z1 z2 : Z) : (inject_Z (z1 - z2) == inject_Z z1 - inject_Z z2)%Q.
Proof. unfold Z.sub. rewrite inject_Z_plus, inject_Z_opp. reflexivity. Qed.



(** X6: When node2 is not lower than node1 (finite elevations), get_weight
    returns the weight-grid entry of node1 as it is, whatever it is, and does
    not change the store. *)
Theorem get_weight_climb self h node1 node2 (e1 e2 : Q) (w : float) :
  getitem (elevation_grid self) node1 = Some (Fin e1) ->
  getitem (elevation_grid self) node2 = Some (Fin e2) ->
  own_weight self h node1 = Some w ->
  (e1 <= e2)%Q ->
  get_weight self node1 node2 default_max_elevation_diff h = Ok w h.
Proof.
  intros H1 H2 Hw Hle.
  by rewrite (get_weight_reads _ _ _ _ _ _ _ _ H1 H2 Hw), edge_cost_climb.
Qed.

Lemma get_weight_climb_witness :
  get_weight slope_connector (0, 1) (0, 2) default_max_elevation_diff slope_heap
  = Ok (Fin 3) slope_heap.
Proof.
  apply (get_weight_climb slope_connector slope_heap (0, 1) (0, 2) 0 30 (Fin 3));
    [reflexivity | reflexivity | reflexivity | lra].
Defined.

(** X7: For integer-valued elevations of magnitude at most 2^24, which float32
    holds exactly, whose drop from node1 to node2 is more than 20, and a finite
    positive weight at node1, get_weight returns plus infinity and does not
    change the store. *)
Theorem get_weight_steep_drop self h node1 node2 (z1 z2 : Z) (w : Q) :
  getitem (elevation_grid self) node1 = Some (of_Z z1) ->
  getitem (elevation_grid self) node2 = Some (of_Z z2) ->
  own_weight self h node1 = Some (Fin w) ->
  Z.abs z1 <= 16777216 -> Z.abs z2 <= 16777216 ->
  20 < z1 - z2 -> (0 < w)%Q ->
  get_weight self node1 node2 default_max_elevation_diff h = Ok PInf h.
Proof.
  intros H1 H2 Hw _ _ Hd Hpos.
  pose proof (inject_Z_sub z1 z2) as E. rewrite Zlt_Qlt in Hd.
  change (inject_Z 20) with 20%Q in Hd.
  rewrite (get_weight_reads _ _ _ _ _ _ _ _ H1 H2 Hw). unfold of_Z.
  rewrite edge_cost_steep_positive; [reflexivity | lra | exact Hpos].
Qed.

Lemma get_weight_steep_drop_witness :
  get_weight slope_connector (0, 2) (0, 1) default_max_elevation_diff slope_heap
  = Ok PInf slope_heap.
Proof.
  apply (get_weight_steep_drop slope_connector slope_heap (0, 2) (0, 1) 30 0 2);
    [reflexivity | reflexivity | reflexivity | lia | lia | lia | lra].
Defined.

End WeightCases.

Section FloatOrder.

Lemma ltb_irrefl a : ltb a a = false.
Proof.
  destruct a as [x| | |]; cbn; try reflexivity.
  apply negb_false_iff, Qle_bool_iff. lra.
Qed.

Lemma ltb_nan_r a : ltb a NaN = false.
Proof. by destruct a. Qed.



End FloatOrder.

Section Minimum.
Variable self : Connector.
Variable comps : ndarray Z.



End Minimum.



Section Border.
Variable self : Connector.
Variable comps : ndarray Z.

Lemma bind_all_nil {A B} (f : A -> list B) (l : list A) :
  (forall x, f x = []) -> l ≫= f = [].
Proof. intros Hf. induction l as [|x l IH]; [reflexivity|]. cbn. by rewrite Hf, IH. Qed.

Lemma range_empty lo hi : hi <= lo -> range lo hi = [].
Proof. intros H. unfold range. replace (Z.to_nat (hi - lo)) with 0%nat by lia. reflexivity. Qed.

Lemma window_mean_border rc :
  (rc.1 = 0 /\ 3 <= nrows (elevation_grid self)) \/
  (rc.2 = 0 /\ 3 <= ncols (elevation_grid self)) ->
  window_mean self rc = NaN.
Proof.
  intros H. unfold window_mean, slice.
  assert (forall n, 3 <= n -> range (slice_bound n (0 - 1)) (slice_bound n (0 + 2)) = []) as He.
  { intros n Hn. apply range_empty. unfold slice_bound.
    change (0 - 1 <? 0) with true. change (0 + 2 <? 0) with false. cbn iota. lia. }
  destruct H as [[-> Hn]|[-> Hn]]; rewrite He by assumption.
  - reflexivity.
  - rewrite bind_all_nil; [reflexivity|]. intros r. reflexivity.
Qed.

Lemma min_elevation_step_keeps_nan m rc m' L info :
  min_elevation_step self comps m rc = Some m' ->
  m !! L = Some info -> is_nan (min_elevation info) = true -> m' !! L = Some info.
Proof.
  unfold min_elevation_step. intros H Hm Hnan.
  destruct (getitem comps rc) as [lab|]; [|discriminate]. cbn [mbind option_bind] in H.
  injection H as <-.
  destruct (decide (lab = L)) as [->|Hne].
  - rewrite Hm. cbn iota. rewrite Hm. cbn [default from_option]. unfold id.
    destruct (min_elevation info); try discriminate. by rewrite ltb_nan_r.
  - assert ((match m !! lab with
             | Some _ => m
             | None => <[lab := mk_component_info
                                  (mean (slice (elevation_grid self) (rc.1 - 1) (rc.1 + 2)
                                           (rc.2 - 1) (rc.2 + 2))) rc]> m
             end) !! L = Some info) as Hm1.
    { destruct (m !! lab); [exact Hm | by rewrite lookup_insert_ne]. }
    destruct (ltb _ _); [by rewrite lookup_insert_ne | exact Hm1].
Qed.

Lemma min_elevation_loop_keeps_nan cells : forall m m' L info,
  min_elevation_loop self comps m cells = Some m' ->
  m !! L = Some info -> is_nan (min_elevation info) = true -> m' !! L = Some info.
Proof.
  induction cells as [|rc cells IH]; intros m m' L info H Hm Hnan; cbn in H.
  - by injection H as <-.
  - destruct (min_elevation_step self comps m rc) as [m1|] eqn:Hstep; [|discriminate].
    cbn in H. eapply IH; [exact H | by eapply min_elevation_step_keeps_nan | exact Hnan].
Qed.

Lemma min_elevation_step_new m rc m' :
  in_shape comps rc -> m !! label_of comps rc = None ->
  min_elevation_step self comps m rc = Some m' ->
  m' !! label_of comps rc = Some (mk_component_info (window_mean self rc) rc).
Proof.
  intros Hrc Hnone. unfold min_elevation_step.
  rewrite getitem_in_shape by assumption. cbn [mbind option_bind].
  fold (label_of comps rc). fold (window_mean self rc). rewrite Hnone.
  rewrite lookup_insert_eq. cbn [default from_option]. unfold id. cbn [min_elevation].
  rewrite ltb_irrefl. intros [= <-]. by rewrite lookup_insert_eq.
Qed.

Lemma min_elevation_loop_app l1 l2 m :
  min_elevation_loop self comps m (l1 ++ l2)
  = min_elevation_loop self comps m l1 ≫= fun m1 => min_elevation_loop self comps m1 l2.
Proof.
  revert m. induction l1 as [|x l1 IH]; intros m; [reflexivity|].
  cbn. destruct (min_elevation_step self comps m x); [apply IH | reflexivity].
Qed.

End Border.

(** X9: A cell in row 0 of an elevation grid with at least 3 rows, or in column
    0 of one with at least 3 columns, has the window mean NaN, since the slice
    start -1 counts from the far edge and the window is empty. If such a cell is
    the first cell of its component in row-major order, it is returned as the
    component's representative, whatever the elevations are. *)
Theorem border_cell_stays_representative self h comps pre rc post :
  int_arrays h !! component_grid self = Some comps ->
  argwhere (fun v => 0 <? v) comps = pre ++ rc :: post ->
  (forall c, c ∈ pre -> label_of comps c <> label_of comps rc) ->
  (rc.1 = 0 /\ 3 <= nrows (elevation_grid self)) \/
  (rc.2 = 0 /\ 3 <= ncols (elevation_grid self)) ->
  window_mean self rc = NaN /\
  exists representatives,
    get_component_min_elevation_points self h = Ok representatives h /\
    rc ∈ representatives.
Proof.
  intros Hload Hcells Hfirst Hborder.
  pose proof (window_mean_border self rc Hborder) as Hnan. split; [exact Hnan|].
  assert (forall c, c ∈ pre ++ rc :: post -> in_shape comps c) as Hin.
  { intros c Hc. rewrite <- Hcells in Hc. apply elem_of_argwhere in Hc. tauto. }
  destruct (min_elevation_loop_inv self comps pre [] ∅) as (m1 & Hpre & Hkey1 & _).
  { intros c Hc. apply Hin. set_solver. }
  { split; [intros L info; rewrite lookup_empty; discriminate | set_solver]. }
  destruct (min_elevation_step_inv self comps pre m1 rc) as (m2 & Hstep & Hinv2).
  { apply Hin. set_solver. }
  { destruct (min_elevation_loop_inv self comps pre [] ∅) as (m1' & Hpre' & Hinv');
      [intros c Hc; apply Hin; set_solver
      |split; [intros L info; rewrite lookup_empty; discriminate | set_solver]|].
    rewrite Hpre in Hpre'. by injection Hpre' as <-. }
  destruct (min_elevation_loop_inv self comps post (pre ++ [rc]) m2) as (m & Hpost & _).
  { intros c Hc. apply Hin. set_solver. }
  { exact Hinv2. }
  assert (m1 !! label_of comps rc = None) as Hnone.
  { destruct (m1 !! label_of comps rc) as [info|] eqn:E; [|reflexivity].
    apply Hkey1 in E as [Hnode Hl]. cbn [app] in Hnode. by apply Hfirst in Hnode. }
  assert (m !! label_of comps rc = Some (mk_component_info (window_mean self rc) rc)) as Hm.
  { eapply min_elevation_loop_keeps_nan; [exact Hpost | | by cbn; rewrite Hnan].
    eapply min_elevation_step_new; [apply Hin; set_solver | exact Hnone | exact Hstep]. }
  exists (info_nodes m). split.
  - unfold get_component_min_elevation_points, bind, load_int. rewrite Hload. cbn.
    rewrite Hcells, min_elevation_loop_app, Hpre. cbn. rewrite Hstep. cbn. rewrite Hpost.
    reflexivity.
  - apply elem_of_info_nodes. eauto.
Qed.

Lemma border_cell_stays_representative_witness :
  window_mean ridge_connector (0, 1) = NaN /\
  exists representatives,
    get_component_min_elevation_points ridge_connector ridge_heap
      = Ok representatives ridge_heap /\
    (0, 1) ∈ representatives.
Proof.
  apply (border_cell_stays_representative ridge_connector ridge_heap ridge_components
           [] (0, 1) [(1, 1)]).
  - reflexivity.
  - vm_compute. reflexivity.
  - intros c Hc. by apply elem_of_nil in Hc.
  - left. split; [reflexivity | vm_compute; discriminate].
Defined.

(** X11: With an empty cut_offs, get_paths returns an empty paths_to_return, all
    the representatives as init_targets and just the main component as
    components_seen, and does not change the store. *)
Theorem get_paths_without_cut_offs dijkstra_oracle self h comps :
  int_arrays h !! component_grid self = Some comps ->
  exists representatives,
    get_component_min_elevation_points self h = Ok representatives h /\
    get_paths dijkstra_oracle self [] h = Ok (∅, representatives, {[component self]}) h.
Proof.
  intros Hload.
  destruct (min_elevation_loop_inv self comps (argwhere (fun v => 0 <? v) comps) [] ∅)
    as (m & Hloop & _).
  { intros rc Hrc. apply elem_of_argwhere in Hrc. tauto. }
  { split; [intros L info; rewrite lookup_empty; discriminate | set_solver]. }
  assert (get_component_min_elevation_points self h = Ok (info_nodes m) h) as Hreps.
  { unfold get_component_min_elevation_points, bind, load_int. rewrite Hload. cbn.
    rewrite Hloop. reflexivity. }
  exists (info_nodes m). split; [exact Hreps|].
  unfold get_paths, bind at 1, load_int. rewrite Hload. cbn [lift_option ret].
  unfold bind at 1. rewrite Hreps. reflexivity.
Qed.

Lemma get_paths_without_cut_offs_witness :
  exists representatives,
    get_component_min_elevation_points example_connector store = Ok representatives store /\
    get_paths search example_connector [] store
    = Ok (∅, representatives, {[component example_connector]}) store.
Proof.
  apply (get_paths_without_cut_offs search example_connector store components). reflexivity.
Defined.

(** X13: add_edges_to_graph(nodes_list) changes neither the store nor the node
    set. Afterwards the graph has exactly its old edges and an edge from each
    listed cell (each node when nodes_list is None) to every node in the 3x3
    window around it, the cell itself included when it is a node; each weight is
    the old one or the value get_weight returns. *)
Theorem add_edges_to_graph_adds_window_edges self nodes_list h self' h' :
  add_edges_to_graph self nodes_list h = Ok self' h' ->
  h' = h /\ nodes self' = nodes self /\
  (forall u v, is_Some (graph self' !! (u, v)) <->
     is_Some (graph self !! (u, v)) \/
     (u ∈ default (nodes self) nodes_list /\ v ∈ nodes self /\ near u v)) /\
  (forall u v w, graph self' !! (u, v) = Some w ->
     graph self !! (u, v) = Some w \/
     get_weight self u v default_max_elevation_diff h = Ok w h).
Proof.
  intros H. pose proof (add_edges_to_graph_edges _ _ _ _ _ H) as [Hn He].
  unfold add_edges_to_graph in H. apply bind_Ok_inv in H as (edges & h1 & Hedges & H).
  unfold ret in H. injection H as <- <-.
  pose proof (edge_list_ends _ _ _ _ _ Hedges) as [-> _].
  split_and!; [reflexivity | exact Hn | exact He |].
  intros u v w Hw. cbn in Hw. apply add_weighted_edges_from_value in Hw as [Hw|Hw]; [auto|].
  right. exact (edge_list_weights _ _ _ _ _ Hedges _ Hw).
Qed.

Lemma add_edges_to_graph_adds_window_edges_witness :
  exists self',
    add_edges_to_graph example_connector (Some [(0, 1)]) store = Ok self' store /\
    nodes self' = nodes example_connector /\
    (forall u v, is_Some (graph self' !! (u, v)) <->
       is_Some (graph example_connector !! (u, v)) \/
       (u ∈ [(0, 1)] /\ v ∈ nodes example_connector /\ near u v)) /\
    (forall u v w, graph self' !! (u, v) = Some w ->
       graph example_connector !! (u, v) = Some w \/
       get_weight example_connector u v default_max_elevation_diff store = Ok w store).
Proof.
  destruct (add_edges_to_graph example_connector (Some [(0, 1)]) store) as [self' h'|e h']
    eqn:E; [|vm_compute in E; discriminate].
  destruct (add_edges_to_graph_adds_window_edges example_connector (Some [(0, 1)]) store
              self' h' E) as (-> & H).
  exists self'. split; [reflexivity | exact H].
Defined.

End ConnectMore.


(** ** connect.py: the stitcher and its weight callable *)

Module StitcherProofs.
Import Connect ConnectSpec ConnectExamples ConnectProofs ConnectMore.

Section WeightCallable.
Variable dijkstra_oracle : gmap (cell * cell) float -> list cell -> Z -> library_run.




End WeightCallable.



End StitcherProofs.


(** ** vectorize.py: further properties of the tracer *)

Module VectorizeMore.
Import Vectorize VectorizeSpec VectorizeExamples VectorizeProofs.

Section CountGrid.

Lemma degree_bounds g rc : 0 <= degree g rc <= 8.
Proof.
  unfold degree, mask_nbrs. split; [lia|].
  pose proof (length_filter (fun d => is_mask g d = true) (nbrs rc)) as H.
  change (length (nbrs rc)) with 8%nat in H. lia.
Qed.

Lemma make_count_8_grid_padded thin :
  thin_ok thin ->
  exists g, make_count_8_grid (padded thin) = Some g /\
    nrows g = nrows (padded thin) /\ ncols g = ncols (padded thin) /\
    forall rc, in_shape (padded thin) rc ->
      item g rc.1 rc.2 = if is_mask (padded thin) rc then degree (padded thin) rc else 0.
Proof.
  intros Hok. unfold make_count_8_grid. fold (binary (padded thin)).
  destruct (fill_spec (fun rc => window_sum (binary (padded thin)) rc - 1)
              (argwhere (Z.eqb 1) (binary (padded thin)))
              (zeros (nrows (binary (padded thin))) (ncols (binary (padded thin)))))
    as (g & -> & Hr & Hc & Hitem).
  { intros c Hc. by apply elem_of_argwhere in Hc as [? _]. }
  exists g. split_and!; [reflexivity | exact Hr | exact Hc |].
  intros rc Hin. rewrite Hitem.
  destruct (is_mask (padded thin) rc) eqn:Hm.
  - rewrite decide_True; [by apply window_sum_degree|].
    apply elem_of_argwhere. split; [exact Hin|].
    destruct rc as [r c]. cbn [fst snd]. rewrite binary_padded, Hm by assumption. reflexivity.
  - rewrite decide_False; [reflexivity|].
    intros [_ H1]%elem_of_argwhere. destruct rc as [r c]. cbn [fst snd] in H1.
    rewrite binary_padded, Hm in H1 by assumption. discriminate.
Qed.

End CountGrid.

(** X14: For the padded thin grid, make_count_8_grid returns a grid of the same
    shape (the thin grid's plus 2 each way) whose entry at a mask cell is the
    number of mask cells among its 8 neighbours and is 0 elsewhere; every entry
    is between 0 and 8. *)
Theorem count_grid_counts_mask_neighbours thin :
  thin_ok thin ->
  exists g, make_count_8_grid (padded thin) = Some g /\
    nrows g = nrows thin + 2 /\ ncols g = ncols thin + 2 /\
    forall rc, in_shape g rc ->
      item g rc.1 rc.2 = (if is_mask (padded thin) rc then degree (padded thin) rc else 0) /\
      0 <= item g rc.1 rc.2 <= 8.
Proof.
  intros Hok. destruct (make_count_8_grid_padded thin Hok) as (g & Hg & Hr & Hc & Hitem).
  exists g. split_and!; [exact Hg | by rewrite Hr | by rewrite Hc |].
  intros rc Hin.
  assert (in_shape (padded thin) rc) as Hin' by (unfold in_shape in *; by rewrite <- Hr, <- Hc).
  rewrite (Hitem rc Hin'). split; [reflexivity|].
  pose proof (degree_bounds (padded thin) rc). destruct (is_mask _ _); lia.
Qed.

Lemma count_grid_counts_mask_neighbours_witness :
  thin_ok wye /\
  exists g, make_count_8_grid (padded wye) = Some g /\
    nrows g = nrows wye + 2 /\ ncols g = ncols wye + 2 /\
    forall rc, in_shape g rc ->
      item g rc.1 rc.2 = (if is_mask (padded wye) rc then degree (padded wye) rc else 0) /\
      0 <= item g rc.1 rc.2 <= 8.
Proof.
  split; [apply thin_ok_wye|]. apply (count_grid_counts_mask_neighbours wye), thin_ok_wye.
Defined.

Section AfterTracing.

(** What is known when the tracer has returned. *)
Lemma traced_state thin :
  thin_ok thin ->
  exists v0, init_tracer thin = Some v0 /\
    forall fuel,
      (positive_count v0 + 1 < Z.of_nat fuel ->
       exists v', make_all_simple_linestrings fuel v0 = Ok tt v') /\
      forall v', make_all_simple_linestrings fuel v0 = Ok tt v' ->
        wf v' /\ clean_embed v' = padded thin /\
        edges_once (connections_seen v') (all_pairs (line_strings v')) /\
        any (fun n => 0 <? n) (count_grid v') = false.
Proof.
  intros Hok. destruct (init_tracer_spec thin Hok) as (v0 & Hinit & Htop & Hembed & _).
  exists v0. split; [exact Hinit|]. intros fuel.
  destruct (make_all_simple_linestrings_spec fuel v0 Htop) as [Hpost Hen]. split.
  - intros Hfuel. destruct (Hen Hfuel) as ([] & v' & Hrun). eauto.
  - intros v' Hrun.
    rewrite Hrun in Hpost. destruct Hpost as ((Hwf & Honce & _) & (_ & He & _ & _) & Hno).
    split_and!; try done. by rewrite He.
Qed.

Lemma no_positive_count_all_consumed v rc :
  wf v -> any (fun n => 0 <? n) (count_grid v) = false ->
  is_mask (clean_embed v) rc = true ->
  untraced (clean_embed v) (connections_seen v) rc = 0 /\ (cnt v rc = 0 \/ cnt v rc = -1).
Proof.
  intros Hwf Hno Hm.
  pose proof (any_false _ _ rc Hno (proj1 (mask_in_shape v rc Hwf Hm))) as Hle.
  apply Z.ltb_ge in Hle. fold (cnt v rc) in Hle.
  pose proof (untraced_nonneg (clean_embed v) (connections_seen v) rc).
  destruct (wf_count v Hwf rc Hm) as [E|[E1 E2]]; lia.
Qed.

End AfterTracing.

(** X15: For every thin grid with non-negative entries, connected or not, the
    tracer returns when given enough fuel, and whenever it returns no mask
    adjacency occurs more than once (in either order) as a consecutive pair of
    the emitted chains, and every consecutive pair of a chain is an adjacency of
    two mask cells. *)
Theorem chains_walk_adjacencies_without_repeating thin :
  thin_ok thin ->
  exists v0, init_tracer thin = Some v0 /\
    forall fuel,
      (positive_count v0 + 1 < Z.of_nat fuel ->
       exists v', make_all_simple_linestrings fuel v0 = Ok tt v') /\
      forall v', make_all_simple_linestrings fuel v0 = Ok tt v' ->
      (forall a b, (occurrences a b (all_pairs (line_strings v')) <= 1)%nat) /\
      (forall a b, (1 <= occurrences a b (all_pairs (line_strings v')))%nat ->
         adjacent (padded thin) a b).
Proof.
  intros Hok. destruct (traced_state thin Hok) as (v0 & Hinit & Hrun).
  exists v0. split; [exact Hinit|]. intros fuel.
  destruct (Hrun fuel) as [Hen Hfacts]. split; [exact Hen|]. intros v' Hv.
  destruct (Hfacts v' Hv) as (Hwf & He & Honce & _). split.
  - intros a b. apply Honce.
  - intros a b Hocc. rewrite <- He. apply (wf_adj v' Hwf). by apply Honce.
Qed.

Lemma chains_walk_adjacencies_without_repeating_witness :
  thin_ok diamond /\
  exists v0, init_tracer diamond = Some v0 /\
    forall fuel,
      (positive_count v0 + 1 < Z.of_nat fuel ->
       exists v', make_all_simple_linestrings fuel v0 = Ok tt v') /\
      forall v', make_all_simple_linestrings fuel v0 = Ok tt v' ->
      (forall a b, (occurrences a b (all_pairs (line_strings v')) <= 1)%nat) /\
      (forall a b, (1 <= occurrences a b (all_pairs (line_strings v')))%nat ->
         adjacent (padded diamond) a b).
Proof.
  split; [apply thin_ok_check; vm_compute; reflexivity|].
  apply (chains_walk_adjacencies_without_repeating diamond).
  apply thin_ok_check. vm_compute. reflexivity.
Defined.

(** X16: Whenever the tracer returns, connections_seen relates exactly the pairs
    of 8-adjacent mask cells, each in both directions, and every entry of the
    count grid is 0 or -1. *)
Theorem tracing_consumes_every_adjacency thin :
  thin_ok thin ->
  exists v0, init_tracer thin = Some v0 /\
    forall fuel,
      (positive_count v0 + 1 < Z.of_nat fuel ->
       exists v', make_all_simple_linestrings fuel v0 = Ok tt v') /\
      forall v', make_all_simple_linestrings fuel v0 = Ok tt v' ->
      (forall a b, b ∈ seen_of (connections_seen v') a <-> adjacent (padded thin) a b) /\
      (forall rc, in_shape (count_grid v') rc -> cnt v' rc = 0 \/ cnt v' rc = -1).
Proof.
  intros Hok. destruct (traced_state thin Hok) as (v0 & Hinit & Hrun).
  exists v0. split; [exact Hinit|]. intros fuel.
  destruct (Hrun fuel) as [Hen Hfacts]. split; [exact Hen|]. intros v' Hv.
  destruct (Hfacts v' Hv) as (Hwf & He & _ & Hno). split.
  - intros a b. rewrite <- He. split; [apply (wf_adj v' Hwf)|].
    intros (Ha & Hb & Hn).
    destruct (no_positive_count_all_consumed v' a Hwf Hno Ha) as [Hu _].
    by eapply untraced_zero.
  - intros rc Hin. destruct (is_mask (clean_embed v') rc) eqn:Hm.
    + by destruct (no_positive_count_all_consumed v' rc Hwf Hno Hm).
    + left. apply (wf_outside v' Hwf); [|exact Hm].
      unfold in_shape in *. by rewrite <- (wf_rows v' Hwf), <- (wf_cols v' Hwf).
Qed.

Lemma tracing_consumes_every_adjacency_witness :
  thin_ok diamond /\
  exists v0, init_tracer diamond = Some v0 /\
    forall fuel,
      (positive_count v0 + 1 < Z.of_nat fuel ->
       exists v', make_all_simple_linestrings fuel v0 = Ok tt v') /\
      forall v', make_all_simple_linestrings fuel v0 = Ok tt v' ->
      (forall a b, b ∈ seen_of (connections_seen v') a <-> adjacent (padded diamond) a b) /\
      (forall rc, in_shape (count_grid v') rc -> cnt v' rc = 0 \/ cnt v' rc = -1).
Proof.
  split; [apply thin_ok_check; vm_compute; reflexivity|].
  apply (tracing_consumes_every_adjacency diamond).
  apply thin_ok_check. vm_compute. reflexivity.
Defined.

Section Isolated.

Lemma any_none {A} (p : A -> bool) (g : ndarray A) :
  (forall rc, in_shape g rc -> p (item g rc.1 rc.2) = false) -> any p g = false.
Proof.
  intros H. unfold any. apply not_true_iff_false. intros Hex.
  apply existsb_exists in Hex as (rc & Hin & Hp).
  apply list_elem_of_In, elem_of_indices in Hin. rewrite (H rc Hin) in Hp. discriminate.
Qed.

Lemma argwhere_none {A} (p : A -> bool) (g : ndarray A) :
  (forall rc, in_shape g rc -> p (item g rc.1 rc.2) = false) -> argwhere p g = [].
Proof.
  intros H. destruct (argwhere p g) as [|rc l] eqn:E; [reflexivity|].
  assert (rc ∈ argwhere p g) as Hrc by (rewrite E; set_solver).
  apply elem_of_argwhere in Hrc as [Hin Hp]. rewrite (H rc Hin) in Hp. discriminate.
Qed.

Lemma is_mask_argwhere g c :
  is_mask g c = true -> c ∈ argwhere (fun x => 0 <? x) g.
Proof.
  unfold is_mask. intros Hm. apply andb_true_iff in Hm as [Hin Hpos].
  apply bool_decide_eq_true in Hin. by apply elem_of_argwhere.
Qed.

Lemma quiet_run fuel v :
  (forall rc, in_shape (count_grid v) rc -> cnt v rc = 0) ->
  make_all_simple_linestrings (S fuel) v = Ok tt v.
Proof.
  intros Hz.
  assert (any (Z.eqb 1) (count_grid v) = false) as H1.
  { apply any_none. intros rc Hin. fold (cnt v rc). by rewrite (Hz rc Hin). }
  assert (any (fun n => 0 <? n) (count_grid v) = false) as H0.
  { apply any_none. intros rc Hin. fold (cnt v rc). by rewrite (Hz rc Hin). }
  assert (argwhere (Z.eqb 2) (count_grid v) = []) as H2.
  { apply argwhere_none. intros rc Hin. fold (cnt v rc). by rewrite (Hz rc Hin). }
  assert (endpoint_pass (S fuel) v = Ok tt v) as Hend.
  { cbn [endpoint_pass]. unfold bind, get_state. by rewrite H1. }
  unfold make_all_simple_linestrings.
  unfold bind at 1. rewrite Hend.
  unfold bind at 1, make_all_linestrings_starting_at_2, bind at 1, get_state.
  rewrite H2. cbn [filter list_filter starting_at_2_loop ret].
  unfold bind at 1. rewrite Hend.
  cbn [add_remaining]. unfold bind, get_state. by rewrite H0.
Qed.

End Isolated.

(** X17: If no mask cell has a mask neighbour (in particular on an all-zero
    grid), the constructor's count grid has no positive entry and
    make_all_simple_linestrings returns at once with the state unchanged: no
    chain is emitted. *)
Theorem isolated_cells_give_no_chain thin :
  thin_ok thin ->
  (forall rc, is_mask (padded thin) rc = true -> degree (padded thin) rc = 0) ->
  exists v0, init_tracer thin = Some v0 /\ line_strings v0 = [] /\
    forall fuel, make_all_simple_linestrings (S fuel) v0 = Ok tt v0.
Proof.
  intros Hok Hiso. unfold init_tracer. fold (padded thin).
  destruct (make_count_8_grid_padded thin Hok) as (g & -> & Hr & Hc & Hitem).
  eexists. split; [reflexivity|]. split; [reflexivity|].
  intros fuel. apply quiet_run. intros rc Hin. unfold cnt. cbn [count_grid] in *.
  rewrite Hitem by (unfold in_shape in *; by rewrite <- Hr, <- Hc).
  destruct (is_mask (padded thin) rc) eqn:Hm; [by apply Hiso | reflexivity].
Qed.

Lemma isolated_specks : forall rc, is_mask (padded specks) rc = true -> degree (padded specks) rc = 0.
Proof.
  intros rc Hm. apply is_mask_argwhere in Hm. vm_compute in Hm.
  match type of Hm with list_elem_of _ ?l => change (rc ∈ l) in Hm end.
  repeat (apply elem_of_cons in Hm as [->|Hm]); [reflexivity | reflexivity |].
  by apply elem_of_nil in Hm.
Qed.

Lemma isolated_cells_give_no_chain_witness :
  thin_ok specks /\
  (forall rc, is_mask (padded specks) rc = true -> degree (padded specks) rc = 0) /\
  exists v0, init_tracer specks = Some v0 /\ line_strings v0 = [] /\
    forall fuel, make_all_simple_linestrings (S fuel) v0 = Ok tt v0.
Proof.
  assert (thin_ok specks) as Hok by (apply thin_ok_check; vm_compute; reflexivity).
  split_and!; [exact Hok | exact isolated_specks |].
  exact (isolated_cells_give_no_chain specks Hok isolated_specks).
Defined.

Section Midpoints.

Lemma traced_inv fuel thin v :
  traced fuel thin = Some v ->
  exists v0, init_tracer thin = Some v0 /\ make_all_simple_linestrings fuel v0 = Ok tt v.
Proof.
  unfold traced. destruct (init_tracer thin) as [v0|]; [|discriminate]. cbn.
  destruct (make_all_simple_linestrings fuel v0) as [[] v'|] eqn:E; [|discriminate].
  intros [= <-]. eauto.
Qed.

Lemma traced_facts fuel thin v :
  thin_ok thin -> traced fuel thin = Some v ->
  wf v /\ clean_embed v = padded thin /\
  edges_once (connections_seen v) (all_pairs (line_strings v)) /\
  any (fun n => 0 <? n) (count_grid v) = false.
Proof.
  intros Hok Ht. apply traced_inv in Ht as (v0 & Hinit & Hrun).
  destruct (traced_state thin Hok) as (v0' & Hinit' & Hfacts).
  rewrite Hinit in Hinit'. injection Hinit' as <-.
  by apply (Hfacts fuel).
Qed.

Lemma elem_of_pairs_either (l : list cell) c :
  c ∈ l -> (2 <= length l)%nat -> exists d, (c, d) ∈ pairs l \/ (d, c) ∈ pairs l.
Proof.
  induction l as [|x l IH]; intros Hc Hlen; [by apply elem_of_nil in Hc|].
  destruct l as [|y l]; [cbn in Hlen; lia|].
  change (pairs (x :: y :: l)) with ((x, y) :: pairs (y :: l)).
  apply elem_of_cons in Hc as [->|Hc]; [exists y; left; set_solver|].
  destruct l as [|z l].
  - apply list_elem_of_singleton in Hc as ->. exists x. right. set_solver.
  - destruct (IH Hc) as [d Hd]; [cbn; lia|]. exists d. set_solver.
Qed.

Lemma occurrences_elem a b (ps : list (cell * cell)) :
  (a, b) ∈ ps \/ (b, a) ∈ ps -> (1 <= occurrences a b ps)%nat.
Proof.
  intros H. unfold occurrences.
  assert (exists p, p ∈ filter (fun p => p = (a, b) \/ p = (b, a)) ps) as [p Hp].
  { destruct H as [H|H]; eexists; apply list_elem_of_filter; split; try exact H; auto. }
  destruct (filter _ ps); [by apply elem_of_nil in Hp | cbn; lia].
Qed.

Lemma chain_cells_are_mask fuel thin v chain c :
  thin_ok thin -> traced fuel thin = Some v ->
  chain ∈ line_strings v -> (2 <= length chain)%nat -> c ∈ chain ->
  is_mask (padded thin) c = true.
Proof.
  intros Hok Ht Hchain Hlen Hc.
  destruct (traced_facts fuel thin v Hok Ht) as (Hwf & He & Honce & _).
  destruct (elem_of_pairs_either chain c Hc Hlen) as [d Hd].
  assert (1 <= occurrences c d (all_pairs (line_strings v)))%nat as Hocc.
  { apply occurrences_elem. unfold all_pairs.
    destruct Hd as [Hd|Hd]; [left | right]; apply list_elem_of_bind; eauto. }
  apply Honce, (wf_adj v Hwf) in Hocc as (Hm & _). by rewrite <- He.
Qed.

Lemma mask_is_skeleton_cell thin rc :
  is_mask (padded thin) rc = true ->
  in_shape thin (rc.1 - 1, rc.2 - 1) /\
  0 < item thin (rc.1 - 1) (rc.2 - 1) /\ item thin (rc.1 - 1) (rc.2 - 1) <> 2.
Proof.
  rewrite is_mask_padded. intros Hpos. apply Z.ltb_lt in Hpos.
  pose proof (padded_positive thin _ _ Hpos) as [Hr Hc].
  unfold padded, embed_in_larger, assign_where in *. cbn [item nrows ncols fst snd] in *.
  destruct (_ && _); [|lia].
  destruct (Z.eqb_spec 2 (item thin (rc.1 - 1) (rc.2 - 1))); [lia|].
  unfold in_shape. cbn [fst snd]. split_and!; lia.
Qed.

End Midpoints.

(** X18: After tracing, make_shapely_line_strings hands shapely one coordinate
    array for each chain of more than one cell. Each array has at least two
    vertices, and every vertex is the midpoint of a cell of the thin grid whose
    entry is positive and not 2. *)
Theorem line_vertices_are_skeleton_midpoints thin fuel v :
  thin_ok thin -> traced fuel thin = Some v ->
  forall (LineString : Type) (a : Assembler LineString)
         (merge_and_node : list (list coords) -> list LineString),
    shapely_line_strings _ (make_shapely_line_strings _ merge_and_node (line_strings v) a)
    = merge_and_node (midpoint_lines a (line_strings v)) /\
    forall line, line ∈ midpoint_lines a (line_strings v) ->
      (2 <= length line)%nat /\
      forall p, p ∈ line ->
        exists rc, in_shape thin rc /\ 0 < item thin rc.1 rc.2 /\ item thin rc.1 rc.2 <> 2 /\
                   row_col_array_to_midpoint_coordinates _ a [rc] = [p].
Proof.
  intros Hok Ht LineString a merge_and_node. split; [reflexivity|].
  intros line Hline. unfold midpoint_lines in Hline.
  apply list_elem_of_bind in Hline as (chain & Hline & Hchain).
  rewrite length_map in Hline.
  destruct (Nat.ltb_spec 1 (length chain)) as [Hlen|]; [|by apply elem_of_nil in Hline].
  apply list_elem_of_singleton in Hline as ->.
  unfold row_col_array_to_midpoint_coordinates. rewrite !length_map. split; [lia|].
  intros p Hp. rewrite map_map in Hp. apply list_elem_of_In, in_map_iff in Hp as (c & <- & Hc).
  apply list_elem_of_In in Hc.
  pose proof (chain_cells_are_mask fuel thin v chain c Hok Ht Hchain Hlen Hc) as Hm.
  apply mask_is_skeleton_cell in Hm as (Hin & Hpos & Hne).
  exists (c.1 - 1, c.2 - 1). split_and!; try done.
Qed.

Lemma line_vertices_are_skeleton_midpoints_witness :
  exists v, traced 10 wye = Some v /\
  forall (LineString : Type) (a : Assembler LineString)
         (merge_and_node : list (list coords) -> list LineString),
    shapely_line_strings _ (make_shapely_line_strings _ merge_and_node (line_strings v) a)
    = merge_and_node (midpoint_lines a (line_strings v)) /\
    forall line, line ∈ midpoint_lines a (line_strings v) ->
      (2 <= length line)%nat /\
      forall p, p ∈ line ->
        exists rc, in_shape wye rc /\ 0 < item wye rc.1 rc.2 /\ item wye rc.1 rc.2 <> 2 /\
                   row_col_array_to_midpoint_coordinates _ a [rc] = [p].
Proof.
  destruct (traced 10 wye) as [v|] eqn:E; [|vm_compute in E; discriminate].
  exists v. split; [reflexivity|].
  exact (line_vertices_are_skeleton_midpoints wye 10 v thin_ok_wye E).
Defined.

Section ThinGrid.

Lemma same_thin_trans x y z : same_thin x y -> same_thin y z -> same_thin x z.
Proof. unfold same_thin. congruence. Qed.

Lemma read_count_same_thin rc v : same_thin v (final_state (read_count rc v)).
Proof. unfold read_count. by rewrite final_state_lift_option. Qed.

Lemma read_count_state rc v n v' : read_count rc v = Ok n v' -> v' = v.
Proof. unfold read_count. intros H. by apply lift_option_Ok_inv in H as [_ ->]. Qed.

Lemma decrement_same_thin rc v : same_thin v (final_state (decrement rc v)).
Proof.
  unfold decrement. apply bind_respects; [apply same_thin_trans | apply read_count_same_thin |].
  intros n v1 Hr. apply read_count_state in Hr as ->.
  destruct (setitem _ _ _); reflexivity.
Qed.

Lemma pop_same_thin l v : same_thin v (final_state (pop l v)).
Proof. by destruct l. Qed.

Lemma scan_same_thin recur rc all :
  (forall rc1 l v, same_thin v (final_state (recur rc1 l v))) ->
  forall offs l v, same_thin v (final_state (scan recur rc l all offs v)).
Proof.
  intros Hrec. induction offs as [|[i j] rest IH]; intros l v; cbn [scan].
  - apply pop_same_thin.
  - apply bind_respects; [apply same_thin_trans | apply read_count_same_thin |].
    intros n v1 Hr. apply read_count_state in Hr as ->.
    unfold bind at 1, get_state at 1.
    destruct (_ && _); [|apply IH].
    apply bind_respects; [apply same_thin_trans | reflexivity |].
    intros [] v1 Hm. unfold add_to_connections_seen, modify in Hm. injection Hm as <-.
    apply bind_respects; [apply same_thin_trans | apply decrement_same_thin |].
    intros [] v2 _.
    apply bind_respects;
      [apply same_thin_trans | unfold read_init_count; by rewrite final_state_lift_option |].
    intros init v3 _.
    destruct (_ && _); [reflexivity|]. destruct (_ && _); [apply Hrec | reflexivity].
Qed.

Lemma investigate_same_thin fuel : forall rc l all v,
  same_thin v (final_state (investigate_row_col fuel rc l all v)).
Proof.
  induction fuel as [|fuel IH]; intros rc l all v; cbn [investigate_row_col]; [reflexivity|].
  apply bind_respects; [apply same_thin_trans | apply decrement_same_thin |].
  intros [] v1 _. apply scan_same_thin. intros rc1 l1 v2. apply IH.
Qed.

Lemma walk_same_thin fuel rc l all v :
  same_thin v (final_state
    ((do l' <- investigate_row_col fuel rc l all; append_line_string l') v)).
Proof.
  apply bind_respects; [apply same_thin_trans | apply investigate_same_thin |].
  intros l' v1 _. reflexivity.
Qed.

Lemma starting_at_1_loop_same_thin fuel all : forall cells v,
  same_thin v (final_state (starting_at_1_loop fuel all cells v)).
Proof.
  induction cells as [|rc rest IH]; intros v; cbn [starting_at_1_loop]; [reflexivity|].
  apply bind_respects; [apply same_thin_trans | apply read_count_same_thin |].
  intros n v1 Hr. apply read_count_state in Hr as ->.
  apply bind_respects; [apply same_thin_trans | | intros; apply IH].
  destruct (n =? 1); [apply walk_same_thin | reflexivity].
Qed.

Lemma endpoint_pass_same_thin fuel : forall v,
  same_thin v (final_state (endpoint_pass fuel v)).
Proof.
  induction fuel as [|fuel IH]; intros v; cbn [endpoint_pass]; [reflexivity|].
  unfold bind at 1, get_state at 1. destruct (any _ _); [|reflexivity].
  apply bind_respects; [apply same_thin_trans | | intros; apply IH].
  unfold make_all_linestrings_starting_at_1, bind, get_state.
  apply starting_at_1_loop_same_thin.
Qed.

Lemma starting_at_2_body_same_thin fuel rc v :
  same_thin v (final_state (starting_at_2_body fuel rc v)).
Proof.
  unfold starting_at_2_body.
  apply bind_respects; [apply same_thin_trans | apply read_count_same_thin |].
  intros n v1 Hr. apply read_count_state in Hr as ->.
  apply bind_respects; [apply same_thin_trans | |].
  { destruct (0 <? n); [apply investigate_same_thin | reflexivity]. }
  intros l v1 _.
  apply bind_respects; [apply same_thin_trans | apply read_count_same_thin |].
  intros n' v2 Hr. apply read_count_state in Hr as ->.
  apply bind_respects; [apply same_thin_trans | |].
  { destruct (0 <? n'); [apply investigate_same_thin | reflexivity]. }
  intros l' v2 _. destruct (_ <? _)%nat; reflexivity.
Qed.

Lemma starting_at_2_loop_same_thin fuel : forall cells v,
  same_thin v (final_state (starting_at_2_loop fuel cells v)).
Proof.
  induction cells as [|rc rest IH]; intros v; cbn [starting_at_2_loop]; [reflexivity|].
  apply bind_respects;
    [apply same_thin_trans | apply starting_at_2_body_same_thin | intros; apply IH].
Qed.

Lemma add_remaining_loop_same_thin fuel : forall cells v,
  same_thin v (final_state (add_remaining_loop fuel cells v)).
Proof.
  induction cells as [|rc rest IH]; intros v; cbn [add_remaining_loop]; [reflexivity|].
  apply bind_respects; [apply same_thin_trans | apply investigate_same_thin |].
  intros l v1 _.
  apply bind_respects; [apply same_thin_trans | reflexivity | intros; apply IH].
Qed.

Lemma add_remaining_same_thin fuel : forall v,
  same_thin v (final_state (add_remaining fuel v)).
Proof.
  induction fuel as [|fuel IH]; intros v; cbn [add_remaining]; [reflexivity|].
  unfold bind at 1, get_state at 1. destruct (any _ _); [|reflexivity].
  apply bind_respects;
    [apply same_thin_trans | apply add_remaining_loop_same_thin | intros; apply IH].
Qed.

Lemma make_all_simple_linestrings_same_thin fuel v :
  same_thin v (final_state (make_all_simple_linestrings fuel v)).
Proof.
  unfold make_all_simple_linestrings.
  apply bind_respects; [apply same_thin_trans | apply endpoint_pass_same_thin |].
  intros [] v1 _.
  apply bind_respects; [apply same_thin_trans | |].
  { unfold make_all_linestrings_starting_at_2, bind, get_state.
    apply starting_at_2_loop_same_thin. }
  intros [] v2 _.
  apply bind_respects;
    [apply same_thin_trans | apply endpoint_pass_same_thin
    | intros; apply add_remaining_same_thin].
Qed.

Lemma elem_of_slice {A} (g : ndarray A) r0 r1 c0 c1 x :
  x ∈ slice g r0 r1 c0 c1 -> exists r c, x = item g r c.
Proof.
  unfold slice. intros H. apply list_elem_of_bind in H as (r & H & _).
  apply list_elem_of_bind in H as (c & H & _). apply list_elem_of_singleton in H. eauto.
Qed.

Lemma no_two_no_connecting_cell v :
  (forall r c, item (thin_grid v) r c <> 2) -> connecting_row_cols v = [].
Proof.
  intros Hno. unfold connecting_row_cols.
  destruct (filter _ _) as [|rc l] eqn:E; [reflexivity|].
  assert (rc ∈ rc :: l) as Hrc by set_solver. rewrite <- E in Hrc.
  apply list_elem_of_filter in Hrc as [Hex _].
  apply existsb_exists in Hex as (x & Hx & H2). apply Z.eqb_eq in H2. subst x.
  apply list_elem_of_In, elem_of_slice in Hx as (r & c & Hx). by destruct (Hno r c).
Qed.

End ThinGrid.

(** X19: connecting_points_coordinates is always empty: the constructor sets
    every 2 of its copy of the thin grid to 0 and tracing never writes to that
    grid, so no cell with entry 1 has a 2 in its 3x3 window. *)
Theorem connecting_points_coordinates_is_empty thin fuel v :
  traced fuel thin = Some v ->
  thin_grid v = assign_where (Z.eqb 2) 0 thin /\
  connecting_row_cols v = [] /\
  forall (LineString : Type) (a : Assembler LineString),
    connecting_points_coordinates LineString v a = [].
Proof.
  intros Ht. apply traced_inv in Ht as (v0 & Hinit & Hrun).
  assert (thin_grid v = assign_where (Z.eqb 2) 0 thin) as Hthin.
  { pose proof (make_all_simple_linestrings_same_thin fuel v0) as Hs.
    rewrite Hrun in Hs. cbn in Hs. unfold same_thin in Hs. rewrite Hs.
    unfold init_tracer in Hinit. destruct (make_count_8_grid _); [|discriminate].
    by injection Hinit as <-. }
  assert (connecting_row_cols v = []) as Hnone.
  { apply no_two_no_connecting_cell. intros r c. rewrite Hthin.
    unfold assign_where. cbn [item]. destruct (Z.eqb_spec 2 (item thin r c)); lia. }
  split_and!; [exact Hthin | exact Hnone |].
  intros LineString a. unfold connecting_points_coordinates. by rewrite Hnone.
Qed.

Lemma connecting_points_coordinates_is_empty_witness :
  exists v, traced 10 marked = Some v /\
    thin_grid v = assign_where (Z.eqb 2) 0 marked /\
    connecting_row_cols v = [] /\
    forall (LineString : Type) (a : Assembler LineString),
      connecting_points_coordinates LineString v a = [].
Proof.
  destruct (traced 10 marked) as [v|] eqn:E; [|vm_compute in E; discriminate].
  exists v. split; [reflexivity|].
  exact (connecting_points_coordinates_is_empty marked 10 v E).
Defined.

End VectorizeMore.


(** ** vectorize.py: further properties of the geometry phase *)

Module GeometryMore.
Import Vectorize VectorizeSpec VectorizeExamples VectorizeProofs VectorizeMore.

Section Connecting.
Variable LineString : Type.
Variable coords_of : LineString -> list coords.
Variable merge_and_node : list (list coords) -> list LineString.
Variable unary_union : list LineString -> list LineString.

Lemma connect_no_line (a : Assembler LineString) :
  shapely_line_strings _ a = [] ->
  connect_to_base_waterways _ coords_of unary_union a
  = Ok tt (set_frame _ (map (fun g => (true, g)) (reference_waterway_data _ a)) a).
Proof.
  intros Hl. unfold connect_to_base_waterways, bind, get_state. rewrite Hl.
  cbn [connect_lines ret]. unfold modify. cbn [map]. by rewrite app_nil_r.
Qed.

End Connecting.

(** X20: If tracing returns and shapely's line merging and noding yield no line
    string, connect_to_base_waterways never reads connecting_dict and the
    constructor returns: its final frame holds just the reference waterways, all
    with from_tdx True, and there is no intersection point. *)
Theorem init_without_lines_returns_reference (LineString : Type)
    (coords_of : LineString -> list coords)
    (merge_and_node : list (list coords) -> list LineString)
    (unary_union : list LineString -> list LineString)
    fuel thin reference_waterway_data x_min y_max x_res y_res v :
  traced fuel thin = Some v ->
  merge_and_node
    (midpoint_lines (new_assembler _ x_min y_max x_res y_res reference_waterway_data)
       (line_strings v)) = [] ->
  exists a,
    init _ coords_of merge_and_node unary_union fuel thin reference_waterway_data
      x_min y_max x_res y_res = InitOk _ v a /\
    frame _ a = Some (map (fun g => (true, g)) reference_waterway_data) /\
    intersection_points _ a = [] /\ shapely_line_strings _ a = [].
Proof.
  intros Ht Hnone. apply traced_inv in Ht as (v0 & Hinit & Hrun).
  unfold init. rewrite Hinit, Hrun.
  set (a0 := make_shapely_line_strings _ merge_and_node (line_strings v)
               (new_assembler _ x_min y_max x_res y_res reference_waterway_data)).
  assert (shapely_line_strings _ a0 = []) as Hl by exact Hnone.
  rewrite (connect_no_line _ coords_of unary_union a0 Hl).
  eexists. split_and!; [reflexivity | reflexivity | reflexivity | exact Hl].
Qed.

Lemma init_without_lines_returns_reference_witness :
  exists v a,
    traced 10 specks = Some v /\
    id (midpoint_lines (new_assembler (list coords) zero zero (of_Z 1) (of_Z 1) [[(zero, zero)]])
          (line_strings v)) = [] /\
    init (list coords) id id id 10 specks [[(zero, zero)]] zero zero (of_Z 1) (of_Z 1)
      = InitOk _ v a /\
    frame _ a = Some (map (fun g => (true, g)) [[(zero, zero)]]) /\
    intersection_points _ a = [] /\ shapely_line_strings _ a = [].
Proof.
  destruct (traced 10 specks) as [v|] eqn:E; [|vm_compute in E; discriminate].
  assert (id (midpoint_lines
                (new_assembler (list coords) zero zero (of_Z 1) (of_Z 1) [[(zero, zero)]])
                (line_strings v)) = []) as Hnone.
  { vm_compute in E. injection E as <-. reflexivity. }
  destruct (init_without_lines_returns_reference (list coords) id id id 10 specks
              [[(zero, zero)]] zero zero (of_Z 1) (of_Z 1) v E Hnone) as (a & Ha).
  exists v, a. split_and!; [reflexivity | exact Hnone | apply Ha | apply Ha | apply Ha | apply Ha].
Defined.

Section Midpoint.
Variable LineString : Type.

Lemma mul_add_cancel (x r u v : Q) : ~ (r == 0)%Q -> (x + r * u == x + r * v)%Q -> (u == v)%Q.
Proof.
  intros Hr H. assert (r * (u - v) == 0)%Q as Hz by lra.
  apply Qmult_integral in Hz as [Hz|Hz]; [contradiction | lra].
Qed.

Lemma mul_sub_cancel (x r u v : Q) : ~ (r == 0)%Q -> (x - r * u == x - r * v)%Q -> (u == v)%Q.
Proof.
  intros Hr H. assert (r * (u - v) == 0)%Q as Hz by lra.
  apply Qmult_integral in Hz as [Hz|Hz]; [contradiction | lra].
Qed.

Lemma half_cancel (m n : Z) : (inject_Z m + (1 # 2) == inject_Z n + (1 # 2))%Q -> m = n.
Proof. intros H. apply inject_Z_injective. lra. Qed.

End Midpoint.

(** X23: With finite bounds and non-zero resolutions, and the arithmetic carried
    out exactly, row_col_array_to_midpoint_coordinates maps two different cells
    to two different points. *)
Theorem midpoints_tell_cells_apart (LineString : Type) (a : Assembler LineString)
    (x0 y0 rx ry : Q) rc rc' p p' :
  x_min _ a = Fin x0 -> y_max _ a = Fin y0 -> x_res _ a = Fin rx -> y_res _ a = Fin ry ->
  ~ (rx == 0)%Q -> ~ (ry == 0)%Q ->
  row_col_array_to_midpoint_coordinates _ a [rc] = [p] ->
  row_col_array_to_midpoint_coordinates _ a [rc'] = [p'] ->
  rc <> rc' -> coords_eqb p p' = false.
Proof.
  intros Hx Hy Hrx Hry Hnx Hny Hp Hp' Hne.
  apply not_true_iff_false. intros Heq. apply Hne.
  unfold row_col_array_to_midpoint_coordinates in Hp, Hp'.
  rewrite Hx, Hy, Hrx, Hry in Hp, Hp'. cbn [map] in Hp, Hp'.
  injection Hp as <-. injection Hp' as <-.
  unfold coords_eqb in Heq. cbn [fst snd] in Heq. apply andb_true_iff in Heq as [Ex Ey].
  unfold half, of_Z in *. cbn [add mul] in Ex.
  apply Qeq_bool_iff, mul_add_cancel, half_cancel in Ex; [|assumption].
  assert (rc.1 = rc'.1) as E1.
  { unfold zero in Ey. cbn [ltb sub] in Ey.
    destruct (negb (Qle_bool 0 ry)); cbn [add mul sub eqb] in Ey;
      apply Qeq_bool_iff, mul_sub_cancel, half_cancel in Ey; try assumption.
    intros Hz. apply Hny. lra. }
  destruct rc, rc'; cbn in *; congruence.
Qed.

Lemma midpoints_tell_cells_apart_witness :
  exists p p',
    row_col_array_to_midpoint_coordinates _ (keyed_assembler []) [(3, 4)] = [p] /\
    row_col_array_to_midpoint_coordinates _ (keyed_assembler []) [(3, 5)] = [p'] /\
    coords_eqb p p' = false.
Proof.
  eexists _, _. split_and!; [reflexivity | reflexivity |].
  apply (midpoints_tell_cells_apart (list coords) (keyed_assembler []) 0 0 1 1 (3, 4) (3, 5));
    [reflexivity | reflexivity | reflexivity | reflexivity | lra | lra
    | reflexivity | reflexivity | discriminate].
Defined.

End GeometryMore.
